(** * Screenshare signaling server: room coordinator

    A shallow embedding of the Socket.IO signaling server: the helper
    [validateEvent] and the handlers registered in
    [io.on('connection', ...)] for start-share, stop-share, get-available,
    join-view, offer, answer, ice, ice-candidate and disconnect, followed
    by the properties of the relay and of the room table.

    Conventions of the embedding
    - A JavaScript string is a Rocq [string] holding its UTF-8 encoding;
      [js_length] is the JavaScript [.length] (UTF-16 code units) and
      [byte_size] the number of bytes.
    - A payload is an object whose [roomId] and [targetId], when present,
      are strings.  A number [JNum n] is the integer [n]; the text
      [JSON_stringify] gives for it is JavaScript's for the safe integers
      ([safe_numbers]), beyond them JavaScript rounds and, from 1e21 on,
      prints an exponent.
    - Socket objects are referred to by their id.  Socket.IO never reuses
      an id, so the registry keeps the record of a closed socket (with
      [connected = false]); this is the object a room may still point to.
    - Room objects live in a heap.  [rooms] is a plain object: the table
      [rooms] holds its own keys, each with the location of a room object,
      and [proto] the room object that an assignment to [rooms['__proto__']]
      made its prototype.  [rooms_get] is the lookup [rooms[k]], which also
      finds what the object inherits; calling a method of [viewers] on an
      inherited value that is no room throws a TypeError ([Thrown]).
    - An uncaught TypeError ends the handler it leaves and every handler
      that was running it.  Node then ends the process, unless the
      environment catches the error: [reachable] are the states of a
      server that has thrown nothing, and the invariants are proved over
      [reachable_if], which also follows a server past a caught error.
    - Socket.IO 4: [io.to(r)] reaches the connected sockets that joined
      [r]; [socket.to(r)] leaves out the sockets in the room named by the
      sender's id.  The order in which a broadcast is written to its
      recipients is not modelled ([members] lists them by id).
    - [socket.disconnect()] on the server emits ['disconnect'] on that
      socket before it returns, so the handler of the closed socket runs
      inside the caller; [on_disconnect] is therefore recursive, with fuel
      ([handle_total]: the fuel given is enough).
    - [console.log] and [logEvent] only print and are left out. *)

From Stdlib Require Import ZArith NArith Lia Ascii.
From stdpp Require Import gmap strings list fin_maps pretty.

Set Warnings "-register-all,-abstract-large-number".

(** ** JavaScript values carried by events *)

Inductive jsval : Type :=
  | JNull
  | JBool (b : bool)
  | JNum (n : Z)            (* integer-valued number *)
  | JBigInt (n : Z)
  | JStr (s : string)
  | JArr (items : list jsval)
  | JObj (props : list (string * jsval)).

(** [!!v] of JavaScript. *)
Definition truthy (v : jsval) : bool :=
  match v with
  | JNull => false
  | JBool b => b
  | JNum n => negb (Z.eqb n 0)
  | JBigInt n => negb (Z.eqb n 0)
  | JStr s => negb (String.eqb s "")
  | JArr _ => true
  | JObj _ => true
  end.

(** A field that may be [undefined]. *)
Definition truthy_opt (o : option jsval) : bool :=
  match o with Some v => truthy v | None => false end.

Definition truthy_str (o : option string) : bool :=
  match o with Some s => negb (String.eqb s "") | None => false end.

(** ** String sizes *)

Fixpoint byte_size (s : string) : N :=
  match s with
  | EmptyString => 0
  | String _ r => 1 + byte_size r
  end.

(** UTF-16 code units contributed by one byte of a UTF-8 text: a
    continuation byte gives none, a lead byte one, the lead byte of a
    four-byte sequence (a code point beyond the BMP) two. *)
Definition units_of_byte (a : ascii) : N :=
  let n := N_of_ascii a in
  if N.ltb n 128 then 1
  else if N.ltb n 192 then 0
  else if N.ltb n 240 then 1
  else 2.

Fixpoint js_length (s : string) : N :=
  match s with
  | EmptyString => 0
  | String a r => units_of_byte a + js_length r
  end.

(** ** JSON.stringify *)

Definition dquote : string := String (ascii_of_nat 34) "".

Definition hex_digit (n : nat) : ascii :=
  ascii_of_nat (if Nat.ltb n 10 then 48 + n else 87 + n).

(** QuoteJSONString on one byte; bytes of multi-byte characters are kept. *)
Definition escape_byte (a : ascii) : string :=
  let n := nat_of_ascii a in
  if Nat.eqb n 34 then "\" +:+ dquote
  else if Nat.eqb n 92 then "\\"
  else if Nat.eqb n 8 then "\b"
  else if Nat.eqb n 9 then "\t"
  else if Nat.eqb n 10 then "\n"
  else if Nat.eqb n 12 then "\f"
  else if Nat.eqb n 13 then "\r"
  else if Nat.ltb n 32 then
    "\u00" +:+ String (hex_digit (n / 16)) (String (hex_digit (n mod 16)) "")
  else String a "".

Fixpoint escape (s : string) : string :=
  match s with
  | EmptyString => ""
  | String a r => escape_byte a +:+ escape r
  end.

Definition quote (s : string) : string := dquote +:+ escape s +:+ dquote.

Fixpoint join_comma (l : list string) : string :=
  match l with
  | [] => ""
  | [x] => x
  | x :: r => x +:+ "," +:+ join_comma r
  end.

(** [None] is a thrown TypeError (a BigInt anywhere in the value). *)
Fixpoint JSON_stringify (v : jsval) : option string :=
  match v with
  | JNull => Some "null"
  | JBool true => Some "true"
  | JBool false => Some "false"
  | JNum n => Some (pretty n)
  | JBigInt _ => None
  | JStr s => Some (quote s)
  | JArr items =>
      let fix go (l : list jsval) : option (list string) :=
        match l with
        | [] => Some []
        | x :: r =>
            match JSON_stringify x, go r with
            | Some a, Some b => Some (a :: b)
            | _, _ => None
            end
        end in
      match go items with
      | Some parts => Some ("[" +:+ join_comma parts +:+ "]")
      | None => None
      end
  | JObj props =>
      let fix go (l : list (string * jsval)) : option (list string) :=
        match l with
        | [] => Some []
        | (k, x) :: r =>
            match JSON_stringify x, go r with
            | Some a, Some b => Some ((quote k +:+ ":" +:+ a) :: b)
            | _, _ => None
            end
        end in
      match go props with
      | Some parts => Some ("{" +:+ join_comma parts +:+ "}")
      | None => None
      end
  end.

(** ** Event validation *)

(** Allowed event names for validation. *)
Definition allowedEvents : list string :=
  ["start-share"; "join-view"; "offer"; "answer"; "ice"; "ice-candidate";
   "stop-share"; "get-available"].

Inductive validation : Type :=
  | Valid
  | Invalid (error : string).

Definition includes (l : list string) (x : string) : bool :=
  existsb (String.eqb x) l.

(** [validateEvent(event, data)].  [data = None] is [undefined]; both it
    and [JNull] satisfy [data == null].  [JSON.stringify] of a value of
    [jsval] is always a string when it does not throw. *)
Definition validateEvent (event : string) (data : option jsval) : validation :=
  if negb (includes allowedEvents event) then Invalid "Invalid event type"
  else
    let messageSize : option N :=
      match data with
      | None | Some JNull => Some 0%N
      | Some d =>
          match JSON_stringify d with
          | Some s => Some (js_length s)
          | None => None
          end
      end in
    match messageSize with
    | None => Invalid "Malformed payload"
    | Some n =>
        if (65536 <? n)%N then Invalid "Message too large" else Valid
    end.

(** ** Payloads, sockets, rooms *)

(** The object an event carries, with the fields the handlers read.  Ids
    are strings; the signaling bodies are arbitrary values.  [None] is an
    absent field. *)
Record payload : Type := mkPayload {
  p_roomId : option string;
  p_targetId : option string;
  p_offer : option jsval;
  p_answer : option jsval;
  p_candidate : option jsval
}.

Definition opt_prop {A} (k : string) (f : A → jsval) (o : option A)
    : list (string * jsval) :=
  match o with Some v => [(k, f v)] | None => [] end.

(** The payload as the JavaScript object the handler receives. *)
Definition to_js (p : payload) : jsval :=
  JObj (opt_prop "roomId" JStr (p_roomId p)
        ++ opt_prop "targetId" JStr (p_targetId p)
        ++ opt_prop "offer" id (p_offer p)
        ++ opt_prop "answer" id (p_answer p)
        ++ opt_prop "candidate" id (p_candidate p)).

(** The fields the server keeps on a socket object, and what Socket.IO
    keeps for it: whether it is connected and the Socket.IO rooms it has
    joined ([socket.join]). *)
Record socket : Type := mkSocket {
  roomId : option string;
  isHost : option bool;
  connected : bool;
  joined : gset string
}.

(** A room object [{ host: socket, viewers: [] }]. *)
Record room : Type := mkRoom {
  host : string;
  viewers : list string
}.

(** [rooms] are the own keys of the plain object [rooms], [proto] the
    room object installed as its prototype ([None]: [Object.prototype]). *)
Record state : Type := mkState {
  sockets : gmap string socket;
  rooms : gmap string nat;
  proto : option nat;
  heap : list room
}.

Definition initial : state := mkState ∅ ∅ None [].

(** ** Outbound messages *)

Inductive message : Type :=
  | Error (msg : string)
  | RoomCreated (rid : string)
  | HostStopped
  | AvailableCount (count : nat)
  | ViewerJoined (viewerId : string)
  | ViewJoined (rid : string)
  | ViewerLeft (viewerId : string)
  | HostDisconnected
  | ShareStarted (rid : string)
  | Signal (event : string) (body : option jsval) (fromId : string).

(** What a handler does to the outside: a message written to a socket, a
    connection closed by the server, and an uncaught TypeError, after
    which nothing more of the handler runs. *)
Inductive effect : Type :=
  | Deliver (to : string) (m : message)
  | Closed (sid : string)
  | Thrown.

(** ** Commands on the server state *)

(** A handler step: the new state and the messages it sends, in order. *)
Definition cmd : Type := state → state * list effect.

Definition skip : cmd := λ st, (st, []).

Definition throw : cmd := λ st, (st, [Thrown]).

Definition is_thrown (e : effect) : bool :=
  match e with Thrown => true | _ => false end.

(** Whether the effects of a call end in an uncaught error. *)
Definition threw (out : list effect) : bool := existsb is_thrown out.

Definition seq (c1 c2 : cmd) : cmd := λ st,
  let '(st1, e1) := c1 st in
  let '(st2, e2) := c2 st1 in
  (st2, e1 ++ e2).

Notation "c1 >>> c2" := (seq c1 c2) (at level 90, right associativity).

Definition sock (st : state) (s : string) : option socket := sockets st !! s.

Definition is_connected (st : state) (s : string) : bool :=
  match sock st s with Some k => connected k | None => false end.

(** [socket.roomId] and a truthy [socket.isHost]. *)
Definition sock_roomId (st : state) (s : string) : option string :=
  sock st s ≫= roomId.

Definition sock_isHost (st : state) (s : string) : bool :=
  match sock st s ≫= isHost with Some b => b | None => false end.

(** The room object behind [rooms[rid]]. *)
Definition room_at (st : state) (rid : string) : option room :=
  rooms st !! rid ≫= λ loc, heap st !! loc.

Definition update_sock (f : socket → socket) (s : string) : cmd := λ st,
  (mkState (alter f s (sockets st)) (rooms st) (proto st) (heap st), []).

Definition set_roomId (s rid : string) : cmd :=
  update_sock (λ k, mkSocket (Some rid) (isHost k) (connected k) (joined k)) s.

Definition set_isHost (s : string) (b : bool) : cmd :=
  update_sock (λ k, mkSocket (roomId k) (Some b) (connected k) (joined k)) s.

(** [socket.join(rid)] and [socket.leave(rid)]. *)
Definition socket_join (s rid : string) : cmd :=
  update_sock (λ k, mkSocket (roomId k) (isHost k) (connected k) ({[rid]} ∪ joined k)) s.

Definition socket_leave (s rid : string) : cmd :=
  update_sock (λ k, mkSocket (roomId k) (isHost k) (connected k) (joined k ∖ {[rid]})) s.

(** [socket.emit]: what is written to a socket that is no longer
    connected never reaches the peer's application. *)
Definition socket_emit (s : string) (m : message) : cmd := λ st,
  (st, if is_connected st s then [Deliver s m] else []).

(** The connected sockets that joined the Socket.IO room [rid]. *)
Definition members (st : state) (rid : string) : list string :=
  (map_to_list
     (filter (λ tk, connected tk.2 = true ∧ rid ∈ joined tk.2) (sockets st))).*1.

(** [io.to(rid).emit]: to every member of the Socket.IO room. *)
Definition io_to_emit (rid : string) (m : message) : cmd := λ st,
  (st, (λ t, Deliver t m) <$> members st rid).

(** [socket.to(rid).emit]: the broadcast excepts the room named by the
    sender's id, so it goes to the members of [rid] that are not in that
    room.  The sender itself is in it, unless it has left it. *)
Definition socket_to_emit (s rid : string) (m : message) : cmd := λ st,
  (st, (λ t, Deliver t m) <$>
         filter (λ t, t ∉ members st s) (members st rid)).

(** The members of [Object.prototype] other than the accessor
    [__proto__]: functions, which a plain object inherits. *)
Definition object_prototype : list string :=
  ["constructor"; "hasOwnProperty"; "isPrototypeOf"; "propertyIsEnumerable";
   "toLocaleString"; "toString"; "valueOf"; "__defineGetter__";
   "__defineSetter__"; "__lookupGetter__"; "__lookupSetter__"].

(** What [rooms[k]] evaluates to: [undefined], a room object, or a truthy
    value that is no room object and has no [viewers] (a function of
    [Object.prototype], that prototype itself, or the [host] or [viewers]
    of a room object that became the prototype). *)
Inductive slot : Type :=
  | Undefined
  | RoomAt (loc : nat)
  | Other.

(** [rooms[k]]: an own key, else what the prototype chain gives. *)
Definition rooms_get (st : state) (k : string) : slot :=
  match rooms st !! k with
  | Some loc => RoomAt loc
  | None =>
      if String.eqb k "__proto__" then
        match proto st with Some loc => RoomAt loc | None => Other end
      else if includes object_prototype k then Other
      else
        match proto st with
        | Some _ => if includes ["host"; "viewers"] k then Other else Undefined
        | None => Undefined
        end
  end.

(** [rooms[rid] = { host: socket, viewers: [] }]: a new room object.  The
    assignment adds or replaces an own key, but for [__proto__]: there it
    calls the setter the object inherits, which makes the new object the
    prototype of [rooms] and adds no key. *)
Definition new_room (rid s : string) : cmd := λ st,
  let loc := length (heap st) in
  let objects := heap st ++ [mkRoom s []] in
  if String.eqb rid "__proto__" && bool_decide (rooms st !! rid = None) then
    (mkState (sockets st) (rooms st) (Some loc) objects, [])
  else
    (mkState (sockets st) (<[rid := loc]> (rooms st)) (proto st) objects, []).

(** [delete rooms[rid]]: an own key goes, and the object stays in the
    heap; what is inherited under [rid] is not touched. *)
Definition delete_room (rid : string) : cmd := λ st,
  (mkState (sockets st) (delete rid (rooms st)) (proto st) (heap st), []).

Definition update_room (f : room → room) (loc : nat) : cmd := λ st,
  (mkState (sockets st) (rooms st) (proto st) (alter f loc (heap st)), []).

(** The room object [rooms[rid]] gives, when it gives one. *)
Definition room_of (st : state) (rid : string) : option room :=
  match rooms_get st rid with
  | RoomAt loc => heap st !! loc
  | _ => None
  end.

(** [a || b] on an optional string. *)
Definition or_else (o : option string) (d : string) : string :=
  match o with
  | Some r => if String.eqb r "" then d else r
  | None => d
  end.

(** ** Event handlers *)

(** [socket.on('start-share', (data) => ...)] *)
Definition on_start_share (s : string) (data : option payload) : cmd := λ st,
  match validateEvent "start-share" (to_js <$> data) with
  | Invalid e => socket_emit s (Error e) st
  | Valid =>
      let providedRoomId := data ≫= p_roomId in
      let rid := or_else providedRoomId s in
      (new_room rid s >>>
       socket_join s rid >>>
       set_roomId s rid >>>
       set_isHost s true >>>
       io_to_emit rid (RoomCreated rid)) st
  end.

(** [viewers.forEach(viewer => viewer.leave(rid))]; leaving a Socket.IO
    room runs no handler, so the array is not touched meanwhile. *)
Fixpoint leave_all (vs : list string) (rid : string) : cmd :=
  match vs with
  | [] => skip
  | v :: r => socket_leave v rid >>> leave_all r rid
  end.

(** [room.viewers] of the room object at [loc]. *)
Definition viewers_of (st : state) (loc : nat) : list string :=
  match heap st !! loc with Some r => viewers r | None => [] end.

(** [socket.on('stop-share', () => ...)] *)
Definition on_stop_share (s : string) : cmd := λ st,
  match sock_roomId st s with
  | Some rid =>
      if negb (String.eqb rid "") && sock_isHost st s then
        match rooms_get st rid with
        | RoomAt loc =>
            (io_to_emit rid HostStopped >>>
             leave_all (viewers_of st loc) rid >>>
             delete_room rid) st
        | Other => (io_to_emit rid HostStopped >>> throw) st
        | Undefined => skip st
        end
      else skip st
  | None => skip st
  end.

(** [socket.on('get-available', () => ...)] *)
Definition on_get_available (s : string) : cmd := λ st,
  socket_emit s (AvailableCount (size (rooms st))) st.

(** [socket.on('join-view', (data) => ...)] *)
Definition on_join_view (s : string) (data : option payload) : cmd := λ st,
  match validateEvent "join-view" (to_js <$> data) with
  | Invalid e => socket_emit s (Error e) st
  | Valid =>
      let roomId := data ≫= p_roomId in
      if negb (truthy_str roomId) then socket_emit s (Error "Missing roomId") st
      else
        let rid := default "" roomId in
        match rooms_get st rid with
        | Undefined => socket_emit s (Error "Room not found") st
        | Other => throw st
        | RoomAt loc =>
            (update_room (λ r, mkRoom (host r) (viewers r ++ [s])) loc >>>
             socket_join s rid >>>
             set_roomId s rid >>>
             set_isHost s false >>>
             io_to_emit rid (ViewerJoined s) >>>
             socket_emit s (ViewJoined rid)) st
        end
  end.

(** [io.sockets.sockets.get(targetId)]: only connected sockets are there. *)
Definition get_socket (st : state) (t : string) : option socket :=
  match sock st t with
  | Some k => if connected k then Some k else None
  | None => None
  end.

(** The four signaling handlers differ in the event they listen to, the
    field they read, the event they emit and their error text. *)
Definition relay (inbound outbound : string) (field : payload → option jsval)
    (invalid : string) (s : string) (data : option payload) : cmd := λ st,
  match validateEvent inbound (to_js <$> data) with
  | Invalid e => socket_emit s (Error e) st
  | Valid =>
      let targetId := data ≫= p_targetId in
      let body := data ≫= field in
      if negb (truthy_str targetId) || negb (truthy_opt body) then
        let roomId := sock_roomId st s in
        match roomId, body with
        | Some rid, Some b =>
            if truthy_str roomId && truthy b then
              socket_to_emit s rid (Signal outbound (Some b) s) st
            else socket_emit s (Error invalid) st
        | _, _ => socket_emit s (Error invalid) st
        end
      else
        match targetId, body with
        | Some t, Some b =>
            match get_socket st t with
            | Some targetSocket =>
                if bool_decide (roomId targetSocket = sock_roomId st s) then
                  socket_emit t (Signal outbound (Some b) s) st
                else skip st
            | None => skip st
            end
        | _, _ => skip st
        end
  end.

(** [socket.on('offer', ...)], [socket.on('answer', ...)],
    [socket.on('ice', ...)], [socket.on('ice-candidate', ...)] *)
Definition on_offer : string → option payload → cmd :=
  relay "offer" "offer" p_offer "Invalid offer payload".

Definition on_answer : string → option payload → cmd :=
  relay "answer" "answer" p_answer "Invalid answer payload".

Definition on_ice : string → option payload → cmd :=
  relay "ice" "ice" p_candidate "Invalid ICE payload".

Definition on_ice_candidate : string → option payload → cmd :=
  relay "ice-candidate" "ice" p_candidate "Invalid ICE payload".

(** ** Disconnect *)

(** What Socket.IO does to a socket before it emits ['disconnect']: the
    socket leaves all its rooms and is no longer connected. *)
Definition close_socket (s : string) : cmd :=
  update_sock (λ k, mkSocket (roomId k) (isHost k) false ∅) s.

(** A handler that may call [disconnect()] on other sockets, which runs
    their ['disconnect'] handlers before it returns; [None] is fuel
    exhausted. *)
Definition handler : Type := state → option (state * list effect).

(** [array.forEach(cb)] over the live array [room.viewers] of the room
    object at [loc]: the length is read once, every index [k] below it is
    visited, and an index that is no longer in the array is skipped.
    [n] counts the indices still to visit.  An error thrown by the
    callback ends the loop. *)
Fixpoint for_each (cb : string → handler) (loc : nat) (n k : nat) : handler :=
  λ st,
  match n with
  | 0 => Some (st, [])
  | S n' =>
      match viewers_of st loc !! k with
      | None => for_each cb loc n' (S k) st
      | Some v =>
          match cb v st with
          | None => None
          | Some (st1, e1) =>
              if threw e1 then Some (st1, e1)
              else
                match for_each cb loc n' (S k) st1 with
                | None => None
                | Some (st2, e2) => Some (st2, e1 ++ e2)
                end
          end
      end
  end.

(** [socket.disconnect()] from the server: nothing on a closed socket;
    otherwise the socket is closed and its ['disconnect'] handler [h] runs
    at once. *)
Definition socket_disconnect (h : string → handler) (v : string) : handler :=
  λ st,
  if is_connected st v then
    match h v (close_socket v st).1 with
    | Some (st1, e1) => Some (st1, Closed v :: e1)
    | None => None
    end
  else Some (st, []).

(** [array.indexOf(x)] *)
Fixpoint index_of (x : string) (l : list string) : option nat :=
  match l with
  | [] => None
  | y :: r => if String.eqb y x then Some 0 else S <$> index_of x r
  end.

(** [socket.on('disconnect', () => ...)] *)
Fixpoint on_disconnect (fuel : nat) (s : string) : handler := λ st,
  match fuel with
  | 0 => None
  | S fuel' =>
      match sock_roomId st s with
      | Some rid =>
          if String.eqb rid "" then Some (st, [])
          else
            match rooms_get st rid with
            | Undefined => Some (st, [])
            | Other => Some (throw st)
            | RoomAt loc =>
                if sock_isHost st s then
                  let each v : handler := λ st0,
                    let '(st1, e1) := socket_emit v HostDisconnected st0 in
                    match socket_disconnect (on_disconnect fuel') v st1 with
                    | Some (st2, e2) => Some (st2, e1 ++ e2)
                    | None => None
                    end in
                  match for_each each loc (length (viewers_of st loc)) 0 st with
                  | Some (st1, e1) =>
                      if threw e1 then Some (st1, e1)
                      else Some ((delete_room rid st1).1, e1)
                  | None => None
                  end
                else
                  match index_of s (viewers_of st loc) with
                  | Some viewerIndex =>
                      Some ((update_room
                               (λ r, mkRoom (host r)
                                            (delete viewerIndex (viewers r)))
                               loc >>>
                             (λ st1, match heap st1 !! loc with
                                     | Some r =>
                                         socket_emit (host r) (ViewerLeft s) st1
                                     | None => skip st1
                                     end)) st)
                  | None => Some (st, [])
                  end
            end
      | None => Some (st, [])
      end
  end.

(** The transport reports that the connection of [s] is gone. *)
Definition disconnect (s : string) : handler := λ st,
  on_disconnect (S (size (sockets st))) s (close_socket s st).1.

(** ** The server as a transition system *)

Inductive event : Type :=
  | Connect (s : string)
  | Disconnect (s : string)
  | StartShare (s : string) (data : option payload)
  | StopShare (s : string)
  | GetAvailable (s : string)
  | JoinView (s : string) (data : option payload)
  | Offer (s : string) (data : option payload)
  | Answer (s : string) (data : option payload)
  | Ice (s : string) (data : option payload)
  | IceCandidate (s : string) (data : option payload).

(** [io.on('connection', (socket) => ...)]: a new socket object; Socket.IO
    puts every socket in the room named by its own id. *)
Definition on_connection (s : string) : cmd := λ st,
  (mkState (<[s := mkSocket None None true {[s]}]> (sockets st))
           (rooms st) (proto st) (heap st), []).

Definition sender (ev : event) : string :=
  match ev with
  | Connect s | Disconnect s | StartShare s _ | StopShare s
  | GetAvailable s | JoinView s _ | Offer s _ | Answer s _ | Ice s _
  | IceCandidate s _ => s
  end.

(** Which events can happen: a connection brings a fresh, non-empty id;
    everything else comes from a connected socket. *)
Definition enabled (st : state) (ev : event) : bool :=
  match ev with
  | Connect s => negb (String.eqb s "") && bool_decide (sock st s = None)
  | _ => is_connected st (sender ev)
  end.

Definition dispatch (ev : event) : handler := λ st,
  match ev with
  | Connect s => Some (on_connection s st)
  | Disconnect s => disconnect s st
  | StartShare s d => Some (on_start_share s d st)
  | StopShare s => Some (on_stop_share s st)
  | GetAvailable s => Some (on_get_available s st)
  | JoinView s d => Some (on_join_view s d st)
  | Offer s d => Some (on_offer s d st)
  | Answer s d => Some (on_answer s d st)
  | Ice s d => Some (on_ice s d st)
  | IceCandidate s d => Some (on_ice_candidate s d st)
  end.

Definition handle (ev : event) : handler := λ st,
  if enabled st ev then dispatch ev st else None.

(** Running a sequence of events from a state, collecting what is sent. *)
Fixpoint run (evs : list event) : handler := λ st,
  match evs with
  | [] => Some (st, [])
  | ev :: r =>
      match handle ev st with
      | Some (st1, e1) =>
          match run r st1 with
          | Some (st2, e2) => Some (st2, e1 ++ e2)
          | None => None
          end
      | None => None
      end
  end.

(** The states of a server that has thrown no error: an uncaught error
    ends the process, unless the environment catches it. *)
Inductive reachable : state → Prop :=
  | reachable_initial : reachable initial
  | reachable_step st ev st' out :
      reachable st → handle ev st = Some (st', out) → threw out = false →
      reachable st'.

(** Payload shorthands. *)
Definition with_room (rid : string) : option payload :=
  Some (mkPayload (Some rid) None None None None).

Definition offer_to (t : string) (body : jsval) : option payload :=
  Some (mkPayload None (Some t) (Some body) None None).

(** The signaling events by kind. *)
Inductive signal : Type := SOffer | SAnswer | SIce | SIceCandidate.

Definition on_signal (k : signal) : string → option payload → cmd :=
  match k with
  | SOffer => on_offer
  | SAnswer => on_answer
  | SIce => on_ice
  | SIceCandidate => on_ice_candidate
  end.

Definition signal_name (k : signal) : string :=
  match k with
  | SOffer => "offer"
  | SAnswer => "answer"
  | SIce => "ice"
  | SIceCandidate => "ice-candidate"
  end.

Definition signal_field (k : signal) : payload → option jsval :=
  match k with
  | SOffer => p_offer
  | SAnswer => p_answer
  | SIce | SIceCandidate => p_candidate
  end.

(** The event the relayed message goes out as. *)
Definition signal_emitted (k : signal) : string :=
  match k with
  | SOffer => "offer"
  | SAnswer => "answer"
  | SIce | SIceCandidate => "ice"
  end.

(** ** The earlier copy of the server

    [server.js] is an earlier copy of the same server.  Its handlers for
    disconnect are the ones above; the ones below differ.  Here a handler
    can throw in [validateEvent], before it does anything: [None] is that
    uncaught TypeError. *)
Module ServerJs.

Definition allowedEvents : list string :=
  ["start-share"; "join-view"; "offer"; "answer"; "ice"].

(** [JSON.stringify(data).length] is not guarded: it throws when
    [data] is [undefined] or cannot be serialized. *)
Definition validateEvent (event : string) (data : option jsval)
    : option validation :=
  if negb (includes allowedEvents event) then
    Some (Invalid "Invalid event type")
  else
    match data ≫= JSON_stringify with
    | None => None
    | Some text =>
        Some (if (65536 <? js_length text)%N
              then Invalid "Message too large" else Valid)
    end.

(** [socket.on('start-share', ...)]: the sender alone is told. *)
Definition on_start_share (s : string) (data : option payload) : handler :=
  λ st,
  match validateEvent "start-share" (to_js <$> data) with
  | None => None
  | Some (Invalid e) => Some (socket_emit s (Error e) st)
  | Some Valid =>
      let rid := or_else (data ≫= p_roomId) s in
      Some ((new_room rid s >>>
             socket_join s rid >>>
             set_roomId s rid >>>
             set_isHost s true >>>
             socket_emit s (ShareStarted rid)) st)
  end.

(** [socket.on('offer', ...)] and its two siblings: the target is
    looked up and, when there is one, gets the message. *)
Definition relay (event : string) (field : payload → option jsval)
    (s : string) (data : option payload) : handler := λ st,
  match validateEvent event (to_js <$> data) with
  | None => None
  | Some (Invalid e) => Some (socket_emit s (Error e) st)
  | Some Valid =>
      match data ≫= p_targetId with
      | Some t =>
          match get_socket st t with
          | Some targetSocket =>
              Some (socket_emit t (Signal event (data ≫= field) s) st)
          | None => Some (skip st)
          end
      | None => Some (skip st)
      end
  end.

Definition on_offer : string → option payload → handler :=
  relay "offer" p_offer.

Definition on_answer : string → option payload → handler :=
  relay "answer" p_answer.

Definition on_ice : string → option payload → handler :=
  relay "ice" p_candidate.

End ServerJs.

(** ** Vocabulary of the properties *)

(** [out] is a broadcast of [m] to the Socket.IO room [rid] in [st]: one
    copy for each connected socket that joined the room, in some order. *)
Definition broadcast_to (st : state) (rid : string) (m : message)
    (out : list effect) : Prop :=
  NoDup out ∧
  ∀ e, e ∈ out ↔ ∃ t k, e = Deliver t m ∧ sock st t = Some k ∧
                        connected k = true ∧ rid ∈ joined k.

(** The target of a relay: a connected socket whose [roomId] is the
    sender's. *)
Definition same_room_target (st : state) (s t : string) : Prop :=
  ∃ k, sock st t = Some k ∧ connected k = true ∧ roomId k = sock_roomId st s.

(** Kinds of effects: an error notice, a closed connection, and what a
    disconnect may do (host-disconnected and viewer-left notices, closed
    connections, and an uncaught error). *)
Definition is_error (e : effect) : Prop :=
  match e with Deliver _ (Error _) => True | _ => False end.

Definition is_close (e : effect) : Prop :=
  match e with Closed _ => True | _ => False end.

Definition cleanup_effect (e : effect) : Prop :=
  match e with
  | Deliver _ HostDisconnected | Deliver _ (ViewerLeft _) | Closed _
  | Thrown => True
  | Deliver _ _ => False
  end.

(** The list without the first occurrence of [x]. *)
Fixpoint remove_first (x : string) (l : list string) : list string :=
  match l with
  | [] => []
  | y :: r => if String.eqb y x then r else y :: remove_first x r
  end.

(** A socket after [socket.leave(rid)]. *)
Definition left_room (rid : string) (k : socket) : socket :=
  mkSocket (roomId k) (isHost k) (connected k) (joined k ∖ {[rid]}).

(** The guard of the stop-share handler, passed with a room object: the
    socket has a room id, [rooms] gives a room object for it, and the
    socket is marked as host.  And the guard failed. *)
Definition recognized_host (st : state) (s rid : string) : Prop :=
  sock_roomId st s = Some rid ∧ rid ≠ "" ∧
  (∃ loc, rooms_get st rid = RoomAt loc) ∧ sock_isHost st s = true.

Definition unrecognized (st : state) (s : string) : Prop :=
  ∀ rid, sock_roomId st s = Some rid →
    rid = "" ∨ rooms_get st rid = Undefined ∨ sock_isHost st s = false.

(** [s] is the host of the room that its room id names. *)
Definition host_of_own_room (st : state) (s : string) : Prop :=
  ∃ rid r, sock_roomId st s = Some rid ∧ room_of st rid = Some r ∧
           host r = s.

(** A key under which the object [rooms] inherits nothing in [st]: with
    it, [rooms[k]] is an own key or [undefined]. *)
Definition plain_key (st : state) (k : string) : Prop :=
  k ≠ "__proto__" ∧ (k ∉ object_prototype) ∧
  (is_Some (proto st) → k ∉ ["host"; "viewers"]).

(** Whether the host of the room object at [loc] is connected, and the
    number of rooms in the table for which it is. *)
Definition host_live (st : state) (loc : nat) : bool :=
  match heap st !! loc with
  | Some r => is_connected st (host r)
  | None => false
  end.

Definition live_rooms (st : state) : nat :=
  size (filter (λ entry, host_live st entry.2 = true) (rooms st)).

(** The number of connected sockets: every nested ['disconnect'] handler
    runs for a socket that was just closed, so this bounds the nesting. *)
Definition live (st : state) : nat :=
  size (filter (λ tk, connected tk.2 = true) (sockets st)).

(** Every room object has a duplicate-free viewer list. *)
Definition viewers_unique (st : state) : Prop :=
  Forall (λ r, NoDup (viewers r)) (heap st).

(** A join-view is a first join when the sender is not yet in the viewer
    list of the room it names. *)
Definition first_join (st : state) (ev : event) : bool :=
  match ev with
  | JoinView s d =>
      match d ≫= p_roomId with
      | Some rid =>
          match room_of st rid with
          | Some r => negb (includes (viewers r) s)
          | None => true
          end
      | None => true
      end
  | _ => true
  end.

(** The states the server reaches when every event satisfies [ok], also
    past an error that the environment caught, and the check that a
    sequence of events satisfies [ok] from a state. *)
Inductive reachable_if (ok : state → event → bool) : state → Prop :=
  | reachable_if_initial : reachable_if ok initial
  | reachable_if_step st ev st' out :
      reachable_if ok st → ok st ev = true →
      handle ev st = Some (st', out) → reachable_if ok st'.

Fixpoint all_ok (ok : state → event → bool) (evs : list event)
    (st : state) : bool :=
  match evs with
  | [] => true
  | ev :: r =>
      ok st ev &&
      match handle ev st with
      | Some (st1, _) => all_ok ok r st1
      | None => false
      end
  end.

(** Whether [s] is the host of a room in the table. *)
Definition hosts_room (st : state) (s : string) : bool :=
  existsb (λ entry, match heap st !! entry.2 with
                    | Some r => String.eqb (host r) s
                    | None => false
                    end)
          (map_to_list (rooms st)).

(** A start-share or join-view is a first assignment when its sender is
    not the host of a room in the table. *)
Definition not_hosting (st : state) (ev : event) : bool :=
  match ev with
  | StartShare s _ | JoinView s _ => negb (hosts_room st s)
  | _ => true
  end.

(** A room id other than the names of the members of [Object.prototype],
    and a start-share for such a room id. *)
Definition plain_name (k : string) : bool :=
  negb (String.eqb k "__proto__") && negb (includes object_prototype k).

Definition plain_share (ev : event) : bool :=
  match ev with
  | StartShare s d => plain_name (or_else (d ≫= p_roomId) s)
  | _ => true
  end.

(** The events the invariant of live hosts is about. *)
Definition first_assignment (st : state) (ev : event) : bool :=
  not_hosting st ev && plain_share ev.

(** [rooms] has the prototype it was created with, and no socket has a
    room id that names a member of it. *)
Definition plain_rooms (st : state) : Prop :=
  proto st = None ∧
  ∀ t rid, sock_roomId st t = Some rid → plain_name rid = true.

(** Every room in the table is a room object whose host carries the
    room's id and the host mark; no socket has the empty id. *)
Definition hosted (st : state) : Prop :=
  sockets st !! "" = None ∧
  ∀ rid loc, rooms st !! rid = Some loc →
    ∃ r, heap st !! loc = Some r ∧ rid ≠ "" ∧
         sock_roomId st (host r) = Some rid ∧
         sock_isHost st (host r) = true.

(** Every room in the table has a connected host, but for the hosts in
    [X] (the sockets whose disconnect handlers are still running). *)
Definition hosts_live_but (X : string → Prop) (st : state) : Prop :=
  ∀ rid loc r, rooms st !! rid = Some loc → heap st !! loc = Some r →
    X (host r) ∨ is_connected st (host r) = true.

Definition hosts_live (st : state) : Prop :=
  ∀ rid r, room_of st rid = Some r → is_connected st (host r) = true.

(** The invariant behind live hosts. *)
Definition good (st : state) : Prop :=
  plain_rooms st ∧ hosted st ∧ hosts_live_but (λ _, False) st.

(** The sockets [h] of two states agree on what the handlers read. *)
Definition same_socket (st st' : state) (h : string) : Prop :=
  sock_roomId st' h = sock_roomId st h ∧
  sock_isHost st' h = sock_isHost st h ∧
  is_connected st' h = is_connected st h.

(** The loops of [JSON_stringify] over the items of an array and the
    properties of an object. *)
Fixpoint stringify_items (l : list jsval) : option (list string) :=
  match l with
  | [] => Some []
  | x :: r =>
      match JSON_stringify x, stringify_items r with
      | Some a, Some b => Some (a :: b)
      | _, _ => None
      end
  end.

Fixpoint stringify_props (l : list (string * jsval)) : option (list string) :=
  match l with
  | [] => Some []
  | (k, x) :: r =>
      match JSON_stringify x, stringify_props r with
      | Some a, Some b => Some ((quote k +:+ ":" +:+ a) :: b)
      | _, _ => None
      end
  end.

(** A value as JSON text can denote it: no BigInt anywhere inside. *)
Fixpoint bigint_free (v : jsval) : bool :=
  match v with
  | JBigInt _ => false
  | JArr items => forallb bigint_free items
  | JObj props => forallb (λ kv, bigint_free kv.2) props
  | _ => true
  end.

(** The numbers of a value are safe integers ([Number.isSafeInteger]):
    the integers a JavaScript number holds exactly, which print as their
    decimal digits. *)
Fixpoint safe_numbers (v : jsval) : bool :=
  match v with
  | JNum n => (Z.abs n <=? 9007199254740991)%Z
  | JArr items => forallb safe_numbers items
  | JObj props => forallb (λ kv, safe_numbers kv.2) props
  | _ => true
  end.

(** A text of ASCII characters only. *)
Fixpoint ascii_text (s : string) : bool :=
  match s with
  | EmptyString => true
  | String a r => (N_of_ascii a <? 128)%N && ascii_text r
  end.

(** The error text of each signaling handler. *)
Definition signal_invalid (k : signal) : string :=
  match k with
  | SOffer => "Invalid offer payload"
  | SAnswer => "Invalid answer payload"
  | SIce | SIceCandidate => "Invalid ICE payload"
  end.

(** Every error text a handler can send. *)
Definition handler_errors : list string :=
  ["Malformed payload"; "Message too large"; "Missing roomId";
   "Room not found"; "Invalid offer payload"; "Invalid answer payload";
   "Invalid ICE payload"].

(** A message as the handler of an event of [s] may send it in state
    [st]: to a connected socket, and when it is an error, to [s] with one
    of the handlers' texts; no connection closed. *)
Definition sent_properly (st : state) (s : string) (e : effect) : Prop :=
  match e with
  | Deliver t (Error m) =>
      t = s ∧ m ∈ handler_errors ∧ is_connected st t = true
  | Deliver t _ => is_connected st t = true
  | Closed _ => False
  | Thrown => True
  end.

(** An effect on a socket that is connected in [st]. *)
Definition on_connected (st : state) (e : effect) : Prop :=
  match e with
  | Deliver t _ | Closed t => is_connected st t = true
  | Thrown => True
  end.

(** [st'] is [st] with, at most, connections closed, rooms taken out of
    the table and viewers taken out of lists: every socket keeps its room
    id and role, and no room changes host. *)
Definition only_shrunk (st st' : state) : Prop :=
  (∀ t, sock_roomId st' t = sock_roomId st t ∧
        sock st' t ≫= isHost = sock st t ≫= isHost ∧
        (is_connected st' t = true → is_connected st t = true)) ∧
  rooms st' ⊆ rooms st ∧ proto st' = proto st ∧
  Forall2 (λ r r', host r' = host r ∧ viewers r' `sublist_of` viewers r)
          (heap st) (heap st').

(** A socket with a room id and a role. *)
Definition assigned (st : state) (t : string) : Prop :=
  is_Some (sock_roomId st t) ∧ is_Some (sock st t ≫= isHost).

(** [app.get('/health', ...)]: the JSON body [{ status, rooms }]. *)
Definition health (st : state) : string * nat := ("ok", size (rooms st)).

(** ** Sample states and runs *)

(** Room R with host A and viewers C and E, and a connection D that has
    joined nothing; and the events that lead there. *)
Definition room_R : state :=
  mkState
    {[ "A" := mkSocket (Some "R") (Some true) true {[ "A"; "R" ]};
       "C" := mkSocket (Some "R") (Some false) true {[ "C"; "R" ]};
       "E" := mkSocket (Some "R") (Some false) true {[ "E"; "R" ]};
       "D" := mkSocket None None true {[ "D" ]} ]}
    {[ "R" := 0 ]}
    None
    [mkRoom "A" ["C"; "E"]].

Definition room_R_events : list event :=
  [Connect "A"; Connect "C"; Connect "E"; Connect "D";
   StartShare "A" (with_room "R");
   JoinView "C" (with_room "R"); JoinView "E" (with_room "R")].

(** Host A with the viewers C, E and F, in this order; then A leaves. *)
Definition cascade_events : list event :=
  [Connect "A"; Connect "C"; Connect "E"; Connect "F";
   StartShare "A" (with_room "R");
   JoinView "C" (with_room "R"); JoinView "E" (with_room "R");
   JoinView "F" (with_room "R")].

(** A host that shares twice and then leaves. *)
Definition reshare_events : list event :=
  [Connect "A"; Connect "B";
   StartShare "A" (with_room "R1"); StartShare "A" (with_room "R2");
   Disconnect "A"].

(** B shares under the room id A is sharing under. *)
Definition replaced_events : list event :=
  [Connect "A"; Connect "B";
   StartShare "A" (with_room "R"); StartShare "B" (with_room "R")].

(** A shares without naming a room, so under its own id, and C joins. *)
Definition own_room_events : list event :=
  [Connect "A"; Connect "C"; StartShare "A" None;
   JoinView "C" (with_room "A")].

(** C joins room R twice. *)
Definition rejoin_events : list event :=
  [Connect "A"; Connect "C"; StartShare "A" (with_room "R");
   JoinView "C" (with_room "R"); JoinView "C" (with_room "R")].

(** An offer whose SDP text is [n] euro signs (three bytes each). *)
Fixpoint string_repeat (a : string) (n : nat) : string :=
  match n with
  | 0 => ""
  | S n' => a +:+ string_repeat a n'
  end.

Definition euro_offer (n : nat) : jsval :=
  JObj [("targetId", JStr "C"); ("offer", JStr (string_repeat "€" n))].

(** * Properties *)

(** ** Validation *)

Lemma includes_elem_of (l : list string) (x : string) :
  includes l x = true ↔ x ∈ l.
Proof.
  unfold includes. induction l as [|y l IH]; simpl.
  - split; [discriminate | intros H; inversion H].
  - rewrite orb_true_iff, IH, String.eqb_eq, elem_of_cons. tauto.
Qed.

Lemma includes_false (l : list string) (x : string) :
  includes l x = false → x ∉ l.
Proof.
  intros H Hin. apply includes_elem_of in Hin. congruence.
Qed.

Lemma validateEvent_unknown (event : string) (data : option jsval) :
  event ∉ allowedEvents →
  validateEvent event data = Invalid "Invalid event type".
Proof.
  intros H. unfold validateEvent.
  destruct (includes allowedEvents event) eqn:E; [|done].
  apply includes_elem_of in E. contradiction.
Qed.

Lemma validateEvent_null (event : string) :
  event ∈ allowedEvents →
  validateEvent event None = Valid ∧ validateEvent event (Some JNull) = Valid.
Proof.
  intros H. apply includes_elem_of in H. unfold validateEvent.
  rewrite H. done.
Qed.

Lemma validateEvent_malformed (event : string) (d : jsval) :
  event ∈ allowedEvents → JSON_stringify d = None →
  validateEvent event (Some d) = Invalid "Malformed payload".
Proof.
  intros H Hs. apply includes_elem_of in H. unfold validateEvent.
  rewrite H. simpl. destruct d; try done; simpl in *; by rewrite Hs.
Qed.

(** What the size check measures: the [.length] of the serialization. *)
Lemma validateEvent_length (event : string) (d : jsval) (text : string) :
  event ∈ allowedEvents → JSON_stringify d = Some text →
  validateEvent event (Some d) =
    if (65536 <? js_length text)%N then Invalid "Message too large" else Valid.
Proof.
  intros H Hs. apply includes_elem_of in H. unfold validateEvent.
  rewrite H. simpl. destruct d; try (by rewrite Hs).
  simpl in Hs. by injection Hs as <-.
Qed.

Lemma byte_size_app (a b : string) :
  byte_size (a +:+ b) = (byte_size a + byte_size b)%N.
Proof.
  induction a as [|c a IH]; [done|].
  change (1 + byte_size (a +:+ b) = 1 + byte_size a + byte_size b)%N.
  rewrite IH. lia.
Qed.

Lemma js_length_app (a b : string) :
  js_length (a +:+ b) = (js_length a + js_length b)%N.
Proof.
  induction a as [|c a IH]; [done|].
  change (units_of_byte c + js_length (a +:+ b) =
          units_of_byte c + js_length a + js_length b)%N.
  rewrite IH. lia.
Qed.

Lemma append_assoc (a b c : string) : (a +:+ b) +:+ c = a +:+ (b +:+ c).
Proof.
  induction a as [|x a IH]; [done|].
  change (String x ((a +:+ b) +:+ c) = String x (a +:+ (b +:+ c))).
  by rewrite IH.
Qed.

Lemma escape_app (a b : string) : escape (a +:+ b) = escape a +:+ escape b.
Proof.
  induction a as [|c a IH]; [done|].
  change (escape_byte c +:+ escape (a +:+ b) =
          (escape_byte c +:+ escape a) +:+ escape b).
  by rewrite IH, append_assoc.
Qed.

Lemma escape_euros (n : nat) :
  escape (string_repeat "€" n) = string_repeat "€" n.
Proof.
  induction n as [|n IH]; [done|].
  change (string_repeat "€" (S n)) with ("€" +:+ string_repeat "€" n).
  rewrite escape_app, IH. done.
Qed.

Lemma byte_size_euros (n : nat) :
  byte_size (string_repeat "€" n) = (3 * N.of_nat n)%N.
Proof.
  induction n as [|n IH]; [done|].
  change (string_repeat "€" (S n)) with ("€" +:+ string_repeat "€" n).
  rewrite byte_size_app, IH. change (byte_size "€") with 3%N. lia.
Qed.

Lemma js_length_euros (n : nat) :
  js_length (string_repeat "€" n) = N.of_nat n.
Proof.
  induction n as [|n IH]; [done|].
  change (string_repeat "€" (S n)) with ("€" +:+ string_repeat "€" n).
  rewrite js_length_app, IH. change (js_length "€") with 1%N. lia.
Qed.

Lemma stringify_euro_offer (n : nat) :
  ∃ text, JSON_stringify (euro_offer n) = Some text ∧
          byte_size text = (27 + 3 * N.of_nat n)%N ∧
          js_length text = (27 + N.of_nat n)%N.
Proof.
  exists ("{" +:+ join_comma [quote "targetId" +:+ ":" +:+ quote "C";
                              quote "offer" +:+ ":" +:+
                                quote (string_repeat "€" n)] +:+ "}").
  split; [reflexivity|].
  unfold quote. rewrite escape_euros.
  simpl join_comma.
  rewrite !byte_size_app, !js_length_app, byte_size_euros, js_length_euros.
  split; vm_compute byte_size; vm_compute js_length; lia.
Qed.

Lemma validateEvent_euro_offer (n : nat) :
  (27 + N.of_nat n ≤ 65536)%N →
  (65536 < 27 + 3 * N.of_nat n)%N →
  validateEvent "offer" (Some (euro_offer n)) = Valid ∧
  ∃ text, JSON_stringify (euro_offer n) = Some text ∧
          (65536 < byte_size text)%N.
Proof.
  intros Hunits Hbytes.
  destruct (stringify_euro_offer n) as (text & Hs & Hb & Hl).
  split.
  - rewrite (validateEvent_length _ _ text); [|set_solver|exact Hs].
    rewrite Hl. by destruct (N.ltb_spec 65536 (27 + N.of_nat n)); [lia|].
  - exists text. split; [exact Hs|]. by rewrite Hb.
Qed.

(** C4 (size limit): with 30000 euro signs the serialization of the offer
    is 90027 bytes long, beyond the limit of 65536 bytes, yet
    [validateEvent] accepts it: the check compares the number of UTF-16
    code units (30027) with the limit. *)
Theorem validateEvent_accepts_oversized_bytes :
  validateEvent "offer" (Some (euro_offer 30000)) = Valid ∧
  ∃ text, JSON_stringify (euro_offer 30000) = Some text ∧
          (65536 < byte_size text)%N.
Proof. apply validateEvent_euro_offer; vm_compute; [discriminate|reflexivity]. Qed.

(** ** Targeted relay *)

Lemma on_signal_relay (k : signal) :
  on_signal k =
  relay (signal_name k) (signal_emitted k) (signal_field k)
        (match k with
         | SOffer => "Invalid offer payload"
         | SAnswer => "Invalid answer payload"
         | SIce | SIceCandidate => "Invalid ICE payload"
         end).
Proof. by destruct k. Qed.

(** C1: a signaling event (offer, answer, ice, ice-candidate) of sender
    [s] that passes validation and carries a target id [t] and a body [b]
    leaves the state as it is and sends exactly one message, the body
    labelled with [fromId = s], to [t] alone, when [t] is a connected
    socket whose [roomId] equals that of [s]; otherwise it sends nothing,
    so no error goes to [s] either. *)
Theorem targeted_relay (k : signal) (s t : string) (b : jsval)
    (data : option payload) (st : state) :
  validateEvent (signal_name k) (to_js <$> data) = Valid →
  data ≫= p_targetId = Some t → t ≠ "" →
  data ≫= signal_field k = Some b → truthy b = true →
  ∃ out, on_signal k s data st = (st, out) ∧
    (same_room_target st s t → out = [Deliver t (Signal (signal_emitted k) (Some b) s)]) ∧
    (¬ same_room_target st s t → out = []).
Proof.
  intros Hv Ht Hne Hb Htr. rewrite on_signal_relay. unfold relay.
  rewrite Hv, Ht, Hb. simpl. rewrite Htr.
  destruct (String.eqb_spec t ""); [done|]. simpl.
  unfold get_socket, socket_emit, is_connected, same_room_target.
  destruct (sock st t) as [k'|] eqn:Hk.
  - destruct (connected k') eqn:Hc.
    + case_bool_decide as Hr.
      * eexists. split; [done|]. split; [done|].
        intros Hn. exfalso. apply Hn. eauto.
      * eexists. split; [done|]. split; [|done].
        intros (k2 & Hk2 & _ & Hr2). congruence.
    + eexists. split; [done|]. split; [|done].
      intros (k2 & Hk2 & Hc2 & _). congruence.
  - eexists. split; [done|]. split; [|done].
    intros (k2 & Hk2 & _). congruence.
Qed.

Lemma targeted_relay_witness :
  on_signal SOffer "A" (offer_to "C" (JStr "sdp")) room_R =
    (room_R, [Deliver "C" (Signal "offer" (Some (JStr "sdp")) "A")]) ∧
  on_signal SOffer "A" (offer_to "D" (JStr "sdp")) room_R = (room_R, []).
Proof.
  split.
  - destruct (targeted_relay SOffer "A" "C" (JStr "sdp")
                (offer_to "C" (JStr "sdp")) room_R)
      as (out & Hrun & Hyes & _); [reflexivity..|done|reflexivity|reflexivity|].
    rewrite Hrun, Hyes; [done|].
    eexists. split; [reflexivity|]. split; reflexivity.
  - destruct (targeted_relay SOffer "A" "D" (JStr "sdp")
                (offer_to "D" (JStr "sdp")) room_R)
      as (out & Hrun & _ & Hno); [reflexivity..|done|reflexivity|reflexivity|].
    rewrite Hrun, Hno; [done|].
    intros (k & Hk & _ & Hr). vm_compute in Hk. injection Hk as <-.
    vm_compute in Hr. discriminate.
Defined.

(** ** Running commands *)

Lemma seq_run (c1 c2 : cmd) (st : state) :
  seq c1 c2 st = ((c2 (c1 st).1).1, (c1 st).2 ++ (c2 (c1 st).1).2).
Proof.
  unfold seq. destruct (c1 st) as [st1 e1]. simpl.
  by destruct (c2 st1) as [st2 e2].
Qed.

(** ** Rooms of Socket.IO *)

Lemma elem_of_members (st : state) (rid t : string) :
  t ∈ members st rid ↔
  ∃ k, sock st t = Some k ∧ connected k = true ∧ rid ∈ joined k.
Proof.
  unfold members, sock. rewrite list_elem_of_fmap. split.
  - intros ([t' k] & -> & H). apply elem_of_map_to_list in H.
    apply map_lookup_filter_Some in H as [H1 [H2 H3]]. eauto.
  - intros (k & H1 & H2 & H3). exists (t, k). split; [done|].
    apply elem_of_map_to_list. by apply map_lookup_filter_Some.
Qed.

Lemma NoDup_members (st : state) (rid : string) : NoDup (members st rid).
Proof. unfold members. apply NoDup_fst_map_to_list. Qed.

(** Who a broadcast to a Socket.IO room reaches. *)
Lemma io_to_emit_out (rid : string) (m : message) (st : state) :
  broadcast_to st rid m ((λ t, Deliver t m) <$> members st rid).
Proof.
  split.
  - apply NoDup_fmap_2; [|apply NoDup_members]. by intros x y [=].
  - intros e. rewrite list_elem_of_fmap. split.
    + intros (t & -> & Ht). apply elem_of_members in Ht as (k & ?).
      by exists t, k.
    + intros (t & k & -> & Hk). exists t. split; [done|].
      apply elem_of_members. by exists k.
Qed.

(** ** The plain object [rooms] *)

Lemma rooms_get_own (st : state) (k : string) (loc : nat) :
  rooms st !! k = Some loc → rooms_get st k = RoomAt loc.
Proof. intros H. unfold rooms_get. by rewrite H. Qed.

(** A room of the table is a room that [rooms] gives. *)
Lemma room_at_of (st : state) (rid : string) (r : room) :
  room_at st rid = Some r → room_of st rid = Some r.
Proof.
  unfold room_at, room_of. destruct (rooms st !! rid) as [loc|] eqn:Hloc;
    [|done]. by rewrite (rooms_get_own st rid loc Hloc).
Qed.

Lemma rooms_get_plain (st : state) (k : string) :
  plain_key st k →
  rooms_get st k =
    match rooms st !! k with Some loc => RoomAt loc | None => Undefined end.
Proof.
  intros (Hp & Ho & Hh). unfold rooms_get.
  destruct (rooms st !! k) as [loc|]; [done|].
  destruct (String.eqb_spec k "__proto__"); [done|].
  destruct (includes object_prototype k) eqn:Hi.
  { by apply includes_elem_of in Hi. }
  destruct (proto st) as [p|]; [|done].
  destruct (includes ["host"; "viewers"] k) eqn:Hv; [|done].
  apply includes_elem_of in Hv. by destruct Hh.
Qed.

Lemma plain_name_key (st : state) (k : string) :
  proto st = None → plain_name k = true → plain_key st k.
Proof.
  intros Hp Hk. apply andb_true_iff in Hk as [H1 H2].
  apply negb_true_iff in H1, H2. split; [|split].
  - intros ->. by rewrite String.eqb_refl in H1.
  - by apply includes_false.
  - rewrite Hp. by intros [? [=]].
Qed.

(** With the original prototype, a room object is found under an own key
    only. *)
Lemma rooms_get_RoomAt (st : state) (k : string) (loc : nat) :
  proto st = None → rooms_get st k = RoomAt loc → rooms st !! k = Some loc.
Proof.
  intros Hp. unfold rooms_get. rewrite Hp.
  destruct (rooms st !! k); [by intros [= ->]|].
  destruct (String.eqb k "__proto__"); [done|].
  by destruct (includes object_prototype k).
Qed.

Lemma new_room_plain (rid s : string) (st : state) :
  rid ≠ "__proto__" →
  new_room rid s st =
    (mkState (sockets st) (<[rid := length (heap st)]> (rooms st)) (proto st)
             (heap st ++ [mkRoom s []]), []).
Proof.
  intros Hne. unfold new_room.
  by destruct (String.eqb_spec rid "__proto__").
Qed.

Lemma threw_false (out : list effect) :
  threw out = false ↔ Forall (λ e, is_thrown e = false) out.
Proof.
  unfold threw. induction out as [|e out IH]; simpl.
  - split; [constructor|done].
  - rewrite orb_false_iff, IH, Forall_cons. tauto.
Qed.

(** After the assignment [rooms[rid]] is the new object; the own keys
    other than [rid] are what they were. *)
Lemma new_room_state (rid s : string) (st : state) :
  ∃ st', new_room rid s st = (st', []) ∧
    sockets st' = sockets st ∧
    heap st' = heap st ++ [mkRoom s []] ∧
    rooms_get st' rid = RoomAt (length (heap st)) ∧
    (∀ r, r ≠ rid → rooms st' !! r = rooms st !! r) ∧
    (rid ≠ "__proto__" →
       rooms st' = <[rid := length (heap st)]> (rooms st) ∧
       proto st' = proto st) ∧
    (rid = "__proto__" → rooms st !! rid = None →
       rooms st' = rooms st ∧ proto st' = Some (length (heap st))).
Proof.
  unfold new_room.
  destruct (String.eqb_spec rid "__proto__") as [->|Hne]; simpl.
  - case_bool_decide as Hown; eexists; (split; [reflexivity|]); simpl.
    + repeat split; try done. unfold rooms_get. simpl. by rewrite Hown.
    + repeat split; try done.
      * unfold rooms_get. simpl. by rewrite lookup_insert_eq.
      * intros r Hr. by rewrite lookup_insert_ne.
  - eexists. split; [reflexivity|]. simpl. repeat split; try done.
    + unfold rooms_get. simpl. by rewrite lookup_insert_eq.
    + intros r Hr. by rewrite lookup_insert_ne.
Qed.

(** ** start-share *)



(** ** join-view *)

(** X24: a join-view of the connection [s] that passes validation and
    names the room [rid].  When [rooms[rid]] is undefined, [s] gets the
    error Room not found and the state stays as it is.  When it is a room
    object, [s] is appended to its viewer list, [s] becomes a viewer with
    [roomId = rid], viewer-joined{s} goes once to each connected socket
    that joined the Socket.IO room [rid] ([s] among them) and then
    view-joined{rid} goes to [s]; the table and the other room objects
    stay.  When [rooms[rid]] is an
    inherited value that is no room, the handler throws a TypeError
    before it changes or sends anything. *)
Theorem join_view_joins (s : string) (data : option payload) (st : state)
    (rid : string) :
  validateEvent "join-view" (to_js <$> data) = Valid →
  data ≫= p_roomId = Some rid → rid ≠ "" →
  is_connected st s = true →
  (rooms_get st rid = Undefined →
     on_join_view s data st = (st, [Deliver s (Error "Room not found")])) ∧
  (∀ loc r, rooms_get st rid = RoomAt loc → heap st !! loc = Some r →
     ∃ st' out, on_join_view s data st = (st', out) ∧
       room_of st' rid = Some (mkRoom (host r) (viewers r ++ [s])) ∧
       rooms st' = rooms st ∧ proto st' = proto st ∧
       heap st' = <[loc := mkRoom (host r) (viewers r ++ [s])]> (heap st) ∧
       sock st' s ≫= isHost = Some false ∧
       sock_roomId st' s = Some rid ∧
       ∃ told, out = told ++ [Deliver s (ViewJoined rid)] ∧
               broadcast_to st' rid (ViewerJoined s) told ∧
               Deliver s (ViewerJoined s) ∈ told) ∧
  (rooms_get st rid = Other → on_join_view s data st = (st, [Thrown])).
Proof.
  intros Hv Hr Hne Hc. unfold on_join_view. rewrite Hv, Hr. simpl.
  destruct (String.eqb_spec rid ""); [done|]. simpl.
  pose proof Hc as Hc'. unfold is_connected, sock in Hc'.
  destruct (sockets st !! s) as [k|] eqn:Hk; [|done].
  split; [|split].
  - intros ->. unfold socket_emit. by rewrite Hc.
  - intros loc r Hloc Hroom. rewrite Hloc.
    eexists _, _. split.
    { unfold seq, update_room, socket_join, set_roomId, set_isHost,
        update_sock, io_to_emit, socket_emit, is_connected, sock. simpl.
      rewrite !lookup_alter_eq, Hk. simpl. rewrite Hc'. reflexivity. }
    split; [|split; [done|split; [done|split]]].
    + unfold room_of.
      replace (rooms_get _ rid) with (rooms_get st rid) by done.
      rewrite Hloc. simpl. by rewrite list_lookup_alter_eq, Hroom.
    + simpl. apply list_eq. intros i. rewrite list_lookup_alter.
      case_decide as Hi.
      * subst i. rewrite Hroom. simpl.
        by rewrite list_lookup_insert_eq by (by eapply lookup_lt_Some).
      * by rewrite list_lookup_insert_ne.
    + split; [|split].
      * unfold sock. simpl. by rewrite !lookup_alter_eq, Hk.
      * unfold sock_roomId, sock. simpl. by rewrite !lookup_alter_eq, Hk.
      * eexists. split; [reflexivity|]. split; [apply io_to_emit_out|].
        apply io_to_emit_out. eexists s, _. split; [done|].
        unfold sock. simpl. rewrite !lookup_alter_eq, Hk. simpl.
        split; [done|]. split; [done|]. simpl. set_solver.
  - by intros ->.
Qed.

Lemma join_view_joins_witness :
  on_join_view "D" (with_room "nope") room_R =
    (room_R, [Deliver "D" (Error "Room not found")]) ∧
  (∃ st' out, on_join_view "D" (with_room "R") room_R = (st', out) ∧
    room_of st' "R" = Some (mkRoom "A" ["C"; "E"; "D"]) ∧
    rooms st' = rooms room_R ∧
    sock st' "D" ≫= isHost = Some false ∧
    sock_roomId st' "D" = Some "R" ∧
    ∃ told, out = told ++ [Deliver "D" (ViewJoined "R")] ∧
            Deliver "D" (ViewerJoined "D") ∈ told) ∧
  on_join_view "D" (with_room "valueOf") room_R = (room_R, [Thrown]).
Proof.
  split; [|split].
  - apply (join_view_joins "D" (with_room "nope") room_R "nope");
      reflexivity || done.
  - destruct (proj1 (proj2 (join_view_joins "D" (with_room "R") room_R "R"
                    eq_refl eq_refl ltac:(done) eq_refl))
                 0 (mkRoom "A" ["C"; "E"]) eq_refl eq_refl)
      as (st' & out & Hrun & Hroom & Hrooms & _ & _ & Hhost & Hrid
            & told & Hout & _ & Hin).
    exists st', out. split; [exact Hrun|]. split; [exact Hroom|].
    split; [exact Hrooms|]. split; [exact Hhost|]. split; [exact Hrid|].
    by exists told.
  - apply (join_view_joins "D" (with_room "valueOf") room_R "valueOf");
      reflexivity || done.
Defined.

(** C3 (failing case): on a server without any room, the connection D
    sends join-view{roomId: toString}.  No room of that id exists, yet no
    error Room not found is sent: [rooms['toString']] is the function the
    plain object inherits, the test [!room] lets it pass, and
    [room.viewers.push] throws a TypeError that nothing catches. *)
Theorem join_view_throws_on_inherited_key :
  ∃ st, fst <$> run [Connect "D"] initial = Some st ∧
    rooms st = ∅ ∧ room_of st "toString" = None ∧
    validateEvent "join-view" (to_js <$> with_room "toString") = Valid ∧
    handle (JoinView "D" (with_room "toString")) st = Some (st, [Thrown]).
Proof.
  eexists. split; [vm_compute; reflexivity|].
  split; [|split; [|split]]; vm_compute; reflexivity.
Qed.

(** ** What a disconnect can do *)

(** An invariant [I] of the state and a property [P] of the messages
    carry over a [forEach] when every call of the callback keeps them. *)
Lemma for_each_preserves (I : state → Prop) (P : effect → Prop)
    (cb : string → handler) (loc : nat) (n k : nat)
    (st st' : state) (out : list effect) :
  (∀ v st0 st1 o, I st0 → cb v st0 = Some (st1, o) → I st1 ∧ Forall P o) →
  I st → for_each cb loc n k st = Some (st', out) →
  I st' ∧ Forall P out.
Proof.
  intros Hcb. revert k st st' out.
  induction n as [|n IH]; intros k st st' out HI Hrun; simpl in Hrun.
  - injection Hrun as <- <-. by split.
  - destruct (viewers_of st loc !! k) as [v|]; [|by eapply IH].
    destruct (cb v st) as [[st1 e1]|] eqn:Hv; [|done].
    destruct (Hcb _ _ _ _ HI Hv) as [HI1 HP1].
    destruct (threw e1); [by injection Hrun as <- <-|].
    destruct (for_each cb loc n (S k) st1) as [[st2 e2]|] eqn:Hrest; [|done].
    injection Hrun as <- <-.
    destruct (IH _ _ _ _ HI1 Hrest) as [HI2 HP2].
    split; [done|]. by apply Forall_app.
Qed.

(** The steps of the disconnect handler, one invariant for all of them:
    [I] must survive closing a socket, removing a viewer from a room
    object and deleting a room from the table. *)
Section disconnect_invariant.
Variable I : state → Prop.
Hypothesis I_close : ∀ v st, I st → I (close_socket v st).1.
Hypothesis I_delete : ∀ rid st, I st → I (delete_room rid st).1.
Hypothesis I_remove : ∀ s loc i st,
  I st → index_of s (viewers_of st loc) = Some i →
  I (update_room (λ r, mkRoom (host r) (delete i (viewers r))) loc st).1.

Lemma on_disconnect_preserves (fuel : nat) (s : string)
    (st st' : state) (out : list effect) :
  I st → on_disconnect fuel s st = Some (st', out) →
  I st' ∧ Forall cleanup_effect out.
Proof.
  revert s st st' out.
  induction fuel as [|fuel IH]; intros s st st' out HI Hrun; [done|].
  simpl in Hrun.
  destruct (sock_roomId st s) as [rid|]; [|by injection Hrun as <- <-].
  destruct (String.eqb rid ""); [by injection Hrun as <- <-|].
  destruct (rooms_get st rid) as [|loc|];
    [by injection Hrun as <- <-| |];
    [|injection Hrun as <- <-; split; [done|by repeat constructor]].
  destruct (sock_isHost st s).
  - match type of Hrun with
    | match for_each ?cb _ _ _ _ with _ => _ end = _ =>
        destruct (for_each cb loc (length (viewers_of st loc)) 0 st)
          as [[st1 e1]|] eqn:Hloop; [|done];
        apply (for_each_preserves I cleanup_effect) in Hloop as [H1 H2];
          [|clear Hrun|done]
    end.
    + destruct (threw e1); injection Hrun as <- <-; [done|].
      split; [by apply (I_delete rid st1)|done].
    + intros v st0 st2 o HI0. unfold socket_emit, socket_disconnect.
      destruct (is_connected st0 v) eqn:Hc; cbn -[close_socket on_disconnect].
      * destruct (on_disconnect fuel v (close_socket v st0).1)
          as [[st3 e3]|] eqn:Hnest; [|done].
        intros [= <- <-].
        apply IH in Hnest as [H3 H4]; [|by apply (I_close v st0)].
        split; [done|]. repeat constructor. done.
      * intros [= <- <-]. split; [done|constructor].
  - destruct (index_of s (viewers_of st loc)) as [i|] eqn:Hi;
      [|by injection Hrun as <- <-].
    pose proof (I_remove s loc i st HI Hi) as HI'.
    unfold seq, update_room, socket_emit, skip in Hrun, HI'.
    simpl in Hrun, HI'.
    destruct (alter _ loc (heap st) !! loc) as [r|]; simpl in Hrun.
    + destruct (is_connected _ (host r)); injection Hrun as <- <-;
        (split; [done|repeat constructor]).
    + injection Hrun as <- <-. split; [done|constructor].
Qed.
End disconnect_invariant.

(** ** The disconnect handler returns *)

Lemma live_close (v : string) (st : state) :
  is_connected st v = true → S (live (close_socket v st).1) = live st.
Proof.
  unfold is_connected, sock, live, close_socket, update_sock. simpl.
  destruct (sockets st !! v) as [k|] eqn:Hk; [|done]. intros Hc.
  rewrite (alter_alt_Some _ _ _ _ Hk).
  rewrite map_filter_insert_False by (simpl; done).
  rewrite map_filter_delete, map_size_delete_Some.
  - assert (size (filter (λ tk, connected tk.2 = true) (sockets st)) ≠ 0);
      [|lia].
    apply map_size_ne_0_lookup. exists v.
    exists k. by apply map_lookup_filter_Some.
  - exists k. by apply map_lookup_filter_Some.
Qed.

Lemma for_each_total (J : state → Prop) (cb : string → handler)
    (loc : nat) (n k : nat) (st : state) :
  (∀ v st0, J st0 → ∃ st1 o, cb v st0 = Some (st1, o) ∧ J st1) →
  J st → ∃ st' out, for_each cb loc n k st = Some (st', out) ∧ J st'.
Proof.
  intros Hcb. revert k st. induction n as [|n IH]; intros k st HJ; simpl.
  - by eexists _, _.
  - destruct (viewers_of st loc !! k) as [v|]; [|by apply IH].
    destruct (Hcb v st HJ) as (st1 & o & -> & HJ1).
    destruct (threw o); [by eexists _, _|].
    destruct (IH (S k) st1 HJ1) as (st2 & o2 & -> & HJ2).
    by eexists _, _.
Qed.

Lemma on_disconnect_total (fuel : nat) (s : string) (st : state) :
  live st < fuel →
  ∃ st' out, on_disconnect fuel s st = Some (st', out) ∧ live st' ≤ live st.
Proof.
  revert s st. induction fuel as [|fuel IH]; intros s st Hlt; [lia|].
  cbn [on_disconnect].
  destruct (sock_roomId st s) as [rid|]; [|by eexists _, _].
  destruct (String.eqb rid ""); [by eexists _, _|].
  destruct (rooms_get st rid) as [|loc|]; [by eexists _, _| |by eexists _, _].
  destruct (sock_isHost st s).
  - match goal with
    | |- context [for_each ?cb loc ?n 0 st] =>
        destruct (for_each_total (λ st0, live st0 ≤ live st) cb loc n 0 st)
          as (st1 & e1 & -> & H1);
          [|lia|destruct (threw e1); by eexists _, _]
    end.
    intros v st0 H0. unfold socket_emit, socket_disconnect.
    destruct (is_connected st0 v) eqn:Hc; [|by eexists _, _].
    pose proof (live_close v st0 Hc) as Hclose.
    destruct (IH v (close_socket v st0).1) as (st2 & e2 & -> & H2); [lia|].
    eexists _, _. split; [done|]. lia.
  - destruct (index_of s (viewers_of st loc)) as [i|]; [|by eexists _, _].
    rewrite seq_run. eexists _, _. split; [done|].
    cbn [update_room fst].
    match goal with
    | |- context [match ?x with Some _ => _ | None => _ end] => destruct x
    end; done.
Qed.

(** Every event that can happen is handled: the fuel given to the
    disconnect handler is enough. *)
Lemma handle_total (ev : event) (st : state) :
  enabled st ev = true → ∃ st' out, handle ev st = Some (st', out).
Proof.
  intros Hen. unfold handle. rewrite Hen.
  destruct ev as [s|s|s d|s|s|s d|s d|s d|s d|s d];
    cbn [dispatch];
    try (match goal with
         | |- ∃ _ _, Some ?x = _ => exists x.1, x.2; by destruct x
         end).
  cbn [enabled sender] in Hen. unfold disconnect.
  pose proof (live_close s st Hen) as Hclose.
  destruct (on_disconnect_total (S (size (sockets st))) s (close_socket s st).1)
    as (st' & out & -> & _); [|by eexists _, _].
  assert (live st ≤ size (sockets st)); [|lia].
  apply map_subseteq_size, map_filter_subseteq.
Qed.

(** ** Errors change nothing *)

Lemma socket_emit_run (s : string) (m : message) (st : state) :
  ∃ out, socket_emit s m st = (st, out) ∧
         Forall (λ e, e = Deliver s m) out.
Proof.
  unfold socket_emit. destruct (is_connected st s); eexists;
    (split; [done|repeat constructor]).
Qed.

Lemma broadcast_Forall (P : effect → Prop) (m : message) (l : list string) :
  (∀ t, P (Deliver t m)) → Forall P ((λ t, Deliver t m) <$> l).
Proof. intros H. apply Forall_fmap, Forall_forall. intros t _. apply H. Qed.

Lemma leave_all_run (vs : list string) (rid : string) (st : state) :
  (leave_all vs rid st).2 = [].
Proof.
  revert st. induction vs as [|v vs IH]; intros st; [done|].
  simpl. unfold seq. simpl.
  specialize (IH (socket_leave v rid st).1).
  simpl in IH. by destruct (leave_all vs rid _) as [st2 e2]; simpl in *; subst.
Qed.

(** Every signaling handler leaves the state alone and closes nothing. *)
Lemma relay_keeps_state (inbound outbound : string)
    (field : payload → option jsval) (invalid : string)
    (s : string) (data : option payload) (st : state) :
  ∃ out, relay inbound outbound field invalid s data st = (st, out) ∧
         Forall (λ e, ¬ is_close e) out.
Proof.
  assert (∀ m, ∃ out, socket_emit s m st = (st, out) ∧
                      Forall (λ e, ¬ is_close e) out) as Hemit.
  { intros m. destruct (socket_emit_run s m st) as (out & -> & H).
    exists out. split; [done|]. eapply Forall_impl; [exact H|].
    intros e -> Hx; exact Hx. }
  unfold relay. destruct (validateEvent _ _); [|apply Hemit].
  destruct (_ || _).
  - destruct (sock_roomId st s) as [rid|]; [|apply Hemit].
    destruct (data ≫= field) as [b|]; [|apply Hemit].
    destruct (_ && _); [|apply Hemit].
    eexists. split; [done|]. apply broadcast_Forall. intros t Hx; exact Hx.
  - destruct (data ≫= p_targetId) as [t|]; [|by exists []].
    destruct (data ≫= field) as [b|]; [|by exists []].
    destruct (get_socket st t); [|by exists []].
    case_bool_decide; [|by exists []].
    destruct (socket_emit_run t (Signal outbound (Some b) s) st)
      as (out & -> & Ho).
    exists out. split; [done|]. eapply Forall_impl; [exact Ho|].
    intros e -> Hx; exact Hx.
Qed.

Lemma on_stop_share_effects (s : string) (st : state) :
  Forall (λ e, (∃ t, e = Deliver t HostStopped) ∨ e = Thrown)
         (on_stop_share s st).2.
Proof.
  unfold on_stop_share.
  destruct (sock_roomId st s) as [rid|]; [|constructor].
  destruct (_ && _); [|constructor].
  destruct (rooms_get st rid) as [|loc|]; [constructor| |].
  - unfold seq, io_to_emit, delete_room.
    pose proof (leave_all_run (viewers_of st loc) rid st) as Hl.
    destruct (leave_all _ rid st) as [st1 e1]. simpl in *. subst e1.
    rewrite app_nil_r. apply broadcast_Forall. eauto.
  - unfold seq, io_to_emit, throw. simpl. apply Forall_app. split.
    + apply broadcast_Forall. eauto.
    + constructor; [by right|constructor].
Qed.

Lemma disconnect_effects (s : string) (st st' : state) (out : list effect) :
  disconnect s st = Some (st', out) → Forall cleanup_effect out.
Proof.
  intros H. unfold disconnect in H.
  by apply (on_disconnect_preserves (λ _, True)) in H as [_ H].
Qed.

(** C5: when an event makes the server send an error to its sender, the
    whole state (the room table, the room objects and every socket's
    role, room id and connection) is what it was before the event, and no
    connection is closed; the sender is still connected. *)
Theorem error_changes_nothing (ev : event) (st st' : state)
    (out : list effect) (msg : string) :
  handle ev st = Some (st', out) →
  Deliver (sender ev) (Error msg) ∈ out →
  st' = st ∧ Forall (λ e, ¬ is_close e) out ∧
  is_connected st' (sender ev) = true.
Proof.
  unfold handle. destruct (enabled st ev) eqn:Hen; [|done].
  intros Hrun Herr.
  assert (∀ s m o, socket_emit s m st = (st', o) →
            st' = st ∧ Forall (λ e, ¬ is_close e) o) as Hemit.
  { intros s m o Ho. destruct (socket_emit_run s m st) as (o' & Ho' & Hf).
    rewrite Ho' in Ho. injection Ho as <- <-. split; [done|].
    eapply Forall_impl; [exact Hf|]. intros e -> Hx; exact Hx. }
  assert (∀ (P : effect → Prop) o,
            Forall P o → ¬ P (Deliver (sender ev) (Error msg)) →
            Deliver (sender ev) (Error msg) ∈ o → False) as Hno.
  { intros P o Hf HP Hin. rewrite Forall_forall in Hf.
    apply HP, Hf, Hin. }
  assert (st' = st ∧ Forall (λ e, ¬ is_close e) out) as [-> Hclose].
  2:{ split; [done|]. split; [done|].
      destruct ev; try exact Hen.
      simpl in Hrun. injection Hrun as _ <-. by apply elem_of_nil in Herr. }
  destruct ev as [s|s|s d|s|s|s d|s d|s d|s d|s d];
    cbn [dispatch sender] in Hrun, Herr.
  - injection Hrun as _ <-. by apply elem_of_nil in Herr.
  - exfalso. apply disconnect_effects in Hrun.
    apply (Hno _ _ Hrun); [|done]. intros Hx; exact Hx.
  - injection Hrun as Hrun. unfold on_start_share in Hrun.
    destruct (validateEvent _ _); [|by eapply Hemit].
    exfalso.
    destruct (new_room_state (or_else (d ≫= p_roomId) s) s st)
      as (st1 & Hnew & _).
    rewrite seq_run, Hnew in Hrun. unfold seq in Hrun. simpl in Hrun.
    injection Hrun as <- <-.
    apply list_elem_of_fmap in Herr as (t & [=] & _).
  - injection Hrun as Hrun. exfalso.
    pose proof (on_stop_share_effects s st) as Hf. rewrite Hrun in Hf.
    apply (Hno _ _ Hf); [|done]. by intros [[t [=]]|[=]].
  - injection Hrun as <- <-. split; [done|].
    destruct (is_connected st s); repeat constructor. intros Hx; exact Hx.
  - injection Hrun as Hrun. unfold on_join_view in Hrun.
    destruct (validateEvent _ _); [|by eapply Hemit].
    destruct (negb _); [by eapply Hemit|].
    destruct (rooms_get st _) as [|loc|]; [by eapply Hemit| |];
      [|injection Hrun as <- <-;
        by apply list_elem_of_singleton in Herr].
    exfalso. unfold seq in Hrun. simpl in Hrun.
    match type of Hrun with
    | context [is_connected ?a ?b] => destruct (is_connected a b)
    end; injection Hrun as <- <-;
      (apply elem_of_app in Herr as [Herr|Herr];
       [apply list_elem_of_fmap in Herr as (t & [=] & _)|]);
      simpl in Herr;
      first [by apply elem_of_nil in Herr
            |by apply list_elem_of_singleton in Herr].
  - injection Hrun as Hrun. unfold on_offer in Hrun.
    destruct (relay_keeps_state "offer" "offer" p_offer
                "Invalid offer payload" s d st) as (o & Ho & Hf).
    rewrite Ho in Hrun. by injection Hrun as <- <-.
  - injection Hrun as Hrun. unfold on_answer in Hrun.
    destruct (relay_keeps_state "answer" "answer" p_answer
                "Invalid answer payload" s d st) as (o & Ho & Hf).
    rewrite Ho in Hrun. by injection Hrun as <- <-.
  - injection Hrun as Hrun. unfold on_ice in Hrun.
    destruct (relay_keeps_state "ice" "ice" p_candidate
                "Invalid ICE payload" s d st) as (o & Ho & Hf).
    rewrite Ho in Hrun. by injection Hrun as <- <-.
  - injection Hrun as Hrun. unfold on_ice_candidate in Hrun.
    destruct (relay_keeps_state "ice-candidate" "ice" p_candidate
                "Invalid ICE payload" s d st) as (o & Ho & Hf).
    rewrite Ho in Hrun. by injection Hrun as <- <-.
Qed.

Lemma error_changes_nothing_witness :
  handle (JoinView "D" (with_room "nope")) room_R =
    Some (room_R, [Deliver "D" (Error "Room not found")]) ∧
  Forall (λ e, ¬ is_close e) [Deliver "D" (Error "Room not found")] ∧
  is_connected room_R "D" = true.
Proof.
  assert (handle (JoinView "D" (with_room "nope")) room_R =
            Some (room_R, [Deliver "D" (Error "Room not found")])) as Hrun
    by reflexivity.
  split; [exact Hrun|].
  apply (error_changes_nothing _ _ _ _ "Room not found" Hrun).
  apply list_elem_of_singleton. reflexivity.
Defined.

(** ** Reaching the sample state *)

Lemma threw_app (a b : list effect) : threw (a ++ b) = threw a || threw b.
Proof. apply existsb_app. Qed.

Lemma run_reachable (evs : list event) (st st' : state) (out : list effect) :
  reachable st → run evs st = Some (st', out) → threw out = false →
  reachable st'.
Proof.
  revert st out. induction evs as [|ev evs IH]; intros st out Hst Hrun Hq;
    simpl in Hrun.
  - by injection Hrun as <- <-.
  - destruct (handle ev st) as [[st1 e1]|] eqn:Hev; [|done].
    destruct (run evs st1) as [[st2 e2]|] eqn:Hrest; [|done].
    injection Hrun as <- <-.
    rewrite threw_app in Hq. apply orb_false_iff in Hq as [Hq1 Hq2].
    eapply IH; [|exact Hrest|exact Hq2]. by eapply reachable_step.
Qed.

Lemma run_reachable_if (ok : state → event → bool) (evs : list event)
    (st st' : state) (out : list effect) :
  reachable_if ok st → all_ok ok evs st = true →
  run evs st = Some (st', out) → reachable_if ok st'.
Proof.
  revert st out. induction evs as [|ev evs IH]; intros st out Hst Hok Hrun;
    simpl in Hrun, Hok.
  - by injection Hrun as <- <-.
  - apply andb_true_iff in Hok as [Hev Hok].
    destruct (handle ev st) as [[st1 e1]|] eqn:Hh; [|done].
    destruct (run evs st1) as [[st2 e2]|] eqn:Hrest; [|done].
    injection Hrun as <- <-.
    eapply IH; [|exact Hok|exact Hrest]. by eapply reachable_if_step.
Qed.

Lemma room_R_run : fst <$> run room_R_events initial = Some room_R.
Proof. vm_compute. reflexivity. Qed.

Lemma room_R_quiet :
  (λ r, threw r.2) <$> run room_R_events initial = Some false.
Proof. vm_compute. reflexivity. Qed.

Lemma room_R_reachable : reachable room_R.
Proof.
  pose proof room_R_run as H. pose proof room_R_quiet as Hq.
  destruct (run room_R_events initial) as [[st out]|] eqn:Hrun; [|done].
  injection H as <-. injection Hq as Hq.
  eapply run_reachable; [apply reachable_initial|exact Hrun|exact Hq].
Qed.

(** ** Host disconnect *)

(** C6 (failing case): host A of room R with viewers C and E disconnects.
    C gets host-disconnected and is closed, and the room is deleted; E
    gets nothing and stays connected.  Closing C runs C's own disconnect
    handler, which takes C out of the array the loop is walking, so the
    loop never reaches E. *)
Theorem host_disconnect_misses_viewer :
  reachable room_R ∧
  room_at room_R "R" = Some (mkRoom "A" ["C"; "E"]) ∧
  ∃ st', handle (Disconnect "A") room_R =
           Some (st', [Deliver "C" HostDisconnected; Closed "C"]) ∧
         rooms st' !! "R" = None ∧
         is_connected st' "C" = false ∧
         is_connected st' "E" = true.
Proof.
  split; [apply room_R_reachable|]. split; [reflexivity|].
  eexists. split; [vm_compute; reflexivity|].
  split; [|split]; vm_compute; reflexivity.
Qed.

(** With one viewer the cascade is complete; with three, the loop visits
    indices 0 and 1 of an array that shrinks under it, so the first and
    the third viewer are notified and closed and the second is not. *)
Lemma host_disconnect_one_viewer :
  ∃ st st', fst <$> run [Connect "A"; Connect "C";
                         StartShare "A" (with_room "R");
                         JoinView "C" (with_room "R")] initial = Some st ∧
    room_at st "R" = Some (mkRoom "A" ["C"]) ∧
    handle (Disconnect "A") st =
      Some (st', [Deliver "C" HostDisconnected; Closed "C"]) ∧
    rooms st' !! "R" = None.
Proof.
  eexists _, _. split; [vm_compute; reflexivity|].
  split; [vm_compute; reflexivity|].
  split; vm_compute; reflexivity.
Qed.

Lemma host_disconnect_three_viewers :
  ∃ st st' out, run cascade_events initial = Some (st, out) ∧
    room_at st "R" = Some (mkRoom "A" ["C"; "E"; "F"]) ∧
    handle (Disconnect "A") st =
      Some (st', [Deliver "C" HostDisconnected; Closed "C";
                  Deliver "F" HostDisconnected; Closed "F"]) ∧
    is_connected st' "E" = true.
Proof.
  eexists _, _, _. split; [vm_compute; reflexivity|].
  split; [vm_compute; reflexivity|].
  split; vm_compute; reflexivity.
Qed.

(** ** Viewer disconnect *)

Lemma index_of_Some (x : string) (l : list string) (i : nat) :
  index_of x l = Some i → x ∈ l ∧ delete i l = remove_first x l.
Proof.
  revert i. induction l as [|y l IH]; intros i; simpl; [done|].
  destruct (String.eqb_spec y x) as [->|Hne].
  - intros [= <-]. split; [|done]. apply elem_of_cons. by left.
  - destruct (index_of x l) as [j|]; [|done]. intros [= <-].
    destruct (IH j eq_refl) as [Hin Hdel]. split.
    + apply elem_of_cons. by right.
    + simpl. by rewrite Hdel.
Qed.

Lemma index_of_None (x : string) (l : list string) :
  index_of x l = None → (x ∉ l) ∧ remove_first x l = l.
Proof.
  induction l as [|y l IH]; simpl.
  - intros _. split; [|done]. apply not_elem_of_nil.
  - destruct (String.eqb_spec y x) as [->|Hne]; [done|].
    destruct (index_of x l) as [j|]; [done|]. intros _.
    destruct (IH eq_refl) as [Hin Hrem]. split.
    + rewrite elem_of_cons. intros [->|?]; [done|by apply Hin].
    + by rewrite Hrem.
Qed.

Lemma remove_first_NoDup (x : string) (l : list string) :
  NoDup l → (x ∉ remove_first x l) ∧ NoDup (remove_first x l).
Proof.
  induction 1 as [|y l Hy Hl IH]; simpl.
  - split; [|constructor]. apply not_elem_of_nil.
  - destruct (String.eqb_spec y x) as [->|Hne]; [done|].
    destruct IH as [IH1 IH2]. split.
    + rewrite elem_of_cons. intros [->|?]; [done|by apply IH1].
    + constructor; [|done]. intros Hin. apply Hy.
      clear -Hin. induction l as [|z l IHl]; simpl in Hin; [done|].
      destruct (String.eqb z x).
      * apply elem_of_cons. by right.
      * apply elem_of_cons in Hin as [->|Hin];
          apply elem_of_cons; [by left|right; by apply IHl].
Qed.

(** C7: a viewer [c] of room [rid] (its [roomId] is [rid], it is not a
    host, and the table has the room) disconnects.  The room stays in the
    table with the same host; its viewer list loses the first occurrence
    of [c], which removes [c] when the list has no duplicates and changes
    nothing when [c] is not in it; the host gets viewer-left{c} when [c]
    was in the list and the host is still connected, and nothing is sent
    otherwise. *)
Theorem viewer_disconnect_leaves_room (c rid : string) (st : state)
    (loc : nat) (r : room) :
  is_connected st c = true →
  sock_roomId st c = Some rid → rid ≠ "" → sock_isHost st c = false →
  rooms st !! rid = Some loc → heap st !! loc = Some r →
  ∃ st' out, handle (Disconnect c) st = Some (st', out) ∧
    rooms st' = rooms st ∧
    room_at st' rid = Some (mkRoom (host r) (remove_first c (viewers r))) ∧
    (NoDup (viewers r) → c ∉ remove_first c (viewers r)) ∧
    (c ∉ viewers r → heap st' = heap st ∧ out = []) ∧
    (c ∈ viewers r →
       out = if is_connected st' (host r)
             then [Deliver (host r) (ViewerLeft c)] else []).
Proof.
  intros Hc Hrid Hne Hhost Hloc Hr.
  unfold handle. simpl. rewrite Hc. unfold disconnect.
  cbn [on_disconnect].
  assert (sock_roomId (close_socket c st).1 c = Some rid) as ->.
  { unfold sock_roomId, sock in *. simpl. rewrite lookup_alter_eq.
    by destruct (sockets st !! c). }
  assert (sock_isHost (close_socket c st).1 c = false) as ->.
  { unfold sock_isHost, sock in *. simpl. rewrite lookup_alter_eq.
    by destruct (sockets st !! c). }
  destruct (String.eqb_spec rid ""); [done|].
  rewrite (rooms_get_own _ rid loc) by exact Hloc.
  cbn [close_socket update_sock fst rooms].
  unfold viewers_of. cbn [heap]. rewrite Hr.
  destruct (index_of c (viewers r)) as [i|] eqn:Hi.
  - apply index_of_Some in Hi as [Hin Hdel].
    unfold seq, update_room. cbn [heap sockets rooms].
    rewrite list_lookup_alter_eq, Hr. cbn [fmap option_fmap option_map host].
    unfold socket_emit.
    eexists _, _. split; [reflexivity|]. split; [done|].
    split.
    { unfold room_at. cbn [rooms heap]. rewrite Hloc. simpl.
      rewrite list_lookup_alter_eq, Hr. simpl. by rewrite Hdel. }
    split; [intros Hnd; by apply remove_first_NoDup|].
    split; [done|]. intros _. done.
  - apply index_of_None in Hi as [Hnin Hrem].
    eexists _, _. split; [reflexivity|]. split; [done|].
    split.
    { unfold room_at. cbn [rooms heap]. rewrite Hloc. simpl.
      rewrite Hr, Hrem. by destruct r. }
    split; [intros Hnd; by apply remove_first_NoDup|].
    split; [done|]. done.
Qed.

Lemma viewer_disconnect_leaves_room_witness :
  ∃ st' out, handle (Disconnect "C") room_R = Some (st', out) ∧
    rooms st' = rooms room_R ∧
    room_at st' "R" = Some (mkRoom "A" ["E"]) ∧
    out = [Deliver "A" (ViewerLeft "C")].
Proof.
  destruct (viewer_disconnect_leaves_room "C" "R" room_R 0
              (mkRoom "A" ["C"; "E"]))
    as (st' & out & Hrun & Hrooms & Hroom & _ & _ & Hout);
    [reflexivity|reflexivity|done|reflexivity|reflexivity|reflexivity|].
  exists st', out. split; [exact Hrun|]. split; [exact Hrooms|].
  split; [exact Hroom|].
  assert ("C" ∈ ["C"; "E"]) as Hin by (apply elem_of_cons; by left).
  specialize (Hout Hin). cbn [host] in Hout.
  assert (is_connected st' "A" = true) as Hlive.
  { vm_compute in Hrun. injection Hrun as <- _. vm_compute. reflexivity. }
  rewrite Hlive in Hout. exact Hout.
Defined.

(** ** stop-share *)

Lemma left_room_idemp (rid : string) (k : socket) :
  left_room rid (left_room rid k) = left_room rid k.
Proof. unfold left_room. simpl. f_equal. set_solver. Qed.

(** After the loop every listed viewer has left, and nothing else moved. *)
Lemma leave_all_state (vs : list string) (rid : string) (st : state) :
  let st' := (leave_all vs rid st).1 in
  rooms st' = rooms st ∧ proto st' = proto st ∧ heap st' = heap st ∧
  ∀ t, sock st' t =
       (if bool_decide (t ∈ vs) then left_room rid else id) <$> sock st t.
Proof.
  revert st. induction vs as [|v vs IH]; intros st; simpl.
  - repeat split. intros t. unfold sock. by destruct (sockets st !! t).
  - rewrite seq_run. cbn [fst].
    destruct (IH (socket_leave v rid st).1) as (-> & -> & -> & IHs).
    repeat split.
    intros t. rewrite IHs. unfold sock. simpl.
    destruct (decide (t = v)) as [->|Hne].
    + rewrite lookup_alter_eq.
      rewrite (bool_decide_true (v ∈ v :: vs)) by (apply elem_of_cons; by left).
      destruct (sockets st !! v) as [k|]; [|done]. simpl.
      case_bool_decide; [|done]. f_equal. apply left_room_idemp.
    + rewrite lookup_alter_ne by done.
      destruct (sockets st !! t) as [k|]; [|done]. simpl.
      repeat case_bool_decide; try done.
      * exfalso. set_solver.
      * exfalso. set_solver.
Qed.

Lemma stop_share_recognized (s : string) (st : state) (rid : string)
    (loc : nat) :
  sock_roomId st s = Some rid → rid ≠ "" → sock_isHost st s = true →
  rooms_get st rid = RoomAt loc →
  on_stop_share s st =
    ((delete_room rid (leave_all (viewers_of st loc) rid st).1).1,
     (λ t, Deliver t HostStopped) <$> members st rid).
Proof.
  intros Hrid Hne Hhost Hloc. unfold on_stop_share.
  rewrite Hrid, Hhost, Hloc.
  destruct (String.eqb_spec rid ""); [done|]. simpl.
  unfold seq, io_to_emit, delete_room.
  pose proof (leave_all_run (viewers_of st loc) rid st) as Hout.
  destruct (leave_all (viewers_of st loc) rid st) as [st1 e1].
  simpl in *. subst e1. by rewrite app_nil_r.
Qed.

Lemma stop_share_unrecognized (s : string) (st : state) :
  unrecognized st s → on_stop_share s st = (st, []).
Proof.
  intros Hno. unfold on_stop_share.
  destruct (sock_roomId st s) as [rid|] eqn:Hrid; [|done].
  destruct (Hno rid Hrid) as [->|[->| ->]]; [done| |].
  - by destruct (_ && _).
  - by rewrite andb_false_r.
Qed.

(** A shares R, then B shares R, which puts B's room object under R.
    A is no longer the host of any room, yet A's stop-share is no no-op:
    host-stopped goes to B and B's room is deleted. *)
Lemma replaced_host_run :
  ∃ st out0 st' out, run replaced_events initial = Some (st, out0) ∧
    threw out0 = false ∧
    room_of st "R" = Some (mkRoom "B" []) ∧
    sock_roomId st "A" = Some "R" ∧
    handle (StopShare "A") st = Some (st', out) ∧
    Deliver "B" HostStopped ∈ out ∧
    rooms st' !! "R" = None.
Proof.
  eexists _, _, _, _. split; [vm_compute; reflexivity|].
  split; [vm_compute; reflexivity|].
  split; [vm_compute; reflexivity|].
  split; [vm_compute; reflexivity|].
  split; [vm_compute; reflexivity|].
  split; [|vm_compute; reflexivity].
  apply elem_of_cons. right. apply elem_of_cons. by left.
Qed.

(** C8 as stated fails: the stop-share of a connection that is not the
    host of the room its room id names is not always a no-op. *)
Lemma replaced_host_stops_share :
  ¬ (∀ st s, reachable st → ¬ host_of_own_room st s →
             on_stop_share s st = (st, [])).
Proof.
  intros H.
  destruct replaced_host_run
    as (st & out0 & st' & out & Hrun & Hq & Hroom & Hrid & Hstop & Hin & _).
  apply (run_reachable _ _ _ _ reachable_initial) in Hrun; [|exact Hq].
  specialize (H st "A" Hrun).
  unfold handle in Hstop. destruct (enabled st (StopShare "A")); [|done].
  cbn [dispatch] in Hstop. rewrite H in Hstop.
  - injection Hstop as _ <-. by apply elem_of_nil in Hin.
  - intros (rid & r & Hrid' & Hr & Hhost).
    rewrite Hrid in Hrid'. injection Hrid' as <-.
    rewrite Hroom in Hr. injection Hr as <-. done.
Qed.

(** C8 (amended): stop-share of [s].  When [s] has a room id [rid], is
    marked as host and [rooms[rid]] is a room object (whoever its host
    is), host-stopped goes once to each connected socket that joined the
    Socket.IO room [rid], every socket in the room's viewer list leaves
    that Socket.IO room (nothing else about any socket changes), and the
    key [rid] is deleted from the table while the other keys and the room
    objects stay.  When [s] has no room id, is not marked as host, or
    [rooms[rid]] is undefined, nothing is sent and the state is
    unchanged. *)
Theorem stop_share_closes_room (s : string) (st : state) :
  (∀ rid loc,
     sock_roomId st s = Some rid → rid ≠ "" → sock_isHost st s = true →
     rooms_get st rid = RoomAt loc →
     ∃ st' out, on_stop_share s st = (st', out) ∧
       broadcast_to st rid HostStopped out ∧
       rooms st' = delete rid (rooms st) ∧
       proto st' = proto st ∧
       heap st' = heap st ∧
       ∀ t, sock st' t =
            (if bool_decide (t ∈ viewers_of st loc) then left_room rid else id)
              <$> sock st t) ∧
  (unrecognized st s → on_stop_share s st = (st, [])).
Proof.
  split; [|apply stop_share_unrecognized].
  intros rid loc Hrid Hne Hhost Hloc.
  rewrite (stop_share_recognized s st rid loc) by done.
  destruct (leave_all_state (viewers_of st loc) rid st)
    as (Hrooms & Hproto & Hheap & Hsock).
  eexists _, _. split; [reflexivity|].
  split; [apply io_to_emit_out|]. simpl.
  rewrite Hrooms, Hproto, Hheap. repeat split. exact Hsock.
Qed.

Lemma stop_share_closes_room_witness :
  (∃ st' out, on_stop_share "A" room_R = (st', out) ∧
     Deliver "C" HostStopped ∈ out ∧ (Deliver "D" HostStopped ∉ out) ∧
     rooms st' = delete "R" (rooms room_R) ∧
     sock st' "C" = left_room "R" <$> sock room_R "C") ∧
  on_stop_share "C" room_R = (room_R, []) ∧
  on_stop_share "D" room_R = (room_R, []).
Proof.
  split; [|split].
  - destruct (proj1 (stop_share_closes_room "A" room_R) "R" 0)
      as (st' & out & Hrun & [_ Hout] & Hrooms & _ & _ & Hsock);
      [reflexivity|done|reflexivity|reflexivity|].
    exists st', out. split; [exact Hrun|]. split; [|split; [|split]].
    + apply Hout. eexists "C", _. split; [done|].
      split; [reflexivity|]. split; [done|]. simpl. set_solver.
    + intros H. apply Hout in H as (t & k & [= <-] & Hk & _ & Hj).
      assert (sock room_R "D" = Some (mkSocket None None true {[ "D" ]}))
        as Hd by reflexivity.
      rewrite Hd in Hk. injection Hk as <-. simpl in Hj.
      by apply elem_of_singleton in Hj.
    + exact Hrooms.
    + apply (Hsock "C").
  - apply (proj2 (stop_share_closes_room "C" room_R)).
    intros rid [= <-]. right. right. reflexivity.
  - apply (proj2 (stop_share_closes_room "D" room_R)).
    intros rid [=].
Defined.

(** ** Rooms and live hosts *)

(** A starts sharing as R1, starts sharing again as R2 and disconnects.
    Only R2, the room A's [roomId] names, is deleted:
    R1 stays in the table with the closed connection A as its host, and
    get-available answers B with count 1 although no room has a live
    host. *)
Lemma room_outlives_host :
  ∃ st out, run reshare_events initial = Some (st, out) ∧
    threw out = false ∧
    room_at st "R1" = Some (mkRoom "A" []) ∧
    is_connected st "A" = false ∧
    live_rooms st = 0 ∧
    on_get_available "B" st = (st, [Deliver "B" (AvailableCount 1)]).
Proof.
  eexists _, _. split; [vm_compute; reflexivity|].
  split; [|split; [|split; [|split]]]; vm_compute; reflexivity.
Qed.

(** ** The invariant of hosted rooms *)

Lemma hosts_room_false (st : state) (s : string) (rid : string)
    (loc : nat) (r : room) :
  hosts_room st s = false →
  rooms st !! rid = Some loc → heap st !! loc = Some r → host r ≠ s.
Proof.
  unfold hosts_room. intros Hno Hloc Hr Heq.
  assert (existsb (λ entry, match heap st !! entry.2 with
                            | Some r => String.eqb (host r) s
                            | None => false
                            end) (map_to_list (rooms st)) = true) as Hyes;
    [|congruence].
  apply existsb_exists. exists (rid, loc). split.
  - apply list_elem_of_In, elem_of_map_to_list, Hloc.
  - simpl. rewrite Hr. by apply String.eqb_eq.
Qed.

(** The fields of a socket after an update of (maybe) another one. *)
Lemma sock_update (f : socket → socket) (s t : string) (st : state) :
  sock (update_sock f s st).1 t =
  (if bool_decide (t = s) then f else id) <$> sock st t.
Proof.
  unfold sock, update_sock. simpl. case_bool_decide as Hts.
  - subst. by rewrite lookup_alter_eq.
  - rewrite lookup_alter_ne by done. by destruct (sockets st !! t).
Qed.

Lemma sock_roomId_close (v t : string) (st : state) :
  sock_roomId (close_socket v st).1 t = sock_roomId st t.
Proof.
  unfold sock_roomId, close_socket. rewrite sock_update.
  destruct (sock st t); [|done]. by case_bool_decide.
Qed.

Lemma sock_isHost_close (v t : string) (st : state) :
  sock_isHost (close_socket v st).1 t = sock_isHost st t.
Proof.
  unfold sock_isHost, close_socket. rewrite sock_update.
  destruct (sock st t); [|done]. by case_bool_decide.
Qed.

Lemma is_connected_close (v t : string) (st : state) :
  is_connected (close_socket v st).1 t =
  if bool_decide (t = v) then false else is_connected st t.
Proof.
  unfold is_connected, close_socket. rewrite sock_update.
  destruct (sock st t); simpl; by case_bool_decide.
Qed.

Lemma hosted_close (v : string) (st : state) :
  hosted st → hosted (close_socket v st).1.
Proof.
  intros [Hne H]. split.
  - unfold close_socket, update_sock. simpl.
    rewrite lookup_alter_None. apply Hne.
  - intros rid loc Hloc. destruct (H rid loc Hloc) as (r & Hr & ? & ? & ?).
    exists r. by rewrite sock_roomId_close, sock_isHost_close.
Qed.

Lemma hosted_delete (rid : string) (st : state) :
  hosted st → hosted (delete_room rid st).1.
Proof.
  intros [Hne H]. split; [done|]. intros rid' loc Hloc. simpl in Hloc.
  apply lookup_delete_Some in Hloc as [_ Hloc]. by apply H.
Qed.

Lemma hosted_update_room (f : room → room) (loc : nat) (st : state) :
  (∀ r, host (f r) = host r) →
  hosted st → hosted (update_room f loc st).1.
Proof.
  intros Hf [Hne H]. split; [done|]. intros rid loc' Hloc'.
  destruct (H rid loc' Hloc') as (r & Hr & ? & ? & ?).
  unfold update_room. simpl. rewrite list_lookup_alter.
  case_decide as Hl.
  - subst loc'. rewrite Hr. eexists. split; [done|]. by rewrite Hf.
  - by exists r.
Qed.

(** The disconnect handler keeps [hosted] and the room id of a socket. *)
Lemma on_disconnect_hosted (fuel : nat) (s : string) (st st' : state)
    (out : list effect) (t : string) (o : option string) :
  hosted st → sock_roomId st t = o →
  on_disconnect fuel s st = Some (st', out) →
  hosted st' ∧ sock_roomId st' t = o.
Proof.
  intros Hh Ht Hrun.
  apply (on_disconnect_preserves
           (λ st0, hosted st0 ∧ sock_roomId st0 t = o)) in Hrun as [H _];
    [done| | | |done].
  - intros v st0 [H1 H2]. split; [by apply hosted_close|].
    by rewrite sock_roomId_close.
  - intros rid st0 [H1 H2]. split; [by apply hosted_delete|done].
  - intros s0 loc i st0 [H1 H2] _. split; [|done].
    by apply hosted_update_room.
Qed.

(** With plain room ids the lookup is that of the table. *)
Lemma plain_rooms_get (st : state) (t rid : string) :
  plain_rooms st → sock_roomId st t = Some rid →
  rooms_get st rid =
    match rooms st !! rid with Some loc => RoomAt loc | None => Undefined end.
Proof.
  intros [Hp Hids] Hrid. apply rooms_get_plain, plain_name_key; [done|].
  by apply (Hids t).
Qed.

Lemma plain_rooms_close (v : string) (st : state) :
  plain_rooms st → plain_rooms (close_socket v st).1.
Proof.
  intros [Hp Hids]. split; [done|]. intros t rid.
  rewrite sock_roomId_close. apply Hids.
Qed.

(** With plain room ids the disconnect handler throws nothing, and keeps
    the room ids plain. *)
Lemma on_disconnect_plain (fuel : nat) (s : string) (st st' : state)
    (out : list effect) :
  plain_rooms st → on_disconnect fuel s st = Some (st', out) →
  plain_rooms st' ∧ threw out = false.
Proof.
  rewrite threw_false. revert s st st' out.
  induction fuel as [|fuel IH]; intros s st st' out Hp Hrun; [done|].
  cbn [on_disconnect] in Hrun.
  destruct (sock_roomId st s) as [rid|] eqn:Hrid;
    [|by injection Hrun as <- <-].
  destruct (String.eqb rid ""); [by injection Hrun as <- <-|].
  rewrite (plain_rooms_get st s rid Hp Hrid) in Hrun.
  destruct (rooms st !! rid) as [loc|]; [|by injection Hrun as <- <-].
  destruct (sock_isHost st s).
  - match type of Hrun with
    | match for_each ?cb _ _ _ _ with _ => _ end = _ =>
        destruct (for_each cb loc (length (viewers_of st loc)) 0 st)
          as [[st1 e1]|] eqn:Hloop; [|done];
        apply (for_each_preserves plain_rooms (λ e, is_thrown e = false))
          in Hloop as [H1 H2]; [|clear Hrun|done]
    end.
    + by destruct (threw e1); injection Hrun as <- <-.
    + intros v st0 st2 o H0. unfold socket_emit, socket_disconnect.
      destruct (is_connected st0 v) eqn:Hc; cbn -[close_socket on_disconnect].
      * destruct (on_disconnect fuel v (close_socket v st0).1)
          as [[st3 e3]|] eqn:Hnest; [|done].
        intros [= <- <-].
        apply IH in Hnest as [H3 H4]; [|by apply plain_rooms_close].
        split; [done|]. by repeat constructor.
      * intros [= <- <-]. split; [done|constructor].
  - destruct (index_of s (viewers_of st loc)) as [i|];
      [|by injection Hrun as <- <-].
    rewrite seq_run in Hrun. injection Hrun as <- <-.
    cbn [update_room fst snd app].
    match goal with
    | |- context [match ?x with Some _ => _ | None => _ end] => destruct x
    end; [|by split; [|constructor]].
    unfold socket_emit.
    destruct (is_connected _ _); (split; [done|by repeat constructor]).
Qed.

(** A socket that hosts a room of the table names it in [roomId]. *)
Lemma hosted_host (st : state) (rid : string) (loc : nat) (r : room) :
  hosted st → rooms st !! rid = Some loc → heap st !! loc = Some r →
  rid ≠ "" ∧ sock_roomId st (host r) = Some rid ∧
  sock_isHost st (host r) = true.
Proof.
  intros [_ H] Hloc Hr. destruct (H rid loc Hloc) as (r' & Hr' & ?).
  by replace r with r' by congruence.
Qed.

(** When the disconnect handler of the closed socket [s] has run, the
    rooms of the table have live hosts again, up to the hosts [X] whose
    handlers are still to finish. *)
Lemma on_disconnect_hosts_live (fuel : nat) (X : string → Prop)
    (s : string) (st st' : state) (out : list effect) :
  plain_rooms st → hosted st → hosts_live_but (λ h, X h ∨ h = s) st →
  on_disconnect fuel s st = Some (st', out) →
  hosts_live_but X st'.
Proof.
  revert X s st st' out.
  induction fuel as [|fuel IH]; intros X s st st' out Hp Hh Hl Hrun; [done|].
  pose proof (on_disconnect_plain _ _ _ _ _ Hp Hrun) as [_ Hquiet].
  assert (∀ rid loc r, rooms st !! rid = Some loc → heap st !! loc = Some r →
            host r = s → sock_roomId st s = Some rid ∧ rid ≠ "" ∧
                         sock_isHost st s = true) as Hs.
  { intros rid loc r Hloc Hr <-.
    by destruct (hosted_host st rid loc r Hh Hloc Hr) as (? & ? & ?). }
  assert ((∀ rid loc r, rooms st !! rid = Some loc →
             heap st !! loc = Some r → host r ≠ s) →
          hosts_live_but X st) as Hnone.
  { intros Hno rid loc r Hloc Hr.
    destruct (Hl rid loc r Hloc Hr) as [[HX|Heq]|Hc]; auto.
    by destruct (Hno rid loc r Hloc Hr). }
  cbn [on_disconnect] in Hrun.
  destruct (sock_roomId st s) as [rid|] eqn:Hrid.
  2:{ injection Hrun as <- _. apply Hnone. intros rid loc r Hloc Hr Heq.
      by destruct (Hs rid loc r Hloc Hr Heq) as (? & _). }
  destruct (String.eqb_spec rid "") as [->|Hne].
  { injection Hrun as <- _. apply Hnone. intros rid' loc' r Hloc' Hr Heq.
    destruct (Hs rid' loc' r Hloc' Hr Heq) as (Heq' & ? & _). congruence. }
  rewrite (plain_rooms_get st s rid Hp Hrid) in Hrun.
  destruct (rooms st !! rid) as [loc|] eqn:Hloc.
  2:{ injection Hrun as <- _. apply Hnone. intros rid' loc r Hloc' Hr Heq.
      destruct (Hs rid' loc r Hloc' Hr Heq) as (Heq' & _). congruence. }
  destruct (sock_isHost st s) eqn:Hhost.
  - match type of Hrun with
    | match for_each ?cb _ _ _ _ with _ => _ end = _ =>
        destruct (for_each cb loc (length (viewers_of st loc)) 0 st)
          as [[st1 e1]|] eqn:Hloop; [|done];
        apply (for_each_preserves
                 (λ st0, plain_rooms st0 ∧ hosted st0 ∧
                         sock_roomId st0 s = Some rid ∧
                         hosts_live_but (λ h, X h ∨ h = s) st0)
                 (λ _, True)) in Hloop as [(H0 & H1 & H2 & H3) _];
          [|clear Hrun|done]
    end.
    + destruct (threw e1) eqn:Hth; injection Hrun as <- <-; [congruence|].
      intros rid' loc' r Hloc' Hr. simpl in *.
      apply lookup_delete_Some in Hloc' as [Hne' Hloc'].
      destruct (H3 rid' loc' r Hloc' Hr) as [[HX|Heq]|Hc]; auto.
      destruct (hosted_host st1 rid' loc' r H1 Hloc' Hr) as (_ & Hr' & _).
      congruence.
    + intros v st0 st2 o (H0 & H1 & H2 & H3).
      unfold socket_emit, socket_disconnect.
      destruct (is_connected st0 v) eqn:Hc; cbn -[close_socket on_disconnect].
      * destruct (on_disconnect fuel v (close_socket v st0).1)
          as [[st3 e3]|] eqn:Hnest; [|done].
        intros [= <- <-]. split; [|by apply Forall_true].
        destruct (on_disconnect_hosted fuel v (close_socket v st0).1 st3 e3
                    s (Some rid) (hosted_close v st0 H1)) as [H4 H5];
          [|done|].
        { by rewrite sock_roomId_close. }
        destruct (on_disconnect_plain fuel v (close_socket v st0).1 st3 e3
                    (plain_rooms_close v st0 H0) Hnest) as [H6 _].
        split; [done|]. split; [done|]. split; [done|].
        apply (IH (λ h, X h ∨ h = s) v (close_socket v st0).1 st3 e3);
          [by apply plain_rooms_close|by apply hosted_close| |done].
        intros rid' loc' r Hloc' Hr. rewrite is_connected_close.
        case_bool_decide; [by left; right|].
        destruct (H3 rid' loc' r Hloc' Hr) as [?|?]; auto.
      * intros [= <- <-]. split; [done|by apply Forall_true].
  - assert (∀ rid loc r, rooms st !! rid = Some loc →
              heap st !! loc = Some r → host r ≠ s) as Hno.
    { intros rid' loc' r Hloc' Hr Heq.
      destruct (Hs rid' loc' r Hloc' Hr Heq) as (_ & _ & ?). congruence. }
    destruct (index_of s (viewers_of st loc)) as [i|].
    2:{ injection Hrun as <- _. by apply Hnone. }
    rewrite seq_run in Hrun. injection Hrun as <- _.
    intros rid' loc' r' Hloc' Hr'.
    assert (∃ r, heap st !! loc' = Some r ∧ host r = host r' ∧
                 rooms st !! rid' = Some loc') as (r & Hr & Hhr & Hl').
    { revert Hloc' Hr'. cbn [update_room fst].
      match goal with
      | |- context [match ?x with Some _ => _ | None => _ end] => destruct x
      end; simpl; intros Hloc' Hr';
        rewrite list_lookup_alter in Hr'; case_decide; subst;
        try (destruct (heap st !! loc') as [r0|]; [|done];
             injection Hr' as <-); eauto. }
    rewrite <- Hhr.
    assert (is_connected (update_room
              (λ r0, mkRoom (host r0) (delete i (viewers r0))) loc st).1
              (host r) = is_connected st (host r)) as Hsame by done.
    destruct (Hl rid' loc' r Hl' Hr) as [[HX|Heq]|Hc]; auto.
    + by destruct (Hno rid' loc' r Hl' Hr).
    + right. revert Hc. cbn [update_room fst].
      match goal with
      | |- context [match ?x with Some _ => _ | None => _ end] => destruct x
      end; done.
Qed.

Lemma good_initial : good initial.
Proof.
  split; [|split; [split; [done|]|]].
  - split; [done|]. intros t rid. unfold sock_roomId, sock. simpl.
    by rewrite lookup_empty.
  - intros rid loc. simpl. by rewrite lookup_empty.
  - intros rid loc. simpl. by rewrite lookup_empty.
Qed.

Lemma good_connection (s : string) (st : state) :
  s ≠ "" → sock st s = None → good st → good (on_connection s st).1.
Proof.
  intros Hne Hfresh ([Hproto Hids] & [Hempty Hh] & Hl).
  assert (∀ h o, sock_roomId st h = Some o →
            sock (on_connection s st).1 h = sock st h) as Hsame.
  { intros h o Ho. unfold sock, on_connection. simpl.
    rewrite lookup_insert_ne; [done|]. intros <-.
    unfold sock_roomId in Ho. by rewrite Hfresh in Ho. }
  split; [|split; [split|]].
  - split; [done|]. intros t rid. unfold sock_roomId, sock, on_connection.
    simpl. destruct (decide (t = s)) as [->|Hts].
    + by rewrite lookup_insert_eq.
    + rewrite lookup_insert_ne by done. apply (Hids t).
  - simpl. by rewrite lookup_insert_ne.
  - intros rid loc Hloc. destruct (Hh rid loc Hloc) as (r & Hr & ? & Hrid & Hhost).
    exists r. split; [done|]. split; [done|].
    unfold sock_roomId, sock_isHost in *. by rewrite (Hsame _ _ Hrid).
  - intros rid loc r Hloc Hr. right.
    change (rooms st !! rid = Some loc) in Hloc.
    change (heap st !! loc = Some r) in Hr.
    destruct (hosted_host st rid loc r (conj Hempty Hh) Hloc Hr)
      as (_ & Hrid & _).
    destruct (Hl rid loc r Hloc Hr) as [[]|Hc].
    unfold is_connected in *. by rewrite (Hsame _ _ Hrid).
Qed.

Lemma good_disconnect (s : string) (st st' : state) (out : list effect) :
  good st → disconnect s st = Some (st', out) → good st'.
Proof.
  intros (Hp & Hh & Hl) Hrun. unfold disconnect in Hrun.
  split; [|split].
  - by destruct (on_disconnect_plain _ _ _ _ _
                   (plain_rooms_close s st Hp) Hrun).
  - by destruct (on_disconnect_hosted _ _ _ _ _ s _
                   (hosted_close s st Hh) eq_refl Hrun).
  - eapply on_disconnect_hosts_live;
      [by apply plain_rooms_close|by apply hosted_close| |exact Hrun].
    intros rid loc r Hloc Hr. rewrite is_connected_close.
    case_bool_decide; [by left; right|].
    destruct (Hl rid loc r Hloc Hr) as [[]|?]. by right.
Qed.

(** [good] carries over to a state whose rooms are old rooms with their
    hosts untouched, or new rooms of a connected host. *)
Lemma good_transfer (st st' : state) :
  good st → plain_rooms st' → sockets st' !! "" = None →
  (∀ rid loc, rooms st' !! rid = Some loc →
     ∃ r', heap st' !! loc = Some r' ∧
       ((rooms st !! rid = Some loc ∧
         ∃ r, heap st !! loc = Some r ∧ host r' = host r ∧
              same_socket st st' (host r)) ∨
        (rid ≠ "" ∧ sock_roomId st' (host r') = Some rid ∧
         sock_isHost st' (host r') = true ∧
         is_connected st' (host r') = true))) →
  good st'.
Proof.
  intros (_ & Hh & Hl) Hp Hempty Hrooms. split; [done|].
  split; [split; [done|]|].
  - intros rid loc Hloc.
    destruct (Hrooms rid loc Hloc) as (r' & Hr' & [(Hold & r & Hr & Hhost &
      Hrid & His & Hc)|(? & ? & ? & ?)]); exists r'; [|done].
    destruct (hosted_host st rid loc r Hh Hold Hr) as (? & ? & ?).
    rewrite Hhost. split; [done|]. split; [done|]. split; congruence.
  - intros rid loc r0 Hloc Hr0. right.
    destruct (Hrooms rid loc Hloc) as (r' & Hr' & [(Hold & r & Hr & Hhost &
      Hrid & His & Hc)|(? & ? & ? & ?)]);
      replace r0 with r' by congruence; [|done].
    rewrite Hhost, Hc. by destruct (Hl rid loc r Hold Hr) as [[]|?].
Qed.

Lemma same_socket_refl (st : state) (h : string) : same_socket st st h.
Proof. done. Qed.

Lemma good_start_share (s : string) (d : option payload) (st : state) :
  is_connected st s = true → hosts_room st s = false →
  plain_name (or_else (d ≫= p_roomId) s) = true →
  good st → good (on_start_share s d st).1.
Proof.
  intros Hc Hguard Hplain Hgood. unfold on_start_share.
  destruct (validateEvent _ _) as [|e].
  2:{ by destruct (socket_emit_run s (Error e) st) as (o & -> & _). }
  revert Hplain. set (rid := or_else _ _). intros Hplain.
  assert (rid ≠ "__proto__") as Hnp.
  { intros Heq. rewrite Heq in Hplain. done. }
  rewrite !seq_run, (new_room_plain rid s st Hnp). cbn [fst].
  pose proof Hgood as ([Hproto Hids] & [Hempty Hh] & _).
  assert (s ≠ "") as Hs.
  { intros ->. unfold is_connected, sock in Hc. by rewrite Hempty in Hc. }
  assert (rid ≠ "") as Hrid.
  { unfold rid, or_else. destruct (d ≫= p_roomId) as [r|]; [|done].
    by destruct (String.eqb_spec r ""). }
  unfold is_connected, sock in Hc.
  destruct (sockets st !! s) as [k|] eqn:Hk; [|done].
  apply (good_transfer st); [done| | |].
  - split; [done|]. intros t rid'. unfold sock_roomId, sock. simpl.
    destruct (decide (t = s)) as [->|Hts].
    + rewrite !lookup_alter_eq, Hk. simpl. by intros [= <-].
    + rewrite !lookup_alter_ne by done. apply (Hids t).
  - simpl. by rewrite !lookup_alter_None.
  - intros rid' loc. simpl. rewrite lookup_insert.
    case_decide as Hr; [subst rid'|].
    + intros [= <-]. rewrite lookup_app_r, Nat.sub_diag by done.
      eexists. split; [done|]. right. split; [done|].
      unfold sock_roomId, sock_isHost, is_connected, sock. simpl.
      by rewrite !lookup_alter_eq, Hk.
    + intros Hloc. destruct (Hh rid' loc Hloc) as (r & Hr' & _).
      exists r. split; [by apply lookup_app_l_Some|]. left.
      split; [done|]. exists r. split; [done|]. split; [done|].
      pose proof (hosts_room_false st s rid' loc r Hguard Hloc Hr') as Hne.
      unfold same_socket, sock_roomId, sock_isHost, is_connected, sock.
      simpl. by rewrite !lookup_alter_ne.
Qed.

Lemma good_join_view (s : string) (d : option payload) (st : state) :
  hosts_room st s = false → good st → good (on_join_view s d st).1.
Proof.
  intros Hguard Hgood. unfold on_join_view.
  assert (∀ m, good (socket_emit s m st).1) as Hemit.
  { intros m. by destruct (socket_emit_run s m st) as (o & -> & _). }
  destruct (validateEvent _ _) as [|e]; [|apply Hemit].
  destruct (negb _); [apply Hemit|].
  pose proof Hgood as ([Hproto Hids] & [Hempty Hh] & _).
  destruct (rooms_get st _) as [|loc|] eqn:Hget; [apply Hemit| |done].
  apply (rooms_get_RoomAt _ _ _ Hproto) in Hget. revert Hget.
  set (rid := default "" (d ≫= p_roomId)). intros Hloc.
  rewrite !seq_run. cbn [fst].
  apply (good_transfer st); [done| | |].
  - split; [done|]. intros t rid'. unfold sock_roomId, sock. simpl.
    destruct (decide (t = s)) as [->|Hts].
    + rewrite !lookup_alter_eq. destruct (sockets st !! s); [|done].
      simpl. intros [= <-].
      destruct (Hh rid loc Hloc) as (r & _ & _ & Hr & _).
      by apply (Hids (host r)).
    + rewrite !lookup_alter_ne by done. apply (Hids t).
  - simpl. by rewrite !lookup_alter_None.
  - intros rid' loc' Hloc'. simpl in Hloc'. simpl.
    destruct (Hh rid' loc' Hloc') as (r & Hr & _).
    pose proof (hosts_room_false st s rid' loc' r Hguard Hloc' Hr) as Hne.
    rewrite list_lookup_alter. case_decide; [subst loc'|].
    + rewrite Hr. eexists. split; [done|]. left. split; [done|].
      exists r. split; [done|]. split; [done|].
      unfold same_socket, sock_roomId, sock_isHost, is_connected, sock.
      simpl. by rewrite !lookup_alter_ne.
    + exists r. split; [done|]. left. split; [done|].
      exists r. split; [done|]. split; [done|].
      unfold same_socket, sock_roomId, sock_isHost, is_connected, sock.
      simpl. by rewrite !lookup_alter_ne.
Qed.

Lemma good_stop_share (s : string) (st : state) :
  good st → good (on_stop_share s st).1.
Proof.
  intros Hgood. unfold on_stop_share.
  pose proof Hgood as (Hp & [Hempty Hh] & _).
  destruct (sock_roomId st s) as [rid|] eqn:Hrid; [|done].
  destruct (_ && _); [|done].
  rewrite (plain_rooms_get st s rid Hp Hrid).
  destruct (rooms st !! rid) as [loc|]; [|done].
  rewrite !seq_run. cbn [fst io_to_emit delete_room].
  destruct (leave_all_state (viewers_of st loc) rid st)
    as (Hr & Hpr & Hhp & Hs).
  assert (∀ st0 r0 p0 h0 t, sock (mkState (sockets st0) r0 p0 h0) t = sock st0 t)
    as Hsk by done.
  apply (good_transfer st); [done| | |].
  - destruct Hp as [Hproto Hids]. split; [simpl; congruence|].
    intros t rid'. unfold sock_roomId. rewrite Hsk, Hs. intros Ht.
    apply (Hids t). unfold sock_roomId.
    destruct (sock st t); [|done]. simpl in *. by case_bool_decide.
  - simpl. specialize (Hs ""). unfold sock in Hs. rewrite Hempty in Hs.
    exact Hs.
  - intros rid' loc'. simpl. rewrite Hr, Hhp. intros Hloc'.
    apply lookup_delete_Some in Hloc' as [_ Hloc'].
    destruct (Hh rid' loc' Hloc') as (r & Hr' & _).
    exists r. split; [done|]. left. split; [done|].
    exists r. split; [done|]. split; [done|].
    unfold same_socket, sock_roomId, sock_isHost, is_connected.
    rewrite Hsk, Hs. destruct (sock st (host r)); [|done]. simpl.
    by case_bool_decide.
Qed.

(** One event keeps [good] when it is not a host that shares or joins
    again, nor a start-share for a member of [Object.prototype]. *)
Lemma handle_good (ev : event) (st st' : state) (out : list effect) :
  good st → first_assignment st ev = true →
  handle ev st = Some (st', out) → good st'.
Proof.
  intros Hgood Hok. apply andb_true_iff in Hok as [Hok Hplain].
  unfold handle. destruct (enabled st ev) eqn:Hen; [|done].
  assert (∀ inbound outbound field invalid s d o,
            relay inbound outbound field invalid s d st = (st', o) →
            good st') as Hrelay.
  { intros inbound outbound field invalid s d o Hrun.
    destruct (relay_keeps_state inbound outbound field invalid s d st)
      as (o' & Ho & _). rewrite Ho in Hrun. by injection Hrun as <- _. }
  destruct ev as [s|s|s d|s|s|s d|s d|s d|s d|s d];
    cbn [dispatch enabled sender not_hosting plain_share] in *; intros Hrun.
  - assert (st' = (on_connection s st).1) as ->
      by (by injection Hrun as <- _).
    apply andb_true_iff in Hen as [Hne Hfresh].
    apply negb_true_iff in Hne. apply bool_decide_eq_true in Hfresh.
    apply good_connection; [|done..].
    intros ->. by rewrite String.eqb_refl in Hne.
  - by eapply good_disconnect.
  - injection Hrun as Hrun. apply negb_true_iff in Hok.
    replace st' with (on_start_share s d st).1 by by rewrite Hrun.
    by apply good_start_share.
  - injection Hrun as Hrun.
    replace st' with (on_stop_share s st).1 by by rewrite Hrun.
    by apply good_stop_share.
  - by injection Hrun as <- _.
  - injection Hrun as Hrun. apply negb_true_iff in Hok.
    replace st' with (on_join_view s d st).1 by by rewrite Hrun.
    by apply good_join_view.
  - injection Hrun as Hrun. by eapply Hrelay.
  - injection Hrun as Hrun. by eapply Hrelay.
  - injection Hrun as Hrun. by eapply Hrelay.
  - injection Hrun as Hrun. by eapply Hrelay.
Qed.

Lemma reachable_if_good (st : state) :
  reachable_if first_assignment st → good st.
Proof.
  induction 1 as [|st ev st' out _ IH Hok Hrun]; [apply good_initial|].
  by eapply handle_good.
Qed.

Lemma good_live_rooms (st : state) :
  good st → hosts_live st ∧ live_rooms st = size (rooms st).
Proof.
  intros ([Hproto _] & Hh & Hl). split.
  - intros rid r Hroom. unfold room_of in Hroom.
    destruct (rooms_get st rid) as [|loc|] eqn:Hget; try done.
    apply (rooms_get_RoomAt _ _ _ Hproto) in Hget.
    by destruct (Hl rid loc r Hget Hroom) as [[]|?].
  - unfold live_rooms. f_equal. apply map_filter_id.
    intros rid loc Hloc. simpl. unfold host_live.
    destruct Hh as [_ Hh]. destruct (Hh rid loc Hloc) as (r & Hr & _).
    rewrite Hr. by destruct (Hl rid loc r Hloc Hr) as [[]|?].
Qed.

(** C9 as stated fails: a reachable state whose table has a room with a
    closed host. *)
Lemma dead_host_reachable : ¬ (∀ st, reachable st → hosts_live st).
Proof.
  intros H.
  destruct room_outlives_host as (st & out & Hrun & Hq & Hroom & Hc & _).
  apply (run_reachable _ _ _ _ reachable_initial) in Hrun; [|exact Hq].
  apply room_at_of in Hroom.
  specialize (H st Hrun "R1" _ Hroom). simpl in H. congruence.
Qed.

(** C9 (amended): in every state reached by events among which no
    start-share or join-view comes from a connection that is the host of
    a room in the table, and no start-share is for a room id that names a
    member of [Object.prototype], every room in the table has a connected
    host, and get-available answers a connected sender with the number of
    rooms that have a live host (which is the number of rooms in the
    table). *)
Theorem rooms_have_live_hosts (st : state) :
  reachable_if first_assignment st →
  hosts_live st ∧
  ∀ s, is_connected st s = true →
       on_get_available s st =
         (st, [Deliver s (AvailableCount (live_rooms st))]).
Proof.
  intros Hst. apply reachable_if_good, good_live_rooms in Hst as [Hl Hn].
  split; [done|]. intros s Hc.
  unfold on_get_available, socket_emit. by rewrite Hc, Hn.
Qed.

Lemma rooms_have_live_hosts_witness :
  hosts_live room_R ∧
  on_get_available "D" room_R = (room_R, [Deliver "D" (AvailableCount 1)]).
Proof.
  assert (reachable_if first_assignment room_R) as Hst.
  { pose proof room_R_run as H.
    destruct (run room_R_events initial) as [[st out]|] eqn:Hrun; [|done].
    injection H as <-.
    eapply run_reachable_if; [apply reachable_if_initial| |exact Hrun].
    vm_compute. reflexivity. }
  destruct (rooms_have_live_hosts room_R Hst) as [Hl Hg].
  split; [exact Hl|]. rewrite (Hg "D" eq_refl). reflexivity.
Defined.

(** ** Viewer lists without duplicates *)

Lemma rejoin_run :
  ∃ st out, run rejoin_events initial = Some (st, out) ∧
            threw out = false ∧
            room_at st "R" = Some (mkRoom "A" ["C"; "C"]).
Proof. eexists _, _. split; [|split]; vm_compute; reflexivity. Qed.

(** C10 as stated fails: a reachable state with a viewer listed twice. *)
Lemma duplicate_viewer_reachable :
  ¬ (∀ st, reachable st →
       ∀ rid r, room_at st rid = Some r → NoDup (viewers r)).
Proof.
  intros H. destruct rejoin_run as (st & out & Hrun & Hq & Hroom).
  apply (run_reachable _ _ _ _ reachable_initial) in Hrun; [|exact Hq].
  specialize (H st Hrun "R" _ Hroom). simpl in H.
  apply NoDup_cons in H as [Hnin _]. apply Hnin.
  apply elem_of_cons. by left.
Qed.

Lemma on_stop_share_heap (s : string) (st : state) :
  heap (on_stop_share s st).1 = heap st.
Proof.
  unfold on_stop_share.
  destruct (sock_roomId st s) as [rid|]; [|done].
  destruct (_ && _); [|done].
  destruct (rooms_get st rid) as [|loc|]; [done| |done].
  rewrite !seq_run. simpl.
  by destruct (leave_all_state (viewers_of st loc) rid st)
    as (_ & _ & -> & _).
Qed.

(** One event keeps the viewer lists duplicate-free when it is not a
    repeated join. *)
Lemma handle_viewers_unique (ev : event) (st st' : state)
    (out : list effect) :
  viewers_unique st → first_join st ev = true →
  handle ev st = Some (st', out) → viewers_unique st'.
Proof.
  intros Hu Hok. unfold handle. destruct (enabled st ev); [|done].
  destruct ev as [s|s|s d|s|s|s d|s d|s d|s d|s d]; cbn [dispatch];
    intros Hrun.
  - by injection Hrun as <- _.
  - unfold disconnect in Hrun.
    apply (on_disconnect_preserves viewers_unique) in Hrun as [H _]; try done.
    intros s0 loc i st0 H0 _. unfold viewers_unique, update_room. simpl.
    apply Forall_alter; [done|]. intros r _ Hr. simpl.
    eapply sublist_NoDup; [done|apply sublist_delete].
  - injection Hrun as Hrun. unfold on_start_share in Hrun.
    destruct (validateEvent _ _).
    + destruct (new_room_state (or_else (d ≫= p_roomId) s) s st)
        as (st1 & Hnew & _ & Hheap & _).
      rewrite !seq_run, Hnew in Hrun. injection Hrun as <- _.
      unfold viewers_unique. simpl. rewrite Hheap.
      apply Forall_app. split; [done|]. repeat constructor.
    + destruct (socket_emit_run s (Error error) st) as (o & Ho & _).
      rewrite Ho in Hrun. by injection Hrun as <- _.
  - injection Hrun as Hrun. unfold viewers_unique.
    replace st' with (on_stop_share s st).1 by by rewrite Hrun.
    by rewrite on_stop_share_heap.
  - by injection Hrun as <- _.
  - injection Hrun as Hrun. unfold on_join_view in Hrun.
    assert (∀ m, socket_emit s m st = (st', out) → viewers_unique st')
      as Hemit.
    { intros m Hm. destruct (socket_emit_run s m st) as (o & Ho & _).
      rewrite Ho in Hm. by injection Hm as <- _. }
    destruct (validateEvent _ _); [|by eapply Hemit].
    simpl in Hok. destruct (d ≫= p_roomId) as [rid|]; simpl in Hrun;
      [|by eapply Hemit].
    destruct (negb _); [by eapply Hemit|].
    unfold room_of in Hok.
    destruct (rooms_get st rid) as [|loc|];
      [by eapply Hemit| |by injection Hrun as <- _].
    rewrite !seq_run in Hrun. injection Hrun as <- _.
    unfold viewers_unique. simpl in *. apply Forall_alter; [done|].
    intros r Hr Hnd. simpl. rewrite Hr in Hok.
    apply NoDup_app. split; [done|]. split; [|apply NoDup_singleton].
    intros x Hx ->%list_elem_of_singleton.
    apply negb_true_iff, includes_false in Hok. done.
  - injection Hrun as Hrun. unfold on_offer in Hrun.
    destruct (relay_keeps_state "offer" "offer" p_offer
                "Invalid offer payload" s d st) as (o & Ho & _).
    rewrite Ho in Hrun. by injection Hrun as <- _.
  - injection Hrun as Hrun. unfold on_answer in Hrun.
    destruct (relay_keeps_state "answer" "answer" p_answer
                "Invalid answer payload" s d st) as (o & Ho & _).
    rewrite Ho in Hrun. by injection Hrun as <- _.
  - injection Hrun as Hrun. unfold on_ice in Hrun.
    destruct (relay_keeps_state "ice" "ice" p_candidate
                "Invalid ICE payload" s d st) as (o & Ho & _).
    rewrite Ho in Hrun. by injection Hrun as <- _.
  - injection Hrun as Hrun. unfold on_ice_candidate in Hrun.
    destruct (relay_keeps_state "ice-candidate" "ice" p_candidate
                "Invalid ICE payload" s d st) as (o & Ho & _).
    rewrite Ho in Hrun. by injection Hrun as <- _.
Qed.

Lemma reachable_if_unique (st : state) :
  reachable_if first_join st → viewers_unique st.
Proof.
  induction 1 as [|st ev st' out _ IH Hok Hrun]; [constructor|].
  by eapply handle_viewers_unique.
Qed.

(** C10 (amended): in every state reached by events among which no
    join-view comes from a connection that is already in the viewer list
    of the room it names, the viewer list of every room that [rooms]
    gives (under a key of the table, or as its prototype) has no
    duplicates. *)
Theorem viewers_have_no_duplicates (st : state) (rid : string) (r : room) :
  reachable_if first_join st →
  room_of st rid = Some r → NoDup (viewers r).
Proof.
  intros Hst Hroom. apply reachable_if_unique in Hst.
  unfold room_of in Hroom. destruct (rooms_get st rid) as [|loc|]; try done.
  unfold viewers_unique in Hst.
  rewrite Forall_lookup in Hst. by eapply Hst.
Qed.

Lemma viewers_have_no_duplicates_witness : NoDup ["C"; "E"].
Proof.
  apply (viewers_have_no_duplicates room_R "R" (mkRoom "A" ["C"; "E"]));
    [|reflexivity].
  pose proof room_R_run as H.
  destruct (run room_R_events initial) as [[st out]|] eqn:Hrun; [|done].
  injection H as <-.
  eapply run_reachable_if; [apply reachable_if_initial| |exact Hrun].
  vm_compute. reflexivity.
Defined.

(** ** The earlier copy *)

(** In [server.js] an offer reaches a connected target in any room: the
    host A of room R reaches D, which has joined nothing. *)
Lemma server_js_offer_crosses_rooms :
  ServerJs.on_offer "A" (offer_to "D" (JStr "sdp")) room_R =
    Some (room_R, [Deliver "D" (Signal "offer" (Some (JStr "sdp")) "A")]).
Proof. reflexivity. Qed.

(** In [server.js] start-share tells the sender alone, with
    share-started, and a payload that cannot be serialized (or none at
    all) makes the handler throw. *)
Lemma server_js_start_share :
  (snd <$> ServerJs.on_start_share "D" (with_room "S") room_R =
     Some [Deliver "D" (ShareStarted "S")]) ∧
  ServerJs.on_start_share "D" None room_R = None ∧
  ServerJs.validateEvent "offer" (Some (JBigInt 1)) = None ∧
  ServerJs.validateEvent "ice-candidate" (Some JNull) =
    Some (Invalid "Invalid event type").
Proof. repeat split; vm_compute; reflexivity. Qed.

(** * Further properties of the handlers *)

(** ** More on validation *)

Lemma JSON_stringify_arr (items : list jsval) :
  JSON_stringify (JArr items) =
  match stringify_items items with
  | Some parts => Some ("[" +:+ join_comma parts +:+ "]")
  | None => None
  end.
Proof. reflexivity. Qed.

Lemma JSON_stringify_obj (props : list (string * jsval)) :
  JSON_stringify (JObj props) =
  match stringify_props props with
  | Some parts => Some ("{" +:+ join_comma parts +:+ "}")
  | None => None
  end.
Proof. reflexivity. Qed.

Lemma stringify_items_Some (items : list jsval) :
  is_Some (stringify_items items) ↔
  Forall (λ v, is_Some (JSON_stringify v)) items.
Proof.
  induction items as [|x r IH]; simpl.
  - split; [constructor|by eexists].
  - rewrite Forall_cons, <- IH.
    destruct (JSON_stringify x), (stringify_items r); split;
      try (by intros [? [=]]); try (by intros [[? [=]] [? [=]]]);
      try (by intros _; eexists); try (by intros _; split; eexists);
      try (by intros [_ [? [=]]]); try (by intros [[? [=]] _]).
Qed.

Lemma stringify_props_Some (props : list (string * jsval)) :
  is_Some (stringify_props props) ↔
  Forall (λ kv, is_Some (JSON_stringify kv.2)) props.
Proof.
  induction props as [|[k x] r IH]; simpl.
  - split; [constructor|by eexists].
  - rewrite Forall_cons, <- IH. simpl.
    destruct (JSON_stringify x), (stringify_props r); split;
      try (by intros [? [=]]); try (by intros [[? [=]] [? [=]]]);
      try (by intros _; eexists); try (by intros _; split; eexists);
      try (by intros [_ [? [=]]]); try (by intros [[? [=]] _]).
Qed.

(** Induction on a value, with the items of arrays and objects. *)
Lemma jsval_nested_ind (P : jsval → Prop) :
  P JNull → (∀ b, P (JBool b)) → (∀ n, P (JNum n)) →
  (∀ n, P (JBigInt n)) → (∀ s, P (JStr s)) →
  (∀ items, Forall P items → P (JArr items)) →
  (∀ props, Forall (λ kv, P kv.2) props → P (JObj props)) →
  ∀ v, P v.
Proof.
  intros Hnull Hbool Hnum Hbig Hstr Harr Hobj. fix IH 1.
  intros [|b|n|n|s|items|props].
  - exact Hnull.
  - exact (Hbool b).
  - exact (Hnum n).
  - exact (Hbig n).
  - exact (Hstr s).
  - apply Harr.
    refine ((fix go (l : list jsval) : Forall P l :=
               match l with
               | [] => Forall_nil_2 _
               | x :: r => Forall_cons_2 _ _ _ (IH x) (go r)
               end) items).
  - apply Hobj.
    refine ((fix go (l : list (string * jsval)) : Forall (λ kv, P kv.2) l :=
               match l with
               | [] => Forall_nil_2 _
               | kv :: r => Forall_cons_2 _ _ _ (IH kv.2) (go r)
               end) props).
Qed.

Lemma stringify_bigint_free (v : jsval) :
  is_Some (JSON_stringify v) ↔ bigint_free v = true.
Proof.
  induction v as [|b|n|n|s|items IH|props IH] using jsval_nested_ind;
    try (split; [done|by eexists]).
  - by destruct b; split; try done; eexists.
  - split; [intros [? [=]]|done].
  - rewrite JSON_stringify_arr.
    assert (is_Some (match stringify_items items with
                     | Some parts => Some ("[" +:+ join_comma parts +:+ "]")
                     | None => None
                     end) ↔ is_Some (stringify_items items)) as ->.
    { destruct (stringify_items items); split; by eauto || intros [? [=]]. }
    rewrite stringify_items_Some. simpl.
    rewrite forallb_forall, Forall_forall. rewrite Forall_forall in IH.
    split.
    + intros H x Hx. apply list_elem_of_In in Hx. by apply IH, H.
    + intros H x Hx. apply IH; [done|]. apply H. by apply list_elem_of_In.
  - rewrite JSON_stringify_obj.
    assert (is_Some (match stringify_props props with
                     | Some parts => Some ("{" +:+ join_comma parts +:+ "}")
                     | None => None
                     end) ↔ is_Some (stringify_props props)) as ->.
    { destruct (stringify_props props); split; by eauto || intros [? [=]]. }
    rewrite stringify_props_Some. simpl.
    rewrite forallb_forall, Forall_forall. rewrite Forall_forall in IH.
    split.
    + intros H x Hx. apply list_elem_of_In in Hx. by apply IH, H.
    + intros H x Hx. apply IH; [done|]. apply H. by apply list_elem_of_In.
Qed.

(** X1: for an allowed event, [validateEvent] answers Malformed payload
    exactly for the payloads that hold a BigInt somewhere; a payload that
    JSON text can denote is never rejected as malformed. *)
Theorem malformed_iff_bigint (event : string) (d : jsval) :
  event ∈ allowedEvents →
  validateEvent event (Some d) = Invalid "Malformed payload" ↔
  bigint_free d = false.
Proof.
  intros Hev. apply includes_elem_of in Hev. unfold validateEvent.
  rewrite Hev. cbn [negb].
  destruct (JSON_stringify d) as [text|] eqn:Hs.
  - assert (bigint_free d = true) as ->
      by (apply stringify_bigint_free; by eexists).
    split; [|done]. destruct d; try done; by destruct (_ <? _)%N.
  - assert (bigint_free d ≠ true) as Hb.
    { intros Hb. apply stringify_bigint_free in Hb as [? ?]. congruence. }
    destruct (bigint_free d); [done|]. split; [done|]. intros _.
    by destruct d.
Qed.

Lemma malformed_iff_bigint_witness :
  validateEvent "offer" (Some (JObj [("offer", JArr [JNum 1; JBigInt 2])])) =
    Invalid "Malformed payload" ∧
  validateEvent "offer" (Some (JObj [("offer", JArr [JNum 1; JNum 2])])) ≠
    Invalid "Malformed payload".
Proof.
  assert ("offer" ∈ allowedEvents) as Hev by (by apply includes_elem_of).
  split.
  - by apply (malformed_iff_bigint "offer" _ Hev).
  - intros H. by apply (malformed_iff_bigint "offer" _ Hev) in H.
Defined.

Lemma js_length_ascii (s : string) :
  ascii_text s = true → js_length s = byte_size s.
Proof.
  induction s as [|a s IH]; [done|]. simpl.
  intros [Ha Hs]%andb_true_iff. rewrite (IH Hs).
  unfold units_of_byte. by rewrite Ha.
Qed.

(** X2: for a payload whose numbers are safe integers (so that
    [JSON_stringify] gives JavaScript's text), when the serialization is
    ASCII text, the size check of [validateEvent] is a limit on its byte
    size: the payload is accepted up to 65536 bytes and rejected as too
    large beyond. *)
Theorem ascii_size_limit_in_bytes (event : string) (d : jsval)
    (text : string) :
  event ∈ allowedEvents → safe_numbers d = true →
  JSON_stringify d = Some text → ascii_text text = true →
  validateEvent event (Some d) =
    if (65536 <? byte_size text)%N then Invalid "Message too large"
    else Valid.
Proof.
  intros Hev _ Hs Ha. rewrite <- (js_length_ascii text Ha).
  apply includes_elem_of in Hev. unfold validateEvent. rewrite Hev.
  cbn [negb]. destruct d; try (by rewrite Hs).
  by injection Hs as <-.
Qed.

Lemma ascii_size_limit_in_bytes_witness :
  validateEvent "join-view" (Some (JObj [("roomId", JStr "R")])) = Valid.
Proof.
  assert ("join-view" ∈ allowedEvents) as Hev by (by apply includes_elem_of).
  by rewrite (ascii_size_limit_in_bytes "join-view"
                (JObj [("roomId", JStr "R")]) _ Hev eq_refl eq_refl eq_refl).
Defined.

(** ** More on signaling *)

Lemma on_signal_unfold (k : signal) :
  on_signal k =
  relay (signal_name k) (signal_emitted k) (signal_field k) (signal_invalid k).
Proof. by destruct k. Qed.

(** X3: a signaling event that passes validation, names no target and
    carries a body, from a sender [s] whose [roomId] is [rid], goes once
    to each connected socket that joined the Socket.IO room [rid] and is
    not in the room named by the id of [s], labelled with that id; the
    state is unchanged.  The sender is in the room of its own id (unless
    it left it), and so is every viewer of a room whose id is the id of
    its host: they get nothing. *)
Theorem broadcast_relay (k : signal) (s rid : string) (b : jsval)
    (data : option payload) (st : state) :
  validateEvent (signal_name k) (to_js <$> data) = Valid →
  truthy_str (data ≫= p_targetId) = false →
  data ≫= signal_field k = Some b → truthy b = true →
  sock_roomId st s = Some rid → rid ≠ "" →
  ∃ out, on_signal k s data st = (st, out) ∧ NoDup out ∧
    ∀ e, e ∈ out ↔
         ∃ t kt, e = Deliver t (Signal (signal_emitted k) (Some b) s) ∧
                 sock st t = Some kt ∧ connected kt = true ∧
                 rid ∈ joined kt ∧ s ∉ joined kt.
Proof.
  intros Hv Ht Hb Htr Hrid Hne. rewrite on_signal_unfold. unfold relay.
  rewrite Hv, Ht, Hb, Hrid. cbn [negb orb truthy_opt truthy_str].
  destruct (String.eqb_spec rid ""); [done|]. rewrite Htr. cbn [negb andb].
  unfold socket_to_emit. eexists. split; [done|]. split.
  - apply NoDup_fmap_2; [by intros ?? [=]|].
    apply NoDup_filter, NoDup_members.
  - intros e. rewrite list_elem_of_fmap. split.
    + intros (t & -> & Hin). apply list_elem_of_filter in Hin as [Hs Hin].
      apply elem_of_members in Hin as (kt & Hk & Hc & Hj).
      exists t, kt. repeat split; try done.
      intros Hsj. apply Hs, elem_of_members. by exists kt.
    + intros (t & kt & -> & Hk & Hc & Hj & Hs). exists t. split; [done|].
      apply list_elem_of_filter. split.
      * intros (k2 & Hk2 & _ & Hj2)%elem_of_members. congruence.
      * apply elem_of_members. by exists kt.
Qed.

Lemma broadcast_relay_witness :
  ∃ out, on_signal SIce "A"
           (Some (mkPayload None None None None (Some (JStr "cand"))))
           room_R = (room_R, out) ∧
    NoDup out ∧
    (Deliver "C" (Signal "ice" (Some (JStr "cand")) "A") ∈ out) ∧
    (Deliver "A" (Signal "ice" (Some (JStr "cand")) "A") ∉ out).
Proof.
  destruct (broadcast_relay SIce "A" "R" (JStr "cand")
              (Some (mkPayload None None None None (Some (JStr "cand"))))
              room_R) as (out & Hrun & Hnd & Hout);
    [reflexivity|reflexivity|reflexivity|reflexivity|reflexivity|done|].
  exists out. split; [exact Hrun|]. split; [exact Hnd|]. split.
  - apply Hout. eexists "C", _. split; [reflexivity|].
    split; [reflexivity|]. split; [reflexivity|]. simpl.
    split; [set_solver|]. rewrite elem_of_union, !elem_of_singleton.
    by intros [|].
  - intros Hin. apply Hout in Hin as (t & kt & [= <-] & Hk & _ & _ & Hs).
    assert (sock room_R "A" =
              Some (mkSocket (Some "R") (Some true) true {[ "A"; "R" ]}))
      as Ha by reflexivity.
    rewrite Ha in Hk. injection Hk as <-. apply Hs. simpl. set_solver.
Defined.

(** X4: a signaling event that passes validation gets the handler's
    Invalid ... payload error, sent to its sender alone, whenever it has
    no truthy body (whatever target it names), and also when it names no
    target while the sender has no room id; the state is unchanged. *)
Theorem signal_rejected (k : signal) (s : string) (data : option payload)
    (st : state) :
  validateEvent (signal_name k) (to_js <$> data) = Valid →
  is_connected st s = true →
  truthy_opt (data ≫= signal_field k) = false ∨
    (truthy_str (data ≫= p_targetId) = false ∧
     truthy_str (sock_roomId st s) = false) →
  on_signal k s data st = (st, [Deliver s (Error (signal_invalid k))]).
Proof.
  intros Hv Hc Hbad. rewrite on_signal_unfold. unfold relay, socket_emit.
  rewrite Hv, Hc.
  destruct (data ≫= signal_field k) as [b|]; simpl in *.
  - destruct (truthy b) eqn:Hb.
    + destruct Hbad as [|[-> Hr]]; [done|]. simpl.
      destruct (sock_roomId st s) as [rid|]; [|done]. simpl in *.
      by rewrite Hr.
    + rewrite orb_true_r. destruct (sock_roomId st s) as [rid|]; [|done].
      by rewrite andb_false_r.
  - rewrite orb_true_r. by destruct (sock_roomId st s).
Qed.

Lemma signal_rejected_witness :
  on_signal SOffer "A"
    (Some (mkPayload None (Some "C") None None None)) room_R =
    (room_R, [Deliver "A" (Error "Invalid offer payload")]) ∧
  on_signal SAnswer "D" (Some (mkPayload None None None (Some (JStr "x")) None))
    room_R = (room_R, [Deliver "D" (Error "Invalid answer payload")]).
Proof.
  split.
  - apply (signal_rejected SOffer "A"); [reflexivity|reflexivity|].
    left. reflexivity.
  - apply (signal_rejected SAnswer "D"); [reflexivity|reflexivity|].
    right. split; reflexivity.
Defined.

Lemma socket_emit_elem (s : string) (m : message) (st : state) (e : effect) :
  e ∈ (socket_emit s m st).2 → e = Deliver s m ∧ is_connected st s = true.
Proof.
  unfold socket_emit. destruct (is_connected st s); simpl.
  - by intros ->%list_elem_of_singleton.
  - by intros ?%elem_of_nil.
Qed.

Lemma members_connected (st : state) (rid t : string) :
  t ∈ members st rid → is_connected st t = true.
Proof.
  intros (k & Hk & Hc & _)%elem_of_members. unfold is_connected.
  by rewrite Hk.
Qed.

(** What a signaling handler sends: the body it got, to connected
    sockets, or an error (its own or the validation's) to the sender. *)
Lemma relay_messages (inbound outbound : string)
    (field : payload → option jsval) (invalid : string)
    (s : string) (data : option payload) (st : state) :
  ∃ out, relay inbound outbound field invalid s data st = (st, out) ∧
    Forall (λ e,
      (∃ t b, data ≫= field = Some b ∧ is_connected st t = true ∧
              e = Deliver t (Signal outbound (Some b) s)) ∨
      (∃ m, e = Deliver s (Error m) ∧ is_connected st s = true ∧
            (m = invalid ∨
             validateEvent inbound (to_js <$> data) = Invalid m))) out.
Proof.
  unfold relay.
  assert (∀ m, (m = invalid ∨
                validateEvent inbound (to_js <$> data) = Invalid m) →
            ∃ out, socket_emit s (Error m) st = (st, out) ∧
            Forall (λ e,
              (∃ t b, data ≫= field = Some b ∧ is_connected st t = true ∧
                      e = Deliver t (Signal outbound (Some b) s)) ∨
              (∃ m, e = Deliver s (Error m) ∧ is_connected st s = true ∧
                    (m = invalid ∨
                     validateEvent inbound (to_js <$> data) = Invalid m)))
              out) as Herr.
  { intros m Hm. exists (socket_emit s (Error m) st).2. split; [done|].
    apply Forall_forall. intros e [-> Hc]%socket_emit_elem.
    right. by exists m. }
  destruct (validateEvent _ _) as [|m] eqn:Hv; [|apply Herr; by right].
  destruct (_ || _).
  - destruct (sock_roomId st s) as [rid|]; [|apply Herr; by left].
    destruct (data ≫= field) as [b|]; [|apply Herr; by left].
    destruct (_ && _); [|apply Herr; by left].
    eexists. split; [done|]. unfold socket_to_emit. simpl.
    apply Forall_fmap, Forall_forall. intros t Ht. left.
    apply list_elem_of_filter in Ht as [_ Ht]. exists t, b.
    split; [done|]. split; [by eapply members_connected|done].
  - destruct (data ≫= p_targetId) as [t|]; [|by exists []].
    destruct (data ≫= field) as [b|]; [|by exists []].
    destruct (get_socket st t); [|by exists []].
    case_bool_decide; [|by exists []].
    exists (socket_emit t (Signal outbound (Some b) s) st).2.
    split; [done|]. apply Forall_forall. intros e He.
    apply socket_emit_elem in He as [-> Hc]. left. by exists t, b.
Qed.

(** X5: whatever a signaling event carries, the state is unchanged and
    every message it causes is either the body of that very event, under
    the handler's outgoing event name and labelled with the sender's id,
    or an error sent to the sender. *)
Theorem signal_messages_faithful (k : signal) (s : string)
    (data : option payload) (st : state) :
  ∃ out, on_signal k s data st = (st, out) ∧
    Forall (λ e,
      (∃ t b, data ≫= signal_field k = Some b ∧
              e = Deliver t (Signal (signal_emitted k) (Some b) s)) ∨
      (∃ m, e = Deliver s (Error m))) out.
Proof.
  rewrite on_signal_unfold.
  destruct (relay_messages (signal_name k) (signal_emitted k)
              (signal_field k) (signal_invalid k) s data st)
    as (out & -> & Ho).
  exists out. split; [done|]. eapply Forall_impl; [exact Ho|].
  intros e [(t & b & ? & _ & ->)|(m & -> & _)]; [left|right]; eauto.
Qed.

Lemma validateEvent_allowed_name (ev1 ev2 : string) (d : option jsval) :
  ev1 ∈ allowedEvents → ev2 ∈ allowedEvents →
  validateEvent ev1 d = validateEvent ev2 d.
Proof.
  intros H1%includes_elem_of H2%includes_elem_of. unfold validateEvent.
  by rewrite H1, H2.
Qed.

(** X6: the handler of ice-candidate is the handler of ice under another
    name: on every payload and state both do the same to the state and
    send the same messages, which go out as ice. *)
Theorem ice_candidate_is_ice (s : string) (data : option payload)
    (st : state) :
  on_ice_candidate s data st = on_ice s data st.
Proof.
  unfold on_ice_candidate, on_ice, relay.
  rewrite (validateEvent_allowed_name "ice-candidate" "ice");
    [done|by apply includes_elem_of..].
Qed.

(** ** What handlers send, and to whom *)

Lemma validate_error_texts (ev : string) (d : option jsval) (m : string) :
  ev ∈ allowedEvents → validateEvent ev d = Invalid m →
  m = "Malformed payload" ∨ m = "Message too large".
Proof.
  intros Hev%includes_elem_of. unfold validateEvent. rewrite Hev. simpl.
  destruct d as [[]|]; try done;
    repeat match goal with
           | |- context [match ?x with _ => _ end] => destruct x
           end; intros [=]; auto.
Qed.

Lemma is_connected_alter (f : socket → socket) (s t : string)
    (m : gmap string socket) (r : gmap string nat) (p : option nat)
    (h : list room) :
  (∀ k, connected (f k) = connected k) →
  is_connected (mkState (alter f s m) r p h) t =
  is_connected (mkState m r p h) t.
Proof.
  intros Hf. unfold is_connected, sock. simpl. rewrite lookup_alter.
  case_decide; [subst|done]. destruct (m !! t); simpl; by rewrite ?Hf.
Qed.

Lemma error_sent_properly (st : state) (s : string) (m : string) :
  m ∈ handler_errors →
  Forall (sent_properly st s) (socket_emit s (Error m) st).2.
Proof.
  intros Hm. apply Forall_forall. intros e [-> Hc]%socket_emit_elem.
  by split.
Qed.

Lemma validation_error_sent_properly (st : state) (s ev : string)
    (d : option jsval) (m : string) :
  ev ∈ allowedEvents → validateEvent ev d = Invalid m →
  Forall (sent_properly st s) (socket_emit s (Error m) st).2.
Proof.
  intros Hev Hv. apply error_sent_properly.
  destruct (validate_error_texts ev d m Hev Hv) as [-> | ->];
    by apply includes_elem_of.
Qed.

Lemma start_share_sent_properly (s : string) (d : option payload)
    (st : state) :
  Forall (sent_properly st s) (on_start_share s d st).2.
Proof.
  unfold on_start_share. destruct (validateEvent _ _) eqn:Hv.
  - destruct (new_room_state (or_else (d ≫= p_roomId) s) s st)
      as (st1 & Hnew & Hs1 & _).
    rewrite !seq_run, Hnew. simpl.
    apply Forall_fmap, Forall_forall. intros t Ht%members_connected.
    simpl. rewrite !is_connected_alter in Ht by done.
    unfold is_connected, sock in *. simpl in Ht. by rewrite Hs1 in Ht.
  - eapply validation_error_sent_properly; [|exact Hv].
    by apply includes_elem_of.
Qed.

Lemma join_view_sent_properly (s : string) (d : option payload)
    (st : state) :
  Forall (sent_properly st s) (on_join_view s d st).2.
Proof.
  unfold on_join_view. destruct (validateEvent _ _) eqn:Hv.
  2:{ eapply validation_error_sent_properly; [|exact Hv].
      by apply includes_elem_of. }
  destruct (negb _);
    [apply error_sent_properly; by apply includes_elem_of|].
  destruct (rooms_get st _) as [|loc|];
    [apply error_sent_properly; by apply includes_elem_of|
    |by repeat constructor].
  rewrite !seq_run. cbn [fst snd update_room socket_join set_roomId
    set_isHost update_sock io_to_emit sockets rooms proto heap].
  rewrite !app_nil_l. apply Forall_app. split.
  - apply Forall_fmap, Forall_forall. intros t Ht%members_connected.
    simpl. rewrite !is_connected_alter in Ht by done. exact Ht.
  - apply Forall_forall. intros e [-> Hc]%socket_emit_elem.
    simpl. rewrite !is_connected_alter in Hc by done. exact Hc.
Qed.

Lemma stop_share_sent_properly (s : string) (st : state) :
  Forall (sent_properly st s) (on_stop_share s st).2.
Proof.
  unfold on_stop_share.
  destruct (sock_roomId st s) as [rid|]; [|constructor].
  destruct (_ && _); [|constructor].
  destruct (rooms_get st rid) as [|loc|]; [constructor| |].
  - rewrite !seq_run. cbn [fst snd io_to_emit delete_room].
    rewrite leave_all_run, !app_nil_r.
    apply Forall_fmap, Forall_forall. by intros t Ht%members_connected.
  - rewrite !seq_run. cbn [fst snd io_to_emit throw].
    apply Forall_app. split; [|by repeat constructor].
    apply Forall_fmap, Forall_forall. by intros t Ht%members_connected.
Qed.

Lemma signal_sent_properly (k : signal) (s : string) (d : option payload)
    (st : state) :
  Forall (sent_properly st s) (on_signal k s d st).2.
Proof.
  rewrite on_signal_unfold.
  destruct (relay_messages (signal_name k) (signal_emitted k)
              (signal_field k) (signal_invalid k) s d st)
    as (out & -> & Ho).
  eapply Forall_impl; [exact Ho|].
  intros e [(t & b & _ & Hc & ->)|(m & -> & Hc & Hm)]; [done|].
  split; [done|]. split; [|done].
  destruct Hm as [->|Hv].
  - destruct k; by apply includes_elem_of.
  - apply (validate_error_texts (signal_name k)) in Hv as [-> | ->];
      [by apply includes_elem_of..|].
    destruct k; by apply includes_elem_of.
Qed.

(** The disconnect handler again, now with a property of its messages
    that may lean on the state they are sent in. *)
Section disconnect_effects.
Variable I : state → Prop.
Variable P : effect → Prop.
Hypothesis I_close : ∀ v st, I st → I (close_socket v st).1.
Hypothesis I_delete : ∀ rid st, I st → I (delete_room rid st).1.
Hypothesis I_remove : ∀ s loc i st,
  I st → index_of s (viewers_of st loc) = Some i →
  I (update_room (λ r, mkRoom (host r) (delete i (viewers r))) loc st).1.
Hypothesis P_notice : ∀ st v,
  I st → is_connected st v = true → P (Deliver v HostDisconnected).
Hypothesis P_left : ∀ st v c,
  I st → is_connected st v = true → P (Deliver v (ViewerLeft c)).
Hypothesis P_closed : ∀ st v, I st → is_connected st v = true → P (Closed v).
Hypothesis P_thrown : P Thrown.

Lemma on_disconnect_sends (fuel : nat) (s : string)
    (st st' : state) (out : list effect) :
  I st → on_disconnect fuel s st = Some (st', out) →
  I st' ∧ Forall P out.
Proof.
  revert s st st' out.
  induction fuel as [|fuel IH]; intros s st st' out HI Hrun; [done|].
  simpl in Hrun.
  destruct (sock_roomId st s) as [rid|]; [|by injection Hrun as <- <-].
  destruct (String.eqb rid ""); [by injection Hrun as <- <-|].
  destruct (rooms_get st rid) as [|loc|];
    [by injection Hrun as <- <-| |];
    [|injection Hrun as <- <-; split; [done|by repeat constructor]].
  destruct (sock_isHost st s).
  - match type of Hrun with
    | match for_each ?cb _ _ _ _ with _ => _ end = _ =>
        destruct (for_each cb loc (length (viewers_of st loc)) 0 st)
          as [[st1 e1]|] eqn:Hloop; [|done];
        apply (for_each_preserves I P) in Hloop as [H1 H2];
          [|clear Hrun|done]
    end.
    + destruct (threw e1); injection Hrun as <- <-; [done|].
      split; [by apply (I_delete rid st1)|done].
    + intros v st0 st2 o HI0. unfold socket_emit, socket_disconnect.
      destruct (is_connected st0 v) eqn:Hc; cbn -[close_socket on_disconnect].
      * destruct (on_disconnect fuel v (close_socket v st0).1)
          as [[st3 e3]|] eqn:Hnest; [|done].
        intros [= <- <-].
        apply IH in Hnest as [H3 H4]; [|by apply (I_close v st0)].
        split; [done|]. constructor; [by apply (P_notice st0)|].
        constructor; [by apply (P_closed st0)|done].
      * intros [= <- <-]. split; [done|constructor].
  - destruct (index_of s (viewers_of st loc)) as [i|] eqn:Hi;
      [|by injection Hrun as <- <-].
    pose proof (I_remove s loc i st HI Hi) as HI'.
    rewrite seq_run in Hrun. injection Hrun as <- <-.
    cbn [update_room fst snd app] in *.
    destruct (alter _ loc (heap st) !! loc) as [r|]; [|by split].
    split; [done|]. apply Forall_forall.
    intros e [-> Hc]%socket_emit_elem. eapply P_left; [exact HI'|exact Hc].
Qed.
End disconnect_effects.

Lemma disconnect_sends (s : string) (st st' : state) (out : list effect) :
  disconnect s st = Some (st', out) →
  Forall (λ e, cleanup_effect e ∧ on_connected (close_socket s st).1 e) out.
Proof.
  unfold disconnect. set (c := (close_socket s st).1). intros Hrun.
  apply (on_disconnect_sends
           (λ st0, ∀ t, is_connected st0 t = true → is_connected c t = true)
           (λ e, cleanup_effect e ∧ on_connected c e)) in Hrun as [_ H];
    try done.
  - intros v st0 H0 t. rewrite is_connected_close.
    case_bool_decide; [done|apply H0].
  - intros st0 v H0 Hc. split; [done|]. by apply H0.
  - intros st0 v x H0 Hc. split; [done|]. by apply H0.
  - intros st0 v H0 Hc. split; [done|]. by apply H0.
Qed.

(** What the handler of any event sends: nothing for a connection;
    cleanup notices to, and closings of, sockets that were connected and
    are not the one that left, for a disconnect; proper messages
    otherwise. *)
Lemma handle_sends (ev : event) (st st' : state) (out : list effect) :
  handle ev st = Some (st', out) →
  match ev with
  | Connect _ => out = []
  | Disconnect s =>
      Forall (λ e, cleanup_effect e ∧ on_connected (close_socket s st).1 e) out
  | _ => Forall (sent_properly st (sender ev)) out
  end.
Proof.
  unfold handle. destruct (enabled st ev); [|done].
  destruct ev as [s|s|s d|s|s|s d|s d|s d|s d|s d]; cbn [dispatch sender];
    intros Hrun.
  - by injection Hrun as _ <-.
  - by apply disconnect_sends in Hrun.
  - pose proof (start_share_sent_properly s d st) as H.
    injection Hrun as Hrun. by rewrite Hrun in H.
  - pose proof (stop_share_sent_properly s st) as H.
    injection Hrun as Hrun. by rewrite Hrun in H.
  - injection Hrun as _ <-. apply Forall_forall.
    by intros e [-> Hc]%socket_emit_elem.
  - pose proof (join_view_sent_properly s d st) as H.
    injection Hrun as Hrun. by rewrite Hrun in H.
  - pose proof (signal_sent_properly SOffer s d st) as H.
    injection Hrun as Hrun. simpl in H. by rewrite Hrun in H.
  - pose proof (signal_sent_properly SAnswer s d st) as H.
    injection Hrun as Hrun. simpl in H. by rewrite Hrun in H.
  - pose proof (signal_sent_properly SIce s d st) as H.
    injection Hrun as Hrun. simpl in H. by rewrite Hrun in H.
  - pose proof (signal_sent_properly SIceCandidate s d st) as H.
    injection Hrun as Hrun. simpl in H. by rewrite Hrun in H.
Qed.

(** X7: an error, whatever event causes it, goes to the sender of that
    event and to nobody else, and its text is one of the seven texts of
    the handlers; Invalid event type is never sent, since every handler
    validates under its own, allowed, name. *)
Theorem errors_reach_sender_only (ev : event) (st st' : state)
    (out : list effect) (t m : string) :
  handle ev st = Some (st', out) →
  Deliver t (Error m) ∈ out →
  t = sender ev ∧ m ∈ handler_errors ∧ m ≠ "Invalid event type".
Proof.
  intros Hrun Hin. apply handle_sends in Hrun.
  assert (m ∈ handler_errors → m ≠ "Invalid event type") as Hne.
  { intros Hm ->. by apply includes_elem_of in Hm. }
  assert (Forall (sent_properly st (sender ev)) out →
          t = sender ev ∧ m ∈ handler_errors ∧ m ≠ "Invalid event type")
    as Hok.
  { intros H. rewrite Forall_forall in H.
    destruct (H _ Hin) as (? & ? & _). auto. }
  destruct ev; try (by apply Hok).
  - subst out. by apply elem_of_nil in Hin.
  - rewrite Forall_forall in Hrun. by destruct (Hrun _ Hin) as [[] _].
Qed.

Lemma errors_reach_sender_only_witness :
  "D" = sender (JoinView "D" None) ∧
  "Missing roomId" ∈ handler_errors ∧
  "Missing roomId" ≠ "Invalid event type".
Proof.
  apply (errors_reach_sender_only (JoinView "D" None) room_R room_R
           [Deliver "D" (Error "Missing roomId")]).
  - reflexivity.
  - apply list_elem_of_singleton. reflexivity.
Defined.

(** X8: every message an event causes goes to a socket that was
    connected when the event arrived, and every connection it closes was
    connected then.  Only a disconnect closes connections, and it neither
    closes nor writes to the socket that disconnected. *)
Theorem effects_reach_connected (ev : event) (st st' : state)
    (out : list effect) :
  handle ev st = Some (st', out) →
  Forall (on_connected st) out ∧
  (∀ v, Closed v ∈ out → ∃ s, ev = Disconnect s ∧ v ≠ s) ∧
  (∀ s t m, ev = Disconnect s → Deliver t m ∈ out → t ≠ s).
Proof.
  intros Hrun. apply handle_sends in Hrun.
  assert (Forall (sent_properly st (sender ev)) out →
          Forall (on_connected st) out ∧ ∀ v, Closed v ∉ out) as Hok.
  { intros H. split.
    - eapply Forall_impl; [exact H|]. intros [t []|t|] He; try done.
      by destruct He as (_ & _ & ?).
    - intros v Hin. rewrite Forall_forall in H. by apply H in Hin. }
  destruct ev as [s|s|s d|s|s|s d|s d|s d|s d|s d];
    try (destruct (Hok Hrun) as [H1 H2]; split; [done|];
         split; [intros v Hv; by destruct (H2 v)|by intros ??? [=]]).
  - subst out. split; [constructor|].
    split; [by intros v ?%elem_of_nil|by intros ??? [=]].
  - assert (∀ e, e ∈ out → on_connected st e ∧
              ∀ t, (∃ m, e = Deliver t m) ∨ e = Closed t → t ≠ s) as H.
    { intros e He. rewrite Forall_forall in Hrun.
      destruct (Hrun e He) as [_ Hc]. unfold on_connected in *.
      assert (∀ t, is_connected (close_socket s st).1 t = true →
                is_connected st t = true ∧ t ≠ s) as Hcl.
      { intros t. rewrite is_connected_close. by case_bool_decide. }
      destruct e as [t m|t|];
        [apply Hcl in Hc as [? ?]; (split; [done|]);
         intros t' [[m' [= <-]]|[= <-]]; done..|].
      split; [done|]. by intros t' [[m' [=]]|[=]]. }
    split; [apply Forall_forall; intros e He; by apply H|]. split.
    + intros v Hv. exists s. split; [done|].
      apply (proj2 (H _ Hv)). by right.
    + intros s' t m [= <-] Hin. apply (proj2 (H _ Hin)). left. by eexists.
Qed.

Lemma effects_reach_connected_witness :
  Forall (on_connected room_R) [Deliver "C" HostDisconnected; Closed "C"].
Proof.
  assert (∃ st', handle (Disconnect "A") room_R =
            Some (st', [Deliver "C" HostDisconnected; Closed "C"]))
    as [st' Hrun] by (eexists; vm_compute; reflexivity).
  apply (effects_reach_connected _ _ _ _ Hrun).
Defined.

(** ** What a disconnect leaves alone *)

Lemma only_shrunk_refl (st : state) : only_shrunk st st.
Proof.
  split; [done|]. split; [done|]. split; [done|].
  apply Forall2_same_length_lookup. split; [done|].
  intros i r r' Hr Hr'. by replace r' with r by congruence.
Qed.

Lemma only_shrunk_close (c : state) (v : string) (st : state) :
  only_shrunk c st → only_shrunk c (close_socket v st).1.
Proof.
  intros (Hs & Hr & Hp & Hh). split; [|done]. intros t.
  destruct (Hs t) as (H1 & H2 & H3).
  rewrite sock_roomId_close, is_connected_close.
  split; [done|]. split.
  - rewrite <- H2. unfold close_socket. rewrite sock_update.
    destruct (sock st t); [|done]. by case_bool_decide.
  - case_bool_decide; [done|exact H3].
Qed.

Lemma only_shrunk_delete (c : state) (rid : string) (st : state) :
  only_shrunk c st → only_shrunk c (delete_room rid st).1.
Proof.
  intros (Hs & Hr & Hp & Hh). split; [done|]. split; [|done].
  simpl. etrans; [apply delete_subseteq|done].
Qed.

Lemma only_shrunk_remove (c : state) (loc i : nat) (st : state) :
  only_shrunk c st →
  only_shrunk c
    (update_room (λ r, mkRoom (host r) (delete i (viewers r))) loc st).1.
Proof.
  intros (Hs & Hr & Hp & Hh). split; [done|]. split; [done|].
  split; [done|]. simpl. apply Forall2_alter_r; [done|].
  intros r r' _ _ [H1 H2]. split; [done|]. simpl.
  etrans; [apply sublist_delete|done].
Qed.

Lemma disconnect_shrinks (s : string) (st st' : state) (out : list effect) :
  disconnect s st = Some (st', out) → only_shrunk st st'.
Proof.
  unfold disconnect. intros Hrun.
  apply (on_disconnect_preserves (only_shrunk st)) in Hrun as [H _];
    [done| | | |].
  - intros v st0. apply only_shrunk_close.
  - intros rid st0. apply only_shrunk_delete.
  - intros s0 loc i st0 H0 _. by apply only_shrunk_remove.
  - apply only_shrunk_close, only_shrunk_refl.
Qed.

(** X9: a disconnect only takes away.  Every socket keeps its room id
    and its role, the sockets connected afterwards were connected before,
    the table gains no room and keeps its prototype, no room object
    changes host and no viewer list gains an entry or changes order. *)
Theorem disconnect_only_removes (s : string) (st st' : state)
    (out : list effect) :
  handle (Disconnect s) st = Some (st', out) → only_shrunk st st'.
Proof.
  unfold handle. destruct (enabled _ _); [|done]. cbn [dispatch].
  apply disconnect_shrinks.
Qed.

Lemma disconnect_only_removes_witness :
  ∃ st', handle (Disconnect "A") room_R =
           Some (st', [Deliver "C" HostDisconnected; Closed "C"]) ∧
         only_shrunk room_R st'.
Proof.
  assert (∃ st', handle (Disconnect "A") room_R =
            Some (st', [Deliver "C" HostDisconnected; Closed "C"]))
    as [st' Hrun] by (eexists; vm_compute; reflexivity).
  exists st'. split; [exact Hrun|].
  exact (disconnect_only_removes _ _ _ _ Hrun).
Defined.

(** ** Roles are kept *)

Lemma assigned_alter (f : socket → socket) (s t : string)
    (m : gmap string socket) (r r' : gmap string nat) (p p' : option nat)
    (h h' : list room) :
  (∀ k, is_Some (roomId k) → is_Some (roomId (f k))) →
  (∀ k, is_Some (isHost k) → is_Some (isHost (f k))) →
  assigned (mkState m r p h) t → assigned (mkState (alter f s m) r' p' h') t.
Proof.
  intros Hr Hh. unfold assigned, sock_roomId, sock. simpl.
  rewrite lookup_alter. case_decide; [subst|done].
  destruct (m !! t) as [k|]; simpl; [|done]. intros [? ?]. auto.
Qed.

Lemma assigned_sockets (st st' : state) (t : string) :
  sockets st' = sockets st → assigned st t → assigned st' t.
Proof. unfold assigned, sock_roomId, sock. by intros ->. Qed.

Lemma stop_share_sockets (s t : string) (st : state) :
  sock_roomId (on_stop_share s st).1 t = sock_roomId st t ∧
  sock (on_stop_share s st).1 t ≫= isHost = sock st t ≫= isHost ∧
  is_connected (on_stop_share s st).1 t = is_connected st t.
Proof.
  unfold on_stop_share.
  destruct (sock_roomId st s) as [rid|]; [|done].
  destruct (_ && _); [|done].
  destruct (rooms_get st rid) as [|loc|]; [done| |done].
  rewrite !seq_run. cbn [fst io_to_emit delete_room].
  destruct (leave_all_state (viewers_of st loc) rid st)
    as (_ & _ & _ & Hs).
  specialize (Hs t). unfold sock_roomId, is_connected, sock in *.
  simpl in *. rewrite Hs. destruct (sockets st !! t); [|done]. simpl.
  by case_bool_decide.
Qed.

(** X10: a socket that has a room id and a role keeps having both,
    whatever event comes next: no handler sets [roomId] or [isHost] back
    to undefined, not even stop-share or the socket's own disconnect. *)
Theorem assignment_is_kept (ev : event) (st st' : state)
    (out : list effect) (t : string) :
  handle ev st = Some (st', out) → assigned st t → assigned st' t.
Proof.
  unfold handle. destruct (enabled st ev) eqn:Hen; [|done].
  intros Hrun Ht.
  assert (∀ c : cmd, c st = (st', out) → (c st).1 = st') as Hfst
    by (by intros c ->).
  destruct ev as [s|s|s d|s|s|s d|s d|s d|s d|s d]; cbn [dispatch] in Hrun.
  - injection Hrun as <- _. unfold assigned, sock_roomId, sock in *.
    simpl in *. apply andb_true_iff in Hen as [_ Hf%bool_decide_eq_true].
    unfold sock in Hf. rewrite lookup_insert_ne; [done|].
    intros <-. rewrite Hf in Ht. by destruct Ht as [[? [=]] _].
  - apply disconnect_shrinks in Hrun as [Hs _].
    destruct (Hs t) as (H1 & H2 & _). unfold assigned. by rewrite H1, H2.
  - injection Hrun as Hrun%Hfst. subst st'. unfold on_start_share.
    destruct (validateEvent _ _).
    + destruct (new_room_state (or_else (d ≫= p_roomId) s) s st)
        as (st1 & Hnew & Hs1 & _).
      rewrite !seq_run, Hnew. simpl. destruct st1 as [m1 r1 p1 h1].
      do 3 (apply (assigned_alter _ _ _ _ r1 _ p1 _ h1); [by eauto..|]).
      by eapply assigned_sockets; [|exact Ht].
    + by eapply assigned_sockets; [|exact Ht].
  - injection Hrun as Hrun%Hfst. subst st'.
    destruct (stop_share_sockets s t st) as (H1 & H2 & _).
    unfold assigned. by rewrite H1, H2.
  - by injection Hrun as <- _.
  - injection Hrun as Hrun%Hfst. subst st'. unfold on_join_view.
    destruct (validateEvent _ _); [|by eapply assigned_sockets; [|exact Ht]].
    destruct (negb _); [by eapply assigned_sockets; [|exact Ht]|].
    destruct (rooms_get st _);
      [by eapply assigned_sockets; [|exact Ht]|
      |by eapply assigned_sockets; [|exact Ht]].
    rewrite !seq_run. simpl. destruct st as [m r p h].
    do 3 (apply (assigned_alter _ _ _ _ r _ p _ h); [by eauto..|]). exact Ht.
  - injection Hrun as Hrun. unfold on_offer in Hrun.
    destruct (relay_keeps_state "offer" "offer" p_offer
                "Invalid offer payload" s d st) as (o & Ho & _).
    rewrite Ho in Hrun. by injection Hrun as <- _.
  - injection Hrun as Hrun. unfold on_answer in Hrun.
    destruct (relay_keeps_state "answer" "answer" p_answer
                "Invalid answer payload" s d st) as (o & Ho & _).
    rewrite Ho in Hrun. by injection Hrun as <- _.
  - injection Hrun as Hrun. unfold on_ice in Hrun.
    destruct (relay_keeps_state "ice" "ice" p_candidate
                "Invalid ICE payload" s d st) as (o & Ho & _).
    rewrite Ho in Hrun. by injection Hrun as <- _.
  - injection Hrun as Hrun. unfold on_ice_candidate in Hrun.
    destruct (relay_keeps_state "ice-candidate" "ice" p_candidate
                "Invalid ICE payload" s d st) as (o & Ho & _).
    rewrite Ho in Hrun. by injection Hrun as <- _.
Qed.

Lemma assignment_is_kept_witness :
  ∃ st' out, handle (StopShare "A") room_R = Some (st', out) ∧
             rooms st' !! "R" = None ∧ assigned st' "A".
Proof.
  assert (∃ st' out, handle (StopShare "A") room_R = Some (st', out) ∧
                     rooms st' !! "R" = None) as (st' & out & Hrun & Hr).
  { eexists _, _. split; vm_compute; reflexivity. }
  exists st', out. split; [exact Hrun|]. split; [exact Hr|].
  apply (assignment_is_kept _ _ _ _ "A" Hrun).
  split; by eexists.
Defined.

(** ** More on disconnect *)

(** X11: the disconnect of a connected socket always comes to an end,
    however its handler and the handlers of the viewers it closes nest,
    and it leaves fewer sockets connected than before. *)
Theorem disconnect_cascade_ends (s : string) (st : state) :
  is_connected st s = true →
  ∃ st' out, handle (Disconnect s) st = Some (st', out) ∧
             live st' < live st.
Proof.
  intros Hc. unfold handle. cbn [enabled sender dispatch]. rewrite Hc.
  unfold disconnect.
  pose proof (live_close s st Hc) as Hclose.
  destruct (on_disconnect_total (S (size (sockets st))) s (close_socket s st).1)
    as (st' & out & -> & Hle).
  - assert (live st ≤ size (sockets st)); [|lia].
    apply map_subseteq_size, map_filter_subseteq.
  - exists st', out. split; [done|]. lia.
Qed.

Lemma disconnect_cascade_ends_witness :
  ∃ st' out, handle (Disconnect "A") room_R = Some (st', out) ∧
             live st' < live room_R.
Proof. apply (disconnect_cascade_ends "A" room_R). reflexivity. Defined.

(** X12: when the socket that disconnects has no room id (or the empty
    one), or [rooms] gives nothing for its room id, the handler does
    nothing: the socket is closed, nothing is sent and no room or other
    socket is touched. *)
Theorem disconnect_without_room (s : string) (st : state) :
  is_connected st s = true →
  (∀ rid, sock_roomId st s = Some rid →
          rid = "" ∨ rooms_get st rid = Undefined) →
  handle (Disconnect s) st = Some ((close_socket s st).1, []).
Proof.
  intros Hc Hno. unfold handle. cbn [enabled sender dispatch]. rewrite Hc.
  unfold disconnect. cbn [on_disconnect]. rewrite sock_roomId_close.
  destruct (sock_roomId st s) as [rid|]; [|done].
  destruct (Hno rid eq_refl) as [->|Hu]; [done|].
  destruct (String.eqb rid ""); [done|].
  change (rooms_get (close_socket s st).1 rid) with (rooms_get st rid).
  by rewrite Hu.
Qed.

Lemma disconnect_without_room_witness :
  handle (Disconnect "D") room_R = Some ((close_socket "D" room_R).1, []).
Proof. apply disconnect_without_room; [reflexivity|]. intros rid [=]. Defined.

Lemma disconnect_total_aux (s : string) (st : state) :
  is_connected st s = true →
  ∃ st' out, handle (Disconnect s) st = Some (st', out).
Proof.
  intros Hc. apply handle_total. exact Hc.
Qed.

(** X13: when a socket marked as host disconnects and the table has a
    room under its room id, that key is out of the table afterwards,
    unless the disconnect handler of a viewer threw (the error ends the
    host's handler before it deletes); and the first socket of the viewer
    list, when it is another, connected socket, gets host-disconnected
    first and is closed next. *)
Theorem host_disconnect_deletes_room (s rid : string) (loc : nat)
    (st : state) :
  is_connected st s = true →
  sock_roomId st s = Some rid → rid ≠ "" → sock_isHost st s = true →
  rooms st !! rid = Some loc →
  ∃ st' out, handle (Disconnect s) st = Some (st', out) ∧
    (threw out = false → rooms st' !! rid = None) ∧
    ∀ v, viewers_of st loc !! 0 = Some v → v ≠ s →
         is_connected st v = true →
         ∃ rest, out = Deliver v HostDisconnected :: Closed v :: rest.
Proof.
  intros Hc Hrid Hne Hhost Hloc.
  destruct (disconnect_total_aux s st Hc) as (st' & out & Hrun).
  exists st', out. split; [exact Hrun|].
  unfold handle in Hrun. cbn [enabled sender dispatch] in Hrun.
  rewrite Hc in Hrun. unfold disconnect in Hrun.
  assert (sock_roomId (close_socket s st).1 s = Some rid) as H1
    by (by rewrite sock_roomId_close).
  assert (sock_isHost (close_socket s st).1 s = true) as H2
    by (by rewrite sock_isHost_close).
  assert (rooms_get (close_socket s st).1 rid = RoomAt loc) as H3
    by (by apply rooms_get_own).
  assert (viewers_of (close_socket s st).1 loc = viewers_of st loc) as H4
    by done.
  assert (∀ v, v ≠ s → is_connected st v = true →
            is_connected (close_socket s st).1 v = true) as H5.
  { intros v Hv Hvc. by rewrite is_connected_close, bool_decide_false. }
  remember (close_socket s st).1 as c eqn:Heqc. clear Heqc.
  cbn [on_disconnect] in Hrun. rewrite H1, H2, H3 in Hrun.
  destruct (String.eqb_spec rid ""); [done|].
  match type of Hrun with
  | match for_each ?cb ?l ?n 0 ?c with _ => _ end = _ =>
      destruct (for_each cb l n 0 c) as [[st1 e1]|] eqn:Hloop; [|done]
  end.
  assert (out = e1 ∧ (threw out = false → rooms st' !! rid = None))
    as [-> Hdel].
  { destruct (threw e1) eqn:Hth; injection Hrun as <- <-.
    - split; [done|]. congruence.
    - split; [done|]. intros _. apply lookup_delete_eq. }
  split; [exact Hdel|].
  intros v Hv Hvs Hvc. rewrite <- H4 in Hv.
  destruct (viewers_of c loc) as [|v0 vs] eqn:Hvs0; [done|].
  injection Hv as ->. cbn [length for_each] in Hloop.
  rewrite Hvs0 in Hloop. cbn [lookup list_lookup] in Hloop.
  unfold socket_emit, socket_disconnect in Hloop.
  rewrite (H5 v Hvs Hvc) in Hloop.
  cbn -[close_socket on_disconnect for_each threw] in Hloop.
  destruct (on_disconnect _ v _) as [[st3 e3]|]; [|done].
  cbn -[close_socket on_disconnect for_each threw] in Hloop.
  destruct (threw _); [injection Hloop as _ <-; by eexists|].
  destruct (for_each _ _ _ _ st3) as [[st4 e4]|]; [|done].
  injection Hloop as _ <-. by eexists.
Qed.

Lemma host_disconnect_deletes_room_witness :
  ∃ st' out, handle (Disconnect "A") room_R = Some (st', out) ∧
    rooms st' !! "R" = None ∧
    ∃ rest, out = Deliver "C" HostDisconnected :: Closed "C" :: rest.
Proof.
  destruct (host_disconnect_deletes_room "A" "R" 0 room_R)
    as (st' & out & Hrun & Hr & Hfirst);
    [reflexivity|reflexivity|done|reflexivity|reflexivity|].
  exists st', out. split; [exact Hrun|]. split.
  - apply Hr. vm_compute in Hrun. by injection Hrun as _ <-.
  - apply (Hfirst "C"); [reflexivity|done|reflexivity].
Defined.

(** ** Sharing, stopping and the room count *)

Lemma plain_key_same (st st' : state) (k : string) :
  proto st' = proto st → plain_key st k → plain_key st' k.
Proof. intros Hp (? & ? & ?). repeat split; try done. by rewrite Hp. Qed.

(** The state after the stop-share of a recognized host. *)
Lemma stop_share_state (s rid : string) (st : state) :
  recognized_host st s rid →
  let st' := (on_stop_share s st).1 in
  rooms st' = delete rid (rooms st) ∧ proto st' = proto st ∧
  heap st' = heap st ∧
  ∀ t, sock_roomId st' t = sock_roomId st t ∧
       sock_isHost st' t = sock_isHost st t ∧
       is_connected st' t = is_connected st t.
Proof.
  intros (Hrid & Hne & [loc Hloc] & Hhost).
  rewrite (stop_share_recognized s st rid loc) by done. cbn [fst].
  destruct (leave_all_state (viewers_of st loc) rid st)
    as (Hr & Hp & Hh & Hs).
  cbn [delete_room fst rooms proto heap].
  rewrite Hr, Hp, Hh. repeat split; try done;
    unfold sock_roomId, sock_isHost, is_connected;
    change (sock (mkState (sockets (leave_all (viewers_of st loc) rid st).1)
                    (delete rid (rooms st)) (proto st) (heap st)) t)
      with (sock (leave_all (viewers_of st loc) rid st).1 t);
    rewrite Hs; (destruct (sock st t); [|done]); simpl;
    by case_bool_decide.
Qed.

(** X14: stop-share is idempotent for a socket whose room id is a key
    under which [rooms] inherits nothing: sent a second time it changes
    nothing and sends nothing, because the first one deleted the key
    while the socket kept its room id and host mark. *)
Theorem stop_share_twice (s : string) (st : state) :
  (∀ rid, sock_roomId st s = Some rid → plain_key st rid) →
  on_stop_share s (on_stop_share s st).1 = ((on_stop_share s st).1, []).
Proof.
  intros Hplain.
  destruct (sock_roomId st s) as [rid|] eqn:Hrid.
  2:{ assert (on_stop_share s st = (st, [])) as Hnone
        by (unfold on_stop_share; by rewrite Hrid).
      by rewrite !Hnone. }
  specialize (Hplain rid eq_refl).
  pose proof (rooms_get_plain st rid Hplain) as Hget.
  destruct (decide (rid ≠ "" ∧ sock_isHost st s = true
                    ∧ is_Some (rooms st !! rid)))
    as [(Hne & Hhost & [loc Hloc])|Hno].
  - rewrite Hloc in Hget.
    destruct (stop_share_state s rid st) as (Hr & Hp & _ & Hs).
    { split; [done|]. split; [done|]. split; [by exists loc|done]. }
    apply stop_share_unrecognized. intros rid'.
    destruct (Hs s) as (-> & _). rewrite Hrid. intros [= <-].
    right. left.
    rewrite (rooms_get_plain _ rid) by (by eapply plain_key_same).
    by rewrite Hr, lookup_delete_eq.
  - assert (on_stop_share s st = (st, [])) as Hnone.
    { apply stop_share_unrecognized. intros rid'. rewrite Hrid.
      intros [= <-]. destruct (String.eqb_spec rid ""); [by left|].
      destruct (sock_isHost st s) eqn:Hh; [|by right; right].
      right. left. rewrite Hget.
      destruct (rooms st !! rid) as [loc|] eqn:Hloc; [|done].
      destruct Hno. split; [done|]. split; [done|]. by exists loc. }
    by rewrite !Hnone.
Qed.

Lemma stop_share_twice_witness :
  on_stop_share "A" (on_stop_share "A" room_R).1 =
    ((on_stop_share "A" room_R).1, []).
Proof.
  apply (stop_share_twice "A" room_R). intros rid [= <-].
  split; [done|]. split; [by apply includes_false|]. by intros [? [=]].
Defined.

(** The state after a start-share that passes validation. *)
Lemma start_share_state (s : string) (d : option payload) (st : state) :
  validateEvent "start-share" (to_js <$> d) = Valid →
  is_connected st s = true →
  let rid := or_else (d ≫= p_roomId) s in
  let st' := (on_start_share s d st).1 in
  rooms st' = rooms (new_room rid s st).1 ∧
  proto st' = proto (new_room rid s st).1 ∧
  heap st' = heap st ++ [mkRoom s []] ∧
  rooms_get st' rid = RoomAt (length (heap st)) ∧
  sock_roomId st' s = Some rid ∧ sock_isHost st' s = true ∧
  ∀ t, is_connected st' t = is_connected st t.
Proof.
  intros Hv Hc. unfold on_start_share. rewrite Hv.
  destruct (new_room_state (or_else (d ≫= p_roomId) s) s st)
    as (st1 & Hnew & Hs1 & Hh1 & Hget & _).
  rewrite !seq_run, Hnew.
  unfold is_connected, sock in Hc.
  destruct (sockets st !! s) as [k|] eqn:Hk; [|done].
  cbn. split; [done|]. split; [done|]. split; [done|]. split; [done|].
  unfold sock_roomId, sock_isHost, is_connected, sock. cbn.
  rewrite !lookup_alter_eq, Hs1, Hk. split; [done|]. split; [done|].
  intros t. destruct (decide (t = s)) as [->|Hts].
  - by rewrite !lookup_alter_eq, Hk.
  - by rewrite !lookup_alter_ne.
Qed.

(** X15: a start-share that passes validation leaves the number of rooms
    as it is when the table has a room of that id (the room is replaced)
    and adds one when the id is new, but for [__proto__]: that room
    becomes the prototype of [rooms], is no key of the table and is not
    counted.  The health endpoint and get-available both report that
    number. *)
Theorem start_share_room_count (s : string) (d : option payload)
    (st : state) :
  validateEvent "start-share" (to_js <$> d) = Valid →
  is_connected st s = true →
  let rid := or_else (d ≫= p_roomId) s in
  let st' := (on_start_share s d st).1 in
  let n := match rooms st !! rid with
           | Some _ => size (rooms st)
           | None => if String.eqb rid "__proto__" then size (rooms st)
                     else S (size (rooms st))
           end in
  health st' = ("ok", n) ∧
  ∀ t, is_connected st' t = true →
       on_get_available t st' = (st', [Deliver t (AvailableCount n)]).
Proof.
  intros Hv Hc.
  destruct (start_share_state s d st Hv Hc) as (Hrooms & _).
  cbv zeta in *. set (rid := or_else (d ≫= p_roomId) s) in *.
  assert (size (rooms (on_start_share s d st).1) =
          match rooms st !! rid with
          | Some _ => size (rooms st)
          | None => if String.eqb rid "__proto__" then size (rooms st)
                    else S (size (rooms st))
          end) as Hn.
  { rewrite Hrooms. unfold new_room.
    destruct (rooms st !! rid) as [loc|] eqn:Hloc.
    - rewrite bool_decide_false, andb_false_r by done. cbn.
      by rewrite map_size_insert, Hloc.
    - rewrite bool_decide_true by done.
      destruct (String.eqb rid "__proto__"); cbn; [done|].
      by rewrite map_size_insert, Hloc. }
  split.
  - unfold health. by rewrite Hn.
  - intros t Ht. unfold on_get_available, socket_emit. by rewrite Ht, Hn.
Qed.

Lemma start_share_room_count_witness :
  health (on_start_share "D" (with_room "R") room_R).1 = ("ok", 1) ∧
  health (on_start_share "D" (with_room "S") room_R).1 = ("ok", 2) ∧
  health (on_start_share "D" (with_room "__proto__") room_R).1 = ("ok", 1).
Proof.
  split; [|split].
  - apply (start_share_room_count "D" (with_room "R") room_R);
      reflexivity.
  - apply (start_share_room_count "D" (with_room "S") room_R);
      reflexivity.
  - apply (start_share_room_count "D" (with_room "__proto__") room_R);
      reflexivity.
Defined.

(** X16: after the stop-share of a recognized host whose room id is a
    key under which [rooms] inherits nothing, a join-view for that room
    id (one that passes validation) is answered with Room not found and
    changes nothing: the room is gone for newcomers at once. *)
Theorem join_after_stop_share (s c rid : string) (d : option payload)
    (st : state) :
  recognized_host st s rid → plain_key st rid →
  is_connected st c = true →
  validateEvent "join-view" (to_js <$> d) = Valid →
  d ≫= p_roomId = Some rid →
  on_join_view c d (on_stop_share s st).1 =
    ((on_stop_share s st).1, [Deliver c (Error "Room not found")]).
Proof.
  intros Hrec Hplain Hc Hv Hd.
  destruct (stop_share_state s rid st Hrec) as (Hr & Hp & _ & Hs).
  destruct Hrec as (_ & Hne & _).
  destruct (Hs c) as (_ & _ & Hconn).
  unfold on_join_view. rewrite Hv, Hd. simpl.
  destruct (String.eqb_spec rid ""); [done|]. simpl.
  rewrite (rooms_get_plain _ rid) by (by eapply plain_key_same).
  rewrite Hr, lookup_delete_eq. unfold socket_emit.
  by rewrite Hconn, Hc.
Qed.

Lemma join_after_stop_share_witness :
  on_join_view "D" (with_room "R") (on_stop_share "A" room_R).1 =
    ((on_stop_share "A" room_R).1, [Deliver "D" (Error "Room not found")]).
Proof.
  apply (join_after_stop_share "A" "D" "R"); try reflexivity.
  - split; [reflexivity|]. split; [done|]. split; [by eexists|reflexivity].
  - split; [done|]. split; [by apply includes_false|]. by intros [? [=]].
Defined.

(** X17: a join-view that passes validation but carries no room id, or
    the empty string as room id, is answered with Missing roomId whatever
    rooms exist, and changes nothing. *)
Theorem join_view_missing_room_id (s : string) (d : option payload)
    (st : state) :
  validateEvent "join-view" (to_js <$> d) = Valid →
  is_connected st s = true →
  d ≫= p_roomId = None ∨ d ≫= p_roomId = Some "" →
  on_join_view s d st = (st, [Deliver s (Error "Missing roomId")]).
Proof.
  intros Hv Hc Hd. unfold on_join_view, socket_emit. rewrite Hv, Hc.
  by destruct Hd as [-> | ->].
Qed.

Lemma join_view_missing_room_id_witness :
  on_join_view "D" None room_R =
    (room_R, [Deliver "D" (Error "Missing roomId")]) ∧
  on_join_view "D" (with_room "") room_R =
    (room_R, [Deliver "D" (Error "Missing roomId")]).
Proof.
  split.
  - apply join_view_missing_room_id; [reflexivity|reflexivity|by left].
  - apply join_view_missing_room_id; [reflexivity|reflexivity|by right].
Defined.

(** X18: a start-share that passes validation followed by a stop-share
    of the same socket leaves the table without the key of the room id
    used, also when the start-share had replaced a room of another host;
    when the id was new, the table is what it was before the two events.
    For a room id under which [rooms] inherits nothing, [rooms] then
    gives nothing for it; for [__proto__] the room was never a key: it
    stays the prototype of [rooms], where a join-view still finds it. *)
Theorem share_then_stop (s : string) (d : option payload) (st : state) :
  validateEvent "start-share" (to_js <$> d) = Valid →
  is_connected st s = true → s ≠ "" →
  let rid := or_else (d ≫= p_roomId) s in
  let st' := (on_stop_share s (on_start_share s d st).1).1 in
  rooms st' = delete rid (rooms st) ∧
  (rooms st !! rid = None → rooms st' = rooms st) ∧
  (plain_key st rid → proto st' = proto st ∧ rooms_get st' rid = Undefined) ∧
  (rid = "__proto__" → rooms st !! rid = None →
     room_of st' rid = Some (mkRoom s [])).
Proof.
  intros Hv Hc Hs.
  destruct (start_share_state s d st Hv Hc)
    as (Hrooms & Hproto & Hheap & Hget & Hrid & Hhost & _).
  cbv zeta in *. set (rid := or_else (d ≫= p_roomId) s) in *.
  set (st1 := (on_start_share s d st).1) in *.
  assert (rid ≠ "") as Hne.
  { unfold rid, or_else. destruct (d ≫= p_roomId) as [r|]; [|done].
    by destruct (String.eqb_spec r ""). }
  destruct (stop_share_state s rid st1) as (Hr & Hp & Hh & _).
  { split; [done|]. split; [done|]. split; [by eexists|done]. }
  destruct (new_room_state rid s st)
    as (st0 & Hnew & _ & _ & _ & _ & Hkey & Hpr).
  rewrite Hnew in Hrooms, Hproto. cbn [fst] in Hrooms, Hproto.
  assert (rooms (on_stop_share s st1).1 = delete rid (rooms st)) as Hdel.
  { rewrite Hr, Hrooms.
    destruct (decide (rid = "__proto__")) as [Heq|Hnp].
    - destruct (rooms st !! rid) as [loc|] eqn:Hloc.
      + revert Hnew. unfold new_room. rewrite Hloc.
        rewrite bool_decide_false, andb_false_r by done.
        intros [= <-]. cbn. by rewrite delete_insert_eq.
      + destruct (Hpr Heq eq_refl) as [-> _]. done.
    - destruct (Hkey Hnp) as [-> _]. by rewrite delete_insert_eq. }
  split; [done|]. split; [|split].
  - intros Hnew'. rewrite Hdel. by apply delete_id.
  - intros Hplain. pose proof Hplain as (Hnp & _).
    destruct (Hkey Hnp) as [_ Hp0].
    assert (proto (on_stop_share s st1).1 = proto st) as Hp1 by congruence.
    split; [done|].
    rewrite (rooms_get_plain _ rid) by (by eapply plain_key_same).
    by rewrite Hdel, lookup_delete_eq.
  - intros Heq Hnone. destruct (Hpr Heq Hnone) as [_ Hp0].
    unfold room_of, rooms_get.
    rewrite Hdel, lookup_delete_eq, Heq. cbn.
    rewrite Hp, Hproto, Hp0, Hh, Hheap.
    by rewrite lookup_app_r, Nat.sub_diag.
Qed.

Lemma share_then_stop_witness :
  rooms (on_stop_share "D" (on_start_share "D" (with_room "R") room_R).1).1
    = delete "R" (rooms room_R) ∧
  rooms (on_stop_share "D" (on_start_share "D" (with_room "S") room_R).1).1
    = rooms room_R ∧
  room_of (on_stop_share "D"
             (on_start_share "D" (with_room "__proto__") room_R).1).1
          "__proto__" = Some (mkRoom "D" []).
Proof.
  split; [|split].
  - apply (share_then_stop "D" (with_room "R") room_R);
      [reflexivity|reflexivity|done].
  - apply (share_then_stop "D" (with_room "S") room_R);
      [reflexivity|reflexivity|done|reflexivity].
  - apply (share_then_stop "D" (with_room "__proto__") room_R);
      [reflexivity|reflexivity|done|reflexivity|reflexivity].
Defined.

(** ** More on the earlier copy *)

Lemma server_js_allowed (ev : string) :
  ev ∈ ServerJs.allowedEvents → ev ∈ allowedEvents.
Proof.
  unfold ServerJs.allowedEvents, allowedEvents. intros H.
  repeat (apply elem_of_cons in H as [->|H];
          [by apply includes_elem_of|]).
  by apply elem_of_nil in H.
Qed.

Lemma server_js_validate_Some (ev : string) (d : jsval) (text : string) :
  ev ∈ ServerJs.allowedEvents → JSON_stringify d = Some text →
  ServerJs.validateEvent ev (Some d) = Some (validateEvent ev (Some d)).
Proof.
  intros Hev Hs. pose proof (server_js_allowed ev Hev) as Hev'.
  apply includes_elem_of in Hev, Hev'.
  unfold ServerJs.validateEvent, validateEvent. rewrite Hev, Hev'.
  simpl. rewrite Hs. destruct d; try done.
  injection Hs as <-. done.
Qed.

Lemma server_js_validate_None (ev : string) (d : jsval) :
  ev ∈ ServerJs.allowedEvents → JSON_stringify d = None →
  ServerJs.validateEvent ev (Some d) = None.
Proof.
  intros Hev%includes_elem_of Hs. unfold ServerJs.validateEvent.
  rewrite Hev. simpl. by rewrite Hs.
Qed.

(** X19: on the five events of [server.js] and on every payload that
    can be serialized, the earlier [validateEvent] returns what the
    current one returns. *)
Theorem server_js_validate_agrees (ev : string) (d : jsval) :
  ev ∈ ServerJs.allowedEvents → bigint_free d = true →
  ServerJs.validateEvent ev (Some d) = Some (validateEvent ev (Some d)).
Proof.
  intros Hev [text Hs]%stringify_bigint_free.
  by eapply server_js_validate_Some.
Qed.

Lemma server_js_validate_agrees_witness :
  ServerJs.validateEvent "offer" (Some (euro_offer 3)) = Some Valid.
Proof.
  rewrite (server_js_validate_agrees "offer" (euro_offer 3));
    [reflexivity| |reflexivity].
  by apply includes_elem_of.
Defined.


(** X21: in [server.js] a signaling event that passes validation and
    names a target is written to that target whenever it is connected,
    in whatever room either socket is, and even without a body; nothing
    else is sent and the state is unchanged. *)
Theorem server_js_relay_any_room (ev : string)
    (field : payload → option jsval) (s t : string)
    (data : option payload) (st : state) :
  ServerJs.validateEvent ev (to_js <$> data) = Some Valid →
  data ≫= p_targetId = Some t →
  ServerJs.relay ev field s data st =
    Some (st, if is_connected st t
              then [Deliver t (Signal ev (data ≫= field) s)] else []).
Proof.
  intros Hv Ht. unfold ServerJs.relay. rewrite Hv, Ht.
  unfold get_socket, socket_emit, is_connected.
  destruct (sock st t) as [k|]; [|done]. by destruct (connected k).
Qed.

Lemma server_js_relay_any_room_witness :
  ServerJs.on_offer "A" (Some (mkPayload None (Some "D") None None None))
    room_R = Some (room_R, [Deliver "D" (Signal "offer" None "A")]).
Proof.
  apply (server_js_relay_any_room "offer" p_offer "A" "D"); reflexivity.
Defined.

(** X22: in [server.js] a start-share that passes validation changes
    the state exactly as the current handler does (same room, same room
    id and host mark on the sender), and tells the sender alone, with
    share-started. *)
Theorem server_js_start_share_state (s : string) (d : option payload)
    (st : state) :
  ServerJs.validateEvent "start-share" (to_js <$> d) = Some Valid →
  is_connected st s = true →
  ServerJs.on_start_share s d st =
    Some ((on_start_share s d st).1,
          [Deliver s (ShareStarted (or_else (d ≫= p_roomId) s))]).
Proof.
  intros Hv Hc. unfold ServerJs.on_start_share. rewrite Hv.
  assert (validateEvent "start-share" (to_js <$> d) = Valid) as Hv'.
  { destruct d as [p|]; [|done]. simpl in *.
    destruct (JSON_stringify (to_js p)) as [text|] eqn:Hs.
    - rewrite (server_js_validate_Some _ _ text) in Hv;
        [by injection Hv|by apply includes_elem_of|done].
    - rewrite server_js_validate_None in Hv;
        [done|by apply includes_elem_of|done]. }
  unfold on_start_share. rewrite Hv'.
  destruct (new_room_state (or_else (d ≫= p_roomId) s) s st)
    as (st1 & Hnew & Hs1 & _).
  rewrite !seq_run, Hnew.
  f_equal. f_equal. simpl. unfold socket_emit. simpl.
  rewrite !is_connected_alter by done.
  unfold is_connected, sock in *. simpl. by rewrite Hs1, Hc.
Qed.

Lemma server_js_start_share_state_witness :
  ServerJs.on_start_share "D" (with_room "S") room_R =
    Some ((on_start_share "D" (with_room "S") room_R).1,
          [Deliver "D" (ShareStarted "S")]).
Proof.
  apply (server_js_start_share_state "D" (with_room "S") room_R);
    reflexivity.
Defined.

(** ** Joining and hearing *)

Lemma join_view_membership (c rid : string) (d : option payload)
    (st : state) (h : string) (loc : nat) (kc : socket) :
  validateEvent "join-view" (to_js <$> d) = Valid →
  d ≫= p_roomId = Some rid → rid ≠ "" →
  rooms_get st rid = RoomAt loc →
  sock st c = Some kc → connected kc = true → h ≠ c →
  sock (on_join_view c d st).1 c =
    Some (mkSocket (Some rid) (Some false) true ({[rid]} ∪ joined kc)) ∧
  sock_roomId (on_join_view c d st).1 h = sock_roomId st h.
Proof.
  intros Hv Hd Hne Hloc Hk Hc Hh. unfold on_join_view.
  rewrite Hv, Hd. simpl. destruct (String.eqb_spec rid ""); [done|].
  simpl. rewrite Hloc, !seq_run. simpl.
  unfold sock in Hk. split.
  - unfold sock. simpl. rewrite !lookup_alter_eq, Hk. simpl.
    by rewrite Hc.
  - unfold sock_roomId, sock. simpl. by rewrite !lookup_alter_ne.
Qed.

Lemma broadcast_out (k : signal) (s rid : string) (b : jsval)
    (data : option payload) (st : state) :
  validateEvent (signal_name k) (to_js <$> data) = Valid →
  truthy_str (data ≫= p_targetId) = false →
  data ≫= signal_field k = Some b → truthy b = true →
  sock_roomId st s = Some rid → rid ≠ "" →
  (on_signal k s data st).2 =
    (λ t, Deliver t (Signal (signal_emitted k) (Some b) s)) <$>
      filter (λ t, t ∉ members st s) (members st rid).
Proof.
  intros Hv Ht Hb Htr Hrid Hne. rewrite on_signal_unfold. unfold relay.
  rewrite Hv, Ht, Hb, Hrid. cbn [negb orb truthy_opt truthy_str].
  destruct (String.eqb_spec rid ""); [done|]. by rewrite Htr.
Qed.

(** X23: joining makes a viewer hear the room.  After a join-view of the
    connected socket [c] for a room [rid] that [rooms] gives, a signaling
    event without a target from another socket [h] whose room id is [rid]
    reaches [c], with the body sent and the id of [h], provided [c] is
    not in the Socket.IO room named by the id of [h]: [rid] is not that
    id, and [c] had not joined it before. *)
Theorem joined_viewer_hears_broadcast (k : signal) (c h rid : string)
    (b : jsval) (d data : option payload) (st : state) (loc : nat)
    (kc : socket) :
  validateEvent "join-view" (to_js <$> d) = Valid →
  d ≫= p_roomId = Some rid → rid ≠ "" →
  rooms_get st rid = RoomAt loc →
  sock st c = Some kc → connected kc = true →
  h ≠ c → sock_roomId st h = Some rid →
  rid ≠ h → h ∉ joined kc →
  validateEvent (signal_name k) (to_js <$> data) = Valid →
  truthy_str (data ≫= p_targetId) = false →
  data ≫= signal_field k = Some b → truthy b = true →
  Deliver c (Signal (signal_emitted k) (Some b) h)
    ∈ (on_signal k h data (on_join_view c d st).1).2.
Proof.
  intros Hv Hd Hne Hroom Hk Hc Hh Hrid Hrh Hj Hv' Ht Hb Htr.
  destruct (join_view_membership c rid d st h loc kc Hv Hd Hne Hroom Hk Hc Hh)
    as [Hin Hsame].
  rewrite (broadcast_out k h rid b); try done; [|by rewrite Hsame].
  apply list_elem_of_fmap. exists c. split; [done|].
  apply list_elem_of_filter. split.
  - intros (k2 & Hk2 & _ & Hj2)%elem_of_members.
    rewrite Hin in Hk2. injection Hk2 as <-. simpl in Hj2.
    apply elem_of_union in Hj2 as [Hj2%elem_of_singleton|Hj2]; done.
  - apply elem_of_members. eexists. split; [exact Hin|].
    split; [done|]. simpl. set_solver.
Qed.

Lemma joined_viewer_hears_broadcast_witness :
  Deliver "D" (Signal "offer" (Some (JStr "sdp")) "A")
    ∈ (on_signal SOffer "A"
         (Some (mkPayload None None (Some (JStr "sdp")) None None))
         (on_join_view "D" (with_room "R") room_R).1).2.
Proof.
  apply (joined_viewer_hears_broadcast SOffer "D" "A" "R" (JStr "sdp")
           (with_room "R")
           (Some (mkPayload None None (Some (JStr "sdp")) None None))
           room_R 0 (mkSocket None None true {[ "D" ]}));
    try reflexivity; done.
Defined.

(** X25: a socket whose room id is its own id (a host that shared
    without naming a room) reaches nobody with a signaling event that
    names no target: the broadcast excepts the Socket.IO room named by
    the sender's id, and that is the very room it is sent to, the one the
    viewers joined.  At most an error goes back to the sender. *)
Theorem own_id_room_broadcast_unheard (k : signal) (s : string)
    (data : option payload) (st : state) :
  sock_roomId st s = Some s →
  truthy_str (data ≫= p_targetId) = false →
  ∀ t m, Deliver t m ∈ (on_signal k s data st).2 →
         t = s ∧ ∃ text, m = Error text.
Proof.
  intros Hrid Ht t m. rewrite on_signal_unfold. unfold relay.
  assert (∀ text, Deliver t m ∈ (socket_emit s (Error text) st).2 →
            t = s ∧ ∃ text, m = Error text) as Hemit.
  { intros text [[= -> ->] _]%socket_emit_elem. eauto. }
  destruct (validateEvent _ _); [|apply Hemit].
  rewrite Ht, Hrid. cbn [negb orb].
  destruct (data ≫= signal_field k) as [b|]; [|apply Hemit].
  destruct (_ && _); [|apply Hemit].
  unfold socket_to_emit. cbn [snd].
  intros (t' & _ & Hin)%list_elem_of_fmap.
  by apply list_elem_of_filter in Hin as [Hno Hin].
Qed.

Lemma own_id_room_broadcast_unheard_witness :
  ∃ st, fst <$> run own_room_events initial = Some st ∧
    room_at st "A" = Some (mkRoom "A" ["C"]) ∧
    ∀ t m, Deliver t m
             ∈ (on_signal SOffer "A"
                  (Some (mkPayload None None (Some (JStr "sdp")) None None))
                  st).2 →
           t = "A" ∧ ∃ text, m = Error text.
Proof.
  eexists. split; [vm_compute; reflexivity|].
  split; [vm_compute; reflexivity|].
  apply (own_id_room_broadcast_unheard SOffer "A"); reflexivity.
Defined.

(** ** Where an error can be thrown *)

Lemma broadcast_not_thrown (m : message) (l : list string) :
  Thrown ∉ (λ t, Deliver t m) <$> l.
Proof. by intros (t & [=] & _)%list_elem_of_fmap. Qed.

Lemma socket_emit_not_thrown (s : string) (m : message) (st : state) :
  Thrown ∉ (socket_emit s m st).2.
Proof. by intros [[=] _]%socket_emit_elem. Qed.

Lemma signal_not_thrown (k : signal) (s : string) (d : option payload)
    (st : state) :
  Thrown ∉ (on_signal k s d st).2.
Proof.
  rewrite on_signal_unfold.
  destruct (relay_messages (signal_name k) (signal_emitted k)
              (signal_field k) (signal_invalid k) s d st)
    as (out & -> & Ho).
  intros Hin. rewrite Forall_forall in Ho.
  by destruct (Ho _ Hin) as [(t & b & _ & _ & [=])|(m & [=] & _)].
Qed.

(** X26: while [rooms] has the prototype it was created with and no
    socket has a room id that names a member of [Object.prototype], the
    only event whose handler throws is a join-view for a room id naming
    such a member; it throws before it changes or sends anything.  No
    start-share, stop-share, signaling event or disconnect throws
    there. *)
Theorem only_join_view_throws (ev : event) (st st' : state)
    (out : list effect) :
  plain_rooms st → handle ev st = Some (st', out) → Thrown ∈ out →
  ∃ s d rid, ev = JoinView s d ∧ d ≫= p_roomId = Some rid ∧
             plain_name rid = false ∧ st' = st ∧ out = [Thrown].
Proof.
  intros Hp. unfold handle. destruct (enabled st ev); [|done].
  assert (∀ k s d, on_signal k s d st = (st', out) → Thrown ∉ out) as Hsig.
  { intros k s d Hrun. pose proof (signal_not_thrown k s d st) as H.
    by rewrite Hrun in H. }
  destruct ev as [s|s|s d|s|s|s d|s d|s d|s d|s d]; cbn [dispatch];
    intros Hrun Hin.
  - injection Hrun as _ <-. by apply elem_of_nil in Hin.
  - unfold disconnect in Hrun.
    apply on_disconnect_plain in Hrun as [_ Hq];
      [|by apply plain_rooms_close].
    rewrite threw_false, Forall_forall in Hq. by apply Hq in Hin.
  - injection Hrun as Hrun. unfold on_start_share in Hrun.
    destruct (validateEvent _ _).
    + destruct (new_room_state (or_else (d ≫= p_roomId) s) s st)
        as (st1 & Hnew & _).
      rewrite !seq_run, Hnew in Hrun. injection Hrun as _ <-.
      by apply broadcast_not_thrown in Hin.
    + pose proof (socket_emit_not_thrown s (Error error) st) as H.
      rewrite Hrun in H. by apply H in Hin.
  - injection Hrun as Hrun. unfold on_stop_share in Hrun.
    destruct (sock_roomId st s) as [rid|] eqn:Hrid;
      [|injection Hrun as _ <-; by apply elem_of_nil in Hin].
    destruct (_ && _);
      [|injection Hrun as _ <-; by apply elem_of_nil in Hin].
    rewrite (plain_rooms_get st s rid Hp Hrid) in Hrun.
    destruct (rooms st !! rid) as [loc|];
      [|injection Hrun as _ <-; by apply elem_of_nil in Hin].
    rewrite !seq_run in Hrun. cbn [fst snd io_to_emit delete_room] in Hrun.
    rewrite leave_all_run, !app_nil_r in Hrun. injection Hrun as _ <-.
    by apply broadcast_not_thrown in Hin.
  - injection Hrun as _ <-. by apply socket_emit_not_thrown in Hin.
  - injection Hrun as Hrun. unfold on_join_view in Hrun.
    assert (∀ m, socket_emit s m st = (st', out) → False) as Hemit.
    { intros m Hm. pose proof (socket_emit_not_thrown s m st) as H.
      rewrite Hm in H. by apply H in Hin. }
    destruct (validateEvent _ _); [|by destruct (Hemit _ Hrun)].
    destruct (d ≫= p_roomId) as [rid|] eqn:Hd; cbn in Hrun;
      [|by destruct (Hemit _ Hrun)].
    destruct (String.eqb rid ""); cbn in Hrun;
      [by destruct (Hemit _ Hrun)|].
    destruct (rooms_get st rid) as [|loc|] eqn:Hget;
      [by destruct (Hemit _ Hrun)| |].
    + injection Hrun as _ <-.
      apply elem_of_app in Hin as [Hin|Hin];
        [by apply broadcast_not_thrown in Hin|].
      match type of Hin with
      | _ ∈ (if ?c then _ else _) => destruct c
      end; [by apply list_elem_of_singleton in Hin|by apply elem_of_nil in Hin].
    + injection Hrun as <- <-. exists s, d, rid.
      repeat split; try done.
      destruct (plain_name rid) eqn:Hplain; [|done].
      destruct Hp as [Hproto _].
      rewrite (rooms_get_plain st rid) in Hget
        by (by apply plain_name_key).
      by destruct (rooms st !! rid).
  - injection Hrun as Hrun. by destruct (Hsig SOffer s d Hrun).
  - injection Hrun as Hrun. by destruct (Hsig SAnswer s d Hrun).
  - injection Hrun as Hrun. by destruct (Hsig SIce s d Hrun).
  - injection Hrun as Hrun. by destruct (Hsig SIceCandidate s d Hrun).
Qed.

Lemma only_join_view_throws_witness :
  ∃ s d rid, JoinView "D" (with_room "valueOf") = JoinView s d ∧
             d ≫= p_roomId = Some rid ∧ plain_name rid = false ∧
             room_R = room_R ∧ [Thrown] = [Thrown].
Proof.
  apply (only_join_view_throws (JoinView "D" (with_room "valueOf"))
           room_R room_R [Thrown]).
  - split; [reflexivity|]. intros t rid Ht. unfold sock_roomId, sock in Ht.
    destruct (sockets room_R !! t) as [k|] eqn:Hk; [|done]. simpl in Ht.
    apply elem_of_map_to_list in Hk. vm_compute in Hk.
    repeat (apply elem_of_cons in Hk as [Hk|Hk];
            [injection Hk as -> ->; simpl in Ht;
             first [discriminate | by injection Ht as <-]|]).
    by apply elem_of_nil in Hk.
  - reflexivity.
  - apply list_elem_of_singleton. reflexivity.
Defined.
